(** * The Etsy listing photo pipeline (scripts/etsy-pipeline.py)

    A shallow embedding of the parts of the script that decide the
    properties stated for it: the product key (regular expression, fallback
    and slug), the facet classifier, the geometry of the image transforms,
    prices and tags, and the per-group processing loop with its exports.

    Text is a list of characters; a character is a code point below 256.
    Image pixels are kept symbolic (which picture was pasted where), sizes
    and modes are exact. *)

From Stdlib Require Import ZArith List Ascii String Bool Lia DecimalString Sorted.
From Stdlib Require PrimFloat Uint63.
From stdpp Require Import gmap strings list fin_maps.
Import ListNotations.

Local Open Scope Z_scope.

(** ** Text *)

Module Text.

Definition text := list ascii.

Definition of_string : string -> text := list_ascii_of_string.
Definition to_string : text -> string := string_of_list_ascii.

Definition code (c : ascii) : N := N_of_ascii c.

Definition between (lo hi : N) (c : ascii) : bool :=
  ((lo <=? code c) && (code c <=? hi))%N.

Definition is_digit : ascii -> bool := between 48 57.
Definition is_upper : ascii -> bool := between 65 90.
Definition is_lower : ascii -> bool := between 97 122.
Definition is_alpha (c : ascii) : bool := is_upper c || is_lower c.
Definition is_alnum (c : ascii) : bool := is_alpha c || is_digit c.
Definition is_char (d c : ascii) : bool := (code c =? code d)%N.
Definition is_dash : ascii -> bool := is_char "-".

(** [str.lower] on code points below 256: A-Z, and the Latin-1 capitals
    0xC0-0xDE without the multiplication sign 0xD7. *)
Definition lower_char (c : ascii) : ascii :=
  if is_upper c || (between 192 222 c && negb (code c =? 215)%N)
  then ascii_of_N (code c + 32) else c.

Definition lower (s : text) : text := map lower_char s.

(** [str.isspace] below 256, the separators of [str.split()]. *)
Definition is_space (c : ascii) : bool :=
  between 9 13 c || between 28 32 c || (code c =? 133)%N || (code c =? 160)%N.

Fixpoint starts_with (pre s : text) : bool :=
  match pre, s with
  | [], _ => true
  | _ :: _, [] => false
  | a :: pre', b :: s' => (code a =? code b)%N && starts_with pre' s'
  end.

(** [needle in s] *)
Fixpoint contains (needle s : text) : bool :=
  starts_with needle s ||
  match s with
  | [] => false
  | _ :: s' => contains needle s'
  end.

(** [s.replace(a, b)] for single characters *)
Definition replace_char (a b : ascii) (s : text) : text :=
  map (fun c => if is_char a c then b else c) s.

(** [s.split(sep)[0]] *)
Fixpoint before_first (sep : ascii) (s : text) : text :=
  match s with
  | [] => []
  | c :: s' => if is_char sep c then [] else c :: before_first sep s'
  end.

(** [s.split()]: maximal runs of characters that are not white space. *)
Fixpoint split_ws_go (cur : text) (s : text) : list text :=
  match s with
  | [] => match cur with [] => [] | _ => [rev cur] end
  | c :: s' =>
      if is_space c
      then match cur with
           | [] => split_ws_go [] s'
           | _ => rev cur :: split_ws_go [] s'
           end
      else split_ws_go (c :: cur) s'
  end.

Definition split_ws : text -> list text := split_ws_go [].

(** [sep.join(parts)] *)
Fixpoint join (sep : text) (parts : list text) : text :=
  match parts with
  | [] => []
  | [p] => p
  | p :: rest => p ++ sep ++ join sep rest
  end.

(** [s.lstrip(c)], [s.rstrip(c)] and [s.strip(c)] for one character. *)
Fixpoint lstrip (P : ascii -> bool) (s : text) : text :=
  match s with
  | [] => []
  | c :: s' => if P c then lstrip P s' else s
  end.

Fixpoint rstrip (P : ascii -> bool) (s : text) : text :=
  match s with
  | [] => []
  | c :: s' =>
      match rstrip P s' with
      | [] => if P c then [] else [c]
      | r => c :: r
      end
  end.

Definition strip (P : ascii -> bool) (s : text) : text := rstrip P (lstrip P s).

(** [re.sub] of a pattern [[class]+] by [rep]: every maximal run of
    characters of the class is replaced by one copy of [rep]. *)
Fixpoint sub_runs (P : ascii -> bool) (rep : text) (in_run : bool) (s : text) : text :=
  match s with
  | [] => []
  | c :: s' =>
      if P c
      then (if in_run then [] else rep) ++ sub_runs P rep true s'
      else c :: sub_runs P rep false s'
  end.

(** The index of the last occurrence of [d], [s.rfind(d)]. *)
Fixpoint rfind_go (d : ascii) (i : Z) (found : Z) (s : text) : Z :=
  match s with
  | [] => found
  | c :: s' => rfind_go d (i + 1) (if is_char d c then i else found) s'
  end.

Definition rfind (d : ascii) (s : text) : Z := rfind_go d 0 (-1) s.

Definition len (s : text) : Z := Z.of_nat (length s).

End Text.

Import Text.

(** String literals stand for texts. *)
Definition txt : string -> text := Text.of_string.
Coercion txt : string >-> text.
#[global] Typeclasses Transparent text.

(** Concatenation of texts, so that literals can take part. *)
Notation "a +++ b" := (@app ascii (a : text) (b : text))
  (at level 60, right associativity, only parsing).

(** ** Regular expressions

    Matching by derivatives; [re.match] of [PRODUCT_REGEX] is built on it
    below. A character class is a predicate on characters. *)

Module Regex.

Inductive re :=
| Void
| Eps
| Cls (f : ascii -> bool)
| Cat (r1 r2 : re)
| Alt (r1 r2 : re)
| Star (r : re).

Fixpoint nullable (r : re) : bool :=
  match r with
  | Void => false
  | Eps => true
  | Cls _ => false
  | Cat r1 r2 => nullable r1 && nullable r2
  | Alt r1 r2 => nullable r1 || nullable r2
  | Star _ => true
  end.

Fixpoint deriv (c : ascii) (r : re) : re :=
  match r with
  | Void => Void
  | Eps => Void
  | Cls f => if f c then Eps else Void
  | Cat r1 r2 =>
      if nullable r1
      then Alt (Cat (deriv c r1) r2) (deriv c r2)
      else Cat (deriv c r1) r2
  | Alt r1 r2 => Alt (deriv c r1) (deriv c r2)
  | Star r1 => Cat (deriv c r1) (Star r1)
  end.

(** The whole of [s] is in the language of [r]. *)
Fixpoint matches (r : re) (s : text) : bool :=
  match s with
  | [] => nullable r
  | c :: s' => matches (deriv c r) s'
  end.

Definition Opt (r : re) : re := Alt Eps r.

Fixpoint Seq (rs : list re) : re :=
  match rs with
  | [] => Eps
  | r :: rs' => Cat r (Seq rs')
  end.

Fixpoint AnyOf (rs : list re) : re :=
  match rs with
  | [] => Void
  | r :: rs' => Alt r (AnyOf rs')
  end.

(** [r{n}] and [r{0,n}] *)
Fixpoint Times (n : nat) (r : re) : re :=
  match n with
  | O => Eps
  | S n' => Cat r (Times n' r)
  end.

Fixpoint UpTo (n : nat) (r : re) : re :=
  match n with
  | O => Eps
  | S n' => Opt (Cat r (UpTo n' r))
  end.

(** A literal word under [re.I]. *)
Definition LitI (w : text) : re :=
  Seq (map (fun d => Cls (fun c => (code (lower_char c) =? code (lower_char d))%N)) w).

End Regex.

Import Regex.

(** ** Configuration *)

Definition VARIANTS : list (text * Z * Z * text) :=
  [ ("etsy_primary_3000x2400" : text, 3000, 2400, "#ffffff" : text);
    ("etsy_square_2000" : text, 2000, 2000, "#ffffff" : text);
    ("website_large_1600" : text, 1600, 1600, "#ffffff" : text);
    ("website_medium_1000" : text, 1000, 1000, "#ffffff" : text);
    ("website_thumb_400" : text, 400, 400, "#ffffff" : text) ].

Definition ADD_WATERMARK : bool := true.
(** [WATERMARK_OPACITY = 0.15] acts on pixel values only. [WATERMARK_SCALE]
    is 0.20, kept as the fraction 20/100. *)
Definition WATERMARK_SCALE_num : Z := 20.
Definition WATERMARK_SCALE_den : Z := 100.
Definition WATERMARK_POS : text := "bottom_right".

Definition MAX_EXTRAS : nat := 9.

Definition DEFAULT_TAGS : list text :=
  map txt ["fine art print"; "photography"; "wall art"; "landscape"; "home decor"]%string.

Definition price_row (ca hi az other : Z) : gmap text Z :=
  list_to_map [("California" : text, ca); ("Hawaii" : text, hi);
               ("Arizona" : text, az); ("Other" : text, other)].

Definition PRICE_MATRIX : gmap text (gmap text Z) :=
  list_to_map
    [ ("Architecture" : text, price_row 45 55 40 35);
      ("Landscapes" : text,   price_row 50 65 45 40);
      ("Cityscapes" : text,   price_row 45 55 40 35);
      ("Nature" : text,       price_row 40 60 35 30);
      ("Other" : text,        price_row 35 45 30 25) ].

(** ** Identity resolver *)

(** [[A-Za-z0-9\-_ ]] under [re.I]; below 256 the flag adds nothing to it. *)
Definition name_char (c : ascii) : bool :=
  is_alnum c || is_dash c || is_char "_" c || is_char " " c.

Definition sep_char (c : ascii) : bool :=
  is_dash c || is_char "_" c || is_char " " c.

(** [[a-f0-9]] under [re.I] *)
Definition hex_char (c : ascii) : bool :=
  is_digit c || between 97 102 c || between 65 70 c.

(** What follows the lazy first group in [PRODUCT_REGEX]:
    [[-_ ]?(main|extra|listing)?[-_ ]?\d{0,2}[-_ ]?\d{4}[-_ ]?[a-f0-9]*\.(jpg|jpeg|png|tif|tiff)$].
    Without [re.M], [$] is the end of the text or the place before a last
    line feed. *)
Definition PRODUCT_REGEX_rest : re :=
  Seq [ Opt (Cls sep_char);
        Opt (AnyOf [LitI "main"; LitI "extra"; LitI "listing"]);
        Opt (Cls sep_char);
        UpTo 2 (Cls is_digit);
        Opt (Cls sep_char);
        Times 4 (Cls is_digit);
        Opt (Cls sep_char);
        Star (Cls hex_char);
        Cls (is_char ".");
        AnyOf [LitI "jpg"; LitI "jpeg"; LitI "png"; LitI "tif"; LitI "tiff"];
        Opt (Cls (is_char "010")) ].

(** [PRODUCT_REGEX.match(name)] and its [group(1)]. The first group is
    lazy: the engine takes the shortest run (one character at least) of
    name characters after which the rest of the pattern matches. [acc] is
    the run consumed so far, reversed. *)
Fixpoint PRODUCT_REGEX_go (acc : text) (s : text) : option text :=
  match s with
  | [] => None
  | c :: s' =>
      if name_char c
      then if matches PRODUCT_REGEX_rest s'
           then Some (rev (c :: acc))
           else PRODUCT_REGEX_go (c :: acc) s'
      else None
  end.

Definition PRODUCT_REGEX_match (name : text) : option text :=
  PRODUCT_REGEX_go [] name.

(** A path is the text of [str(p)]; [p.name] is its last component. *)
Abbreviation Path := text (only parsing).

Fixpoint path_name_go (cur : text) (s : text) : text :=
  match s with
  | [] => rev cur
  | c :: s' => if is_char "/" c then path_name_go [] s' else path_name_go (c :: cur) s'
  end.

Definition path_name (p : Path) : text := path_name_go [] p.

(** [p.stem]: the name without its last suffix; a dot that starts or ends
    the name starts no suffix. *)
Definition path_stem (p : Path) : text :=
  let name := path_name p in
  let i := rfind "." name in
  if (0 <? i) && (i <? len name - 1) then firstn (Z.to_nat i) name else name.

(** *** slugify

    python-slugify, as called by [slugify(stem, max_length=50)]: every
    other option at its default. The steps that need the Unicode and HTML
    entity tables (NFKD normalisation, unidecode, the decoding of character
    references) are the parameter [translit]; they run between the first
    replacement of quotes and the lowering. *)

Section Slugify.

Variable translit : text -> text.

Definition is_quote : ascii -> bool := is_char "'".

(** [NUMBERS_PATTERN.sub('', text)], pattern [(?<=\d),(?=\d)]: a comma
    between two digits goes. [prev] is the character before, if any. *)
Fixpoint cleanup_numbers (prev : option ascii) (s : text) : text :=
  match s with
  | [] => []
  | c :: s' =>
      let digit_before := match prev with Some d => is_digit d | None => false end in
      let digit_after := match s' with d :: _ => is_digit d | [] => false end in
      if is_char "," c && digit_before && digit_after
      then cleanup_numbers (Some c) s'
      else c :: cleanup_numbers (Some c) s'
  end.

(** [[^-a-zA-Z0-9]] *)
Definition disallowed (c : ascii) : bool := negb (is_dash c || is_alnum c).

Definition smart_truncate (s : text) (max_length : nat) : text :=
  let s := strip is_dash s in
  if (max_length =? 0)%nat then s
  else if (length s <? max_length)%nat then s
  else strip is_dash (firstn max_length s).

Definition slugify (s : text) (max_length : nat) : text :=
  (* QUOTE_PATTERN.sub('-', text) *)
  let s := sub_runs is_quote "-" false s in
  let s := translit s in
  let s := lower s in
  (* QUOTE_PATTERN.sub('', text) *)
  let s := sub_runs is_quote "" false s in
  let s := cleanup_numbers None s in
  (* re.sub(DISALLOWED_CHARS_PATTERN, '-', text) *)
  let s := sub_runs disallowed "-" false s in
  (* DUPLICATE_DASH_PATTERN.sub('-', text).strip('-'); a lone hyphen is
     replaced by itself *)
  let s := strip is_dash (sub_runs is_dash "-" false s) in
  if (0 <? max_length)%nat then smart_truncate s max_length else s.

End Slugify.

(** The [stem] that [product_key] hands to slugify *)
Definition product_stem (p : Path) : text :=
  match PRODUCT_REGEX_match (path_name p) with
  | Some g1 => g1
  | None =>
      if contains "_" (path_stem p)
      then before_first "_" (path_stem p)
      else path_stem p
  end.

Definition product_key (translit : text -> text) (p : Path) : text :=
  slugify translit (product_stem p) 50.

(** On text of code points below 128 that holds no character reference the
    table-driven steps of slugify change nothing. *)
Definition ascii_translit (s : text) : text := s.

(** ** Facet classifier *)

(** [any(x in path_str for x in words)] *)
Definition any_in (words : list text) (path_str : text) : bool :=
  existsb (fun x => contains x path_str) words.

Record metadata := { category : text; location : text }.

Definition parse_metadata_from_path (p : Path) : metadata :=
  let path_str := lower p in
  let category : text :=
    if any_in (map txt ["landscape"; "nature"; "scenic"]%string) path_str then "Landscapes"
    else if any_in (map txt ["architecture"; "building"; "structure"]%string) path_str then "Architecture"
    else if any_in (map txt ["city"; "urban"; "skyline"]%string) path_str then "Cityscapes"
    else if any_in (map txt ["nature"; "wildlife"; "natural"]%string) path_str then "Nature"
    else "Other" in
  let location : text :=
    if any_in (map txt ["hawaii"; "maui"; "oahu"]%string) path_str then "Hawaii"
    else if any_in (map txt ["california"; "ca"; "big_sur"; "carmel"; "monterey"]%string) path_str
         then "California"
    else if any_in (map txt ["arizona"; "az"; "sedona"; "flagstaff"]%string) path_str then "Arizona"
    else "Other" in
  {| category := category; location := location |}.

(** ** Pricing and tags *)

(** [d[k]]: a missing key raises [KeyError], here [None]. *)
Definition getitem {V} (d : gmap text V) (k : text) : option V := d !! k.

(** [d.get(k, dflt)]; Python evaluates [dflt] before the call. *)
Definition get_or {V} (d : gmap text V) (k : text) (dflt : V) : V :=
  match d !! k with
  | Some v => v
  | None => dflt
  end.

Definition calculate_price (category location : text) : option Z :=
  other_row ← getitem PRICE_MATRIX "Other";
  let cat_prices := get_or PRICE_MATRIX category other_row in
  other_price ← getitem cat_prices "Other";
  Some (get_or cat_prices location other_price).

(** [list(dict.fromkeys(tags))]: a dict keeps its keys in the order of
    their first insertion; [seen] is that key list, reversed. *)
Fixpoint fromkeys_go (seen : list text) (tags : list text) : list text :=
  match tags with
  | [] => rev seen
  | t :: tags' =>
      if bool_decide (t ∈ seen) then fromkeys_go seen tags'
      else fromkeys_go (t :: seen) tags'
  end.

Definition fromkeys (tags : list text) : list text := fromkeys_go [] tags.

Definition generate_tags (product_key category location : text) : list text :=
  let tags := DEFAULT_TAGS in
  let tags :=
    if bool_decide (category = "Landscapes")
    then tags ++ map txt ["nature"; "scenic"; "landscape photography"]%string
    else if bool_decide (category = "Architecture")
    then tags ++ map txt ["building"; "structure"; "architectural"]%string
    else if bool_decide (category = "Cityscapes")
    then tags ++ map txt ["urban"; "city"; "skyline"]%string
    else if bool_decide (category = "Nature")
    then tags ++ map txt ["natural"; "outdoor"; "wilderness"]%string
    else tags in
  let tags := if bool_decide (location <> "Other") then tags ++ [lower location] else tags in
  let keywords := split_ws (replace_char "-" " " product_key) in
  let tags := tags ++ List.filter (fun k => 2 <? len k) keywords in
  firstn 13 (fromkeys tags).

(** ** Images

    An image is the term that says how it was made; its mode and size are
    computed from the term, its pixel values are not. *)

Inductive mode := RGB | RGBA | OtherMode.

Inductive image :=
| Opened (p : Path) (m : mode) (w h : Z)           (* Image.open(p), the data decode *)
| Truncated (p : Path) (m : mode) (w h : Z)        (* Image.open(p), the data do not *)
| Convert (m : mode) (src : image)                 (* im.convert(m) *)
| Resize (src : image) (w h : Z)                   (* im.resize((w, h), LANCZOS) *)
| New (m : mode) (w h : Z) (color : text)          (* Image.new(m, (w, h), color) *)
| Paste (under top : image) (x y : Z)              (* under.paste(top, (x, y)) *)
| PutAlpha (src : image)                           (* alpha band scaled by the opacity *)
| AlphaComposite (under top : image) (x y : Z).    (* under.alpha_composite(top, (x, y)) *)

Fixpoint im_mode (im : image) : mode :=
  match im with
  | Opened _ m _ _ => m
  | Truncated _ m _ _ => m
  | Convert m _ => m
  | Resize src _ _ => im_mode src
  | New m _ _ _ => m
  | Paste under _ _ _ => im_mode under
  | PutAlpha src => im_mode src
  | AlphaComposite under _ _ _ => im_mode under
  end.

Fixpoint width (im : image) : Z :=
  match im with
  | Opened _ _ w _ => w
  | Truncated _ _ w _ => w
  | Convert _ src => width src
  | Resize _ w _ => w
  | New _ w _ _ => w
  | Paste under _ _ _ => width under
  | PutAlpha src => width src
  | AlphaComposite under _ _ _ => width under
  end.

Fixpoint height (im : image) : Z :=
  match im with
  | Opened _ _ _ h => h
  | Truncated _ _ _ h => h
  | Convert _ src => height src
  | Resize _ _ h => h
  | New _ _ h _ => h
  | Paste under _ _ _ => height under
  | PutAlpha src => height src
  | AlphaComposite under _ _ _ => height under
  end.

(** [Image.open] reads the header of a file and leaves the pixel data for
    later: they are decoded by the first operation that needs them
    ([convert], [copy]), which raises when they are truncated or corrupt. *)
Definition decoded (im : image) : bool :=
  match im with
  | Truncated _ _ _ _ => false
  | _ => true
  end.

(** What the script reads from outside. [open_image p] is the mode and
    size of the file at [p] when [Image.open(p)] accepts it and its data
    decode; for a file that has none, [truncated_image p] is the mode and
    size [Image.open(p)] finds when it accepts the file and the data do not
    decode. A file with neither is one on which [Image.open] raises. *)
Record world := {
  open_image : Path -> option (mode * Z * Z);
  truncated_image : Path -> option (mode * Z * Z);
  md5_of : Path -> text;                     (* [md5hash], its "unknown" included *)
  watermark_exists : bool;                   (* WATERMARK_PATH.exists() *)
  watermark_file : option (mode * Z * Z);    (* Image.open(WATERMARK_PATH).convert("RGBA") *)
  negative_dest_raises : bool                (* whether this Pillow refuses a negative
                                                destination in alpha_composite *)
}.

Definition WATERMARK_PATH : text := "watermark.png".

(** [load_rgb]: an RGB or RGBA file is returned as [Image.open] gives it,
    its data not read yet; a file of another mode is converted, which
    decodes it, and the [except] answers [None] when that raises. *)
Definition load_rgb (W : world) (path : Path) : option image :=
  match open_image W path with
  | Some (m, w, h) =>
      let im := Opened path m w h in
      Some (match m with
            | RGB | RGBA => im
            | OtherMode => Convert RGB im
            end)
  | None =>
      match truncated_image W path with
      | Some (m, w, h) =>
          match m with
          | RGB | RGBA => Some (Truncated path m w h)
          | OtherMode => None
          end
      | None => None
      end
  end.

(** [math.ceil(a / b)] for [0 < b] *)
Definition ceil_div (a b : Z) : Z := - ((- a) / b).

(** [float(z)] for a size *)
Definition float_of_Z (z : Z) : PrimFloat.float := PrimFloat.of_uint63 (Uint63.of_Z z).

(** [abs(a / b - c / d)] as Python computes it, in binary64 *)
Definition float_key (a b c d : Z) : PrimFloat.float :=
  PrimFloat.abs (PrimFloat.sub (PrimFloat.div (float_of_Z a) (float_of_Z b))
                               (PrimFloat.div (float_of_Z c) (float_of_Z d))).

(** [min(f, c, key=key)] in [round_aspect]: of the floor [f] and the ceiling
    [c] the one whose key is less, the floor when the keys are the same.
    Pillow computes the keys in floating point. [kf] and [kc] are the exact
    keys, brought to one denominator: where they differ, they differ by far
    more than the rounding of binary64 for the sizes of photographs, and
    are compared as they are; where they are equal the rounding decides,
    and the floating-point keys [xf] and [xc] are compared as Pillow
    compares them. *)
Definition nearer (f c kf kc : Z) (xf xc : PrimFloat.float) : Z :=
  match kf ?= kc with
  | Lt => f
  | Gt => c
  | Eq => if PrimFloat.ltb xc xf then c else f
  end.

(** [Image.thumbnail]'s [preserve_aspect_ratio], the quotients taken
    exactly: [None] for no change, [Some None] where Python divides by
    zero. [round_aspect] picks of floor and ceiling the one whose ratio is
    nearer to the aspect (a zero in the second branch always), then 1 at
    least. *)
Definition preserve_aspect_ratio (iw ih x y : Z) : option (option (Z * Z)) :=
  if (iw <=? x) && (ih <=? y) then None
  else Some (
    if (ih =? 0) || (y =? 0) then None
    else if y * iw <=? x * ih then
      (* x / y >= aspect: x = round_aspect(y * aspect, |aspect - n / y|) *)
      let f := (y * iw) / ih in
      let c := ceil_div (y * iw) ih in
      let n := nearer f c (Z.abs (iw * y - f * ih)) (Z.abs (iw * y - c * ih))
                 (float_key iw ih f y) (float_key iw ih c y) in
      Some (Z.max n 1, y)
    else if iw =? 0 then None
    else
      (* y = round_aspect(x / aspect, 0 if n == 0 else |aspect - x / n|) *)
      let f := (x * ih) / iw in
      let c := ceil_div (x * ih) iw in
      let n := if f =? 0 then f
               else nearer f c (Z.abs (iw * f - x * ih) * c) (Z.abs (iw * c - x * ih) * f)
                      (float_key iw ih x f) (float_key iw ih x c) in
      Some (x, Z.max n 1)).

(** [im.thumbnail((w, h), LANCZOS)] on a copy *)
Definition thumbnail (im : image) (w h : Z) : option image :=
  match preserve_aspect_ratio (width im) (height im) w h with
  | None => Some im
  | Some None => None
  | Some (Some (x, y)) =>
      if (x =? width im) && (y =? height im) then Some im
      else if (x <? 1) || (y <? 1) then None
      else Some (Resize im x y)
  end.

(** [im.copy()]: it loads the image, and raises when the data of a file
    opened and not read yet do not decode. *)
Definition copy (im : image) : option image :=
  if decoded im then Some im else None.

Definition pad_resize (im : image) (w h : Z) (bg : text) : option image :=
  im2 ← copy im;
  im2 ← thumbnail im2 w h;
  if (w <? 0) || (h <? 0) then None
  else
    let canvas := New RGB w h bg in
    Some (Paste canvas im2 ((w - width im2) / 2) ((h - height im2) / 2)).

(** The [try] block of [add_watermark]; [None] when it raises. *)
Definition add_watermark_try (W : world) (im : image) : option image :=
  let base := Convert RGBA im in
  '(m, ww, wh) ← watermark_file W;
  let wm := Convert RGBA (Opened WATERMARK_PATH m ww wh) in
  let min_side := Z.min (width base) (height base) in
  (* int(min(base.size) * WATERMARK_SCALE) *)
  let tgt := Z.quot (min_side * WATERMARK_SCALE_num) WATERMARK_SCALE_den in
  if width wm =? 0 then None
  else
    let th := Z.quot (tgt * height wm) (width wm) in
    if (tgt <? 1) || (th <? 1) then None
    else
      let wm := PutAlpha (Resize wm tgt th) in
      (* int(0.02 * min(base.size)) *)
      let margin := Z.quot (2 * min_side) 100 in
      let bottom_right := (width base - width wm - margin, height base - height wm - margin) in
      let pos_map : list (text * (Z * Z)) :=
        [ ("bottom_right" : text, bottom_right);
          ("bottom_left" : text, (margin, height base - height wm - margin));
          ("top_right" : text, (width base - width wm - margin, margin));
          ("top_left" : text, (margin, margin));
          ("center" : text, ((width base - width wm) / 2, (height base - height wm) / 2)) ] in
      let '(x, y) :=
        default bottom_right
          (snd <$> List.find (fun e => bool_decide (fst e = WATERMARK_POS)) pos_map) in
      if negative_dest_raises W && ((x <? 0) || (y <? 0)) then None
      else Some (Convert RGB (AlphaComposite base wm x y)).

Definition add_watermark (W : world) (im : image) : image :=
  if negb ADD_WATERMARK || negb (watermark_exists W) then im
  else match add_watermark_try W im with
       | Some out => out
       | None => im
       end.

(** ** Listing records *)

(** [str(n)] for a natural number *)
Definition str_of_nat (n : nat) : text :=
  txt (DecimalString.NilZero.string_of_uint (Nat.to_uint n)).

(** [f"{price:.2f}"] for a price of the matrix, an integer *)
Definition format_price (price : Z) : text :=
  (if price <? 0 then "-" else "") +++ str_of_nat (Z.to_nat (Z.abs price)) +++ ".00".

(** [str.title()]: a letter that follows no letter is made a capital, every
    other letter is lowered. The script calls it on product keys, which are
    slugs, so only the letters a-z are turned into capitals here. *)
Definition upper_char (c : ascii) : ascii :=
  if is_lower c then ascii_of_N (code c - 32) else c.

(** Cased characters below 256: the letters, the Latin-1 letters, the micro
    sign and the two ordinal indicators. *)
Definition is_cased (c : ascii) : bool :=
  is_alpha c
  || (between 192 255 c && negb (code c =? 215)%N && negb (code c =? 247)%N)
  || (code c =? 181)%N || (code c =? 170)%N || (code c =? 186)%N.

Fixpoint title_go (prev_cased : bool) (s : text) : text :=
  match s with
  | [] => []
  | c :: s' =>
      (if prev_cased then lower_char c else upper_char c) :: title_go (is_cased c) s'
  end.

Definition title_case : text -> text := title_go false.

(** A dict with text keys in the order of first insertion. *)
Fixpoint dict_set {V} (d : list (text * V)) (k : text) (v : V) : list (text * V) :=
  match d with
  | [] => [(k, v)]
  | (k', v') :: d' => if bool_decide (k' = k) then (k, v) :: d' else (k', v') :: dict_set d' k v
  end.

(** [d.get(k, "")] *)
Definition dict_get_text (d : list (text * text)) (k : text) : text :=
  default ("" : text) (snd <$> List.find (fun e => bool_decide (fst e = k)) d).

Definition DEFAULT_MATERIALS : list text :=
  map txt ["archival ink"; "fine-art paper"; "museum quality"]%string.

(** The marketplace record, without its description (a fixed template) and
    its time stamp. *)
Record etsy_listing := {
  sku : text;
  etsy_title : text;
  price : text;
  materials : text;
  etsy_tags : text;
  etsy_category : text;
  etsy_location : text;
  primary_image : text;
  additional_images : text;
  folder : text;
  source_files : nat
}.

Record website_product := {
  id : text;
  title : text;
  description : text;
  wp_category : text;
  wp_location : text;
  image_type : text;
  web_path : text;
  thumbnail_path : text;
  large_path : text;
  dimensions : Z * Z;                 (* {"width": .., "height": ..} *)
  tags : list text;
  base_price : Z;
  variants : list (text * text)
}.

(** A row of products_for_import.csv *)
Record import_row := {
  row_title : text;
  row_description : text;
  row_image_url : text;
  row_base_price : Z;
  row_category : text;
  row_tags : text;
  row_width : Z;
  row_height : Z
}.

(** ** The pipeline

    Files written so far are the state; [None] is a raised exception. What
    was written before an exception stays written. *)

Definition OUTPUT_ROOT : text :=
  "/Users/michaelhaslim/Documents/Hostinger_Website_Files/print-shop/data/etsy-processed".

(** [dir / name]; pathlib drops an empty segment. *)
Definition path_join (dir name : text) : text :=
  match name with
  | [] => dir
  | _ => dir +++ "/" +++ name
  end.

Definition written := list (text * image).

Definition M (A : Type) : Type := written -> option A * written.

#[global] Instance M_ret : MRet M := fun A a s => (Some a, s).
#[global] Instance M_bind : MBind M := fun A B f m s =>
  match m s with
  | (Some a, s') => f a s'
  | (None, s') => (None, s')
  end.

(** An expression that may raise *)
Definition try_ {A} (o : option A) : M A := fun s => (o, s).

(** [im.save(path, "JPEG", ...)] *)
Definition save (path : text) (im : image) : M unit :=
  fun s => (Some tt, s ++ [(path, im)]).

Section Pipeline.

Variable W : world.

(** [for label, w, h, bg in VARIANTS: ...] *)
Fixpoint variants_loop (im : image) (product_dir key : text)
    (vs : list (text * Z * Z * text)) (variant_paths : list (text * text))
    : M (list (text * text)) :=
  match vs with
  | [] => mret variant_paths
  | (label, w, h, bg) :: vs' =>
      resized ← try_ (pad_resize im w h bg);
      let watermarked := add_watermark W resized in
      let output_path := path_join product_dir (key +++ "_" +++ label +++ ".jpg") in
      _ ← save output_path watermarked;
      variants_loop im product_dir key vs' (dict_set variant_paths label output_path)
  end.

(** [for i, extra_file in enumerate(files[1:MAX_EXTRAS + 1]): ...] *)
Fixpoint extras_loop (product_dir key : text) (i : nat) (extra_files : list Path)
    (additional_images : list text) : M (list text) :=
  match extra_files with
  | [] => mret additional_images
  | extra_file :: rest =>
      match load_rgb W extra_file with
      | None => extras_loop product_dir key (S i) rest additional_images
      | Some extra_im =>
          resized ← try_ (pad_resize extra_im 2000 2000 "#ffffff");
          let watermarked := add_watermark W resized in
          let extra_path :=
            path_join product_dir
              (key +++ "_extra_" +++ str_of_nat (i + 1) +++ "_" +++ md5_of W extra_file +++ ".jpg") in
          _ ← save extra_path watermarked;
          extras_loop product_dir key (S i) rest (additional_images ++ [extra_path])
      end
  end.

(** The body of the loop over the groups, inside its [try]. [Some None]
    is the [continue] taken when [load_rgb] gives no primary image. *)
Definition process_group (key : text) (files : list Path)
    : M (option (etsy_listing * website_product)) :=
  let product_dir := path_join (path_join OUTPUT_ROOT "etsy_images") key in
  primary_file ← try_ (head files);
  let metadata := parse_metadata_from_path primary_file in
  match load_rgb W primary_file with
  | None => mret None
  | Some im =>
      variant_paths ← variants_loop im product_dir key VARIANTS [];
      additional ← extras_loop product_dir key 0 (take MAX_EXTRAS (drop 1 files)) [];
      let title := title_case (replace_char "-" " " key) in
      let category := category metadata in
      let location := location metadata in
      price ← try_ (calculate_price category location);
      let tags := generate_tags key category location in
      let etsy :=
        {| sku := key;
           etsy_title := title +++ " - Fine Art Photography Print";
           price := format_price price;
           materials := join ", " DEFAULT_MATERIALS;
           etsy_tags := join ", " tags;
           etsy_category := category;
           etsy_location := location;
           primary_image := dict_get_text variant_paths "etsy_primary_3000x2400";
           additional_images :=
             join ", " (dict_get_text variant_paths "etsy_square_2000" :: additional);
           folder := product_dir;
           source_files := length files |} in
      let website :=
        {| id := key;
           title := title;
           description :=
             "Beautiful " +++ lower category +++ " photography from " +++ location
             +++ ". Professional quality print ready for your home or office.";
           wp_category := category;
           wp_location := location;
           image_type := "Main_Images";
           web_path := "/images/" +++ key +++ "_website_medium_1000.jpg";
           thumbnail_path := "/images/" +++ key +++ "_website_thumb_400.jpg";
           large_path := "/images/" +++ key +++ "_website_large_1600.jpg";
           dimensions := (width im, height im);
           tags := tags;
           base_price := price;
           variants := variant_paths |} in
      mret (Some (etsy, website))
  end.

Record run := {
  etsy_listings : list etsy_listing;
  website_products : list website_product;
  files_written : written
}.

(** [for key, files in groups.items(): try: ... except: continue] *)
Fixpoint groups_loop (groups : list (text * list Path)) (r : run) : run :=
  match groups with
  | [] => r
  | (key, files) :: rest =>
      match process_group key files (files_written r) with
      | (Some (Some (etsy, website)), s) =>
          groups_loop rest
            {| etsy_listings := etsy_listings r ++ [etsy];
               website_products := website_products r ++ [website];
               files_written := s |}
      | (_, s) =>
          groups_loop rest
            {| etsy_listings := etsy_listings r;
               website_products := website_products r;
               files_written := s |}
      end
  end.

(** [website_csv_data], built from [website_products] after the loop *)
Fixpoint website_csv_data (products : list website_product) : list import_row :=
  match products with
  | [] => []
  | product :: rest =>
      {| row_title := title product;
         row_description := description product;
         row_image_url := web_path product;
         row_base_price := base_price product;
         row_category := wp_category product;
         row_tags := join ", " (tags product);
         row_width := fst (dimensions product);
         row_height := snd (dimensions product) |} :: website_csv_data rest
  end.

(** The exports of [main] over the groups found: the records of
    etsy_listings.csv, of website_products.json and of
    products_for_import.csv, and the image files written. *)
Definition main (groups : list (text * list Path))
    : list etsy_listing * list website_product * list import_row * written :=
  let r := groups_loop groups
             {| etsy_listings := []; website_products := []; files_written := [] |} in
  (etsy_listings r, website_products r, website_csv_data (website_products r), files_written r).

End Pipeline.

(** ** The tag list as the specification words it

    The base tags, the extra tags of the category, the lowered location
    unless it is "Other", the tokens of the product key longer than two
    characters; then duplicates go, the first occurrence staying, and the
    list is cut at 13. *)

Fixpoint dedupe_first_seen (l : list text) : list text :=
  match l with
  | [] => []
  | x :: rest => x :: List.filter (fun y => negb (bool_decide (y = x))) (dedupe_first_seen rest)
  end.

Definition category_extra_tags (category : text) : list text :=
  if bool_decide (category = "Landscapes") then map txt ["nature"; "scenic"; "landscape photography"]%string
  else if bool_decide (category = "Architecture") then map txt ["building"; "structure"; "architectural"]%string
  else if bool_decide (category = "Cityscapes") then map txt ["urban"; "city"; "skyline"]%string
  else if bool_decide (category = "Nature") then map txt ["natural"; "outdoor"; "wilderness"]%string
  else [].

Definition key_tokens (product_key : text) : list text :=
  List.filter (fun k => (2 <? length k)%nat) (split_ws (replace_char "-" " " product_key)).

Definition tags_spec (product_key category location : text) : list text :=
  take 13 (dedupe_first_seen
             (DEFAULT_TAGS ++ category_extra_tags category
              ++ (if bool_decide (location = "Other") then [] else [lower location])
              ++ key_tokens product_key)).

(** ** Slugs: lowercase letters and digits in groups, one hyphen between
    two groups. The empty text passes. *)

Definition slug_char (c : ascii) : bool := is_lower c || is_digit c || is_dash c.

Fixpoint no_double_dash (s : text) : bool :=
  match s with
  | c1 :: (c2 :: _) as rest => negb (is_dash c1 && is_dash c2) && no_double_dash rest
  | _ => true
  end.

Definition starts_dash (s : text) : bool :=
  match s with
  | c :: _ => is_dash c
  | [] => false
  end.

Fixpoint ends_dash (s : text) : bool :=
  match s with
  | [] => false
  | [c] => is_dash c
  | _ :: rest => ends_dash rest
  end.

Definition slug_safe (s : text) : bool :=
  forallb slug_char s && no_double_dash s && negb (starts_dash s) && negb (ends_dash s).

(** The location words of [parse_metadata_from_path], in its order. *)
Definition location_words : list text :=
  map txt ["hawaii"; "maui"; "oahu"]%string
  ++ map txt ["california"; "ca"; "big_sur"; "carmel"; "monterey"]%string
  ++ map txt ["arizona"; "az"; "sedona"; "flagstaff"]%string.

(** A row agrees with the record it was made from, field by field. *)
Definition row_agrees (product : website_product) (row : import_row) : Prop :=
  row_title row = title product /\
  row_description row = description product /\
  row_image_url row = web_path product /\
  row_base_price row = base_price product /\
  row_category row = wp_category product /\
  row_tags row = join ", " (tags product) /\
  row_width row = fst (dimensions product) /\
  row_height row = snd (dimensions product).

(** The size [(sw, sh)] of the scaled source fits the canvas [(w, h)] and
    keeps the aspect of the source [(iw, ih)]: the source as it is, or one
    side filling the canvas and the other less than a pixel away from the
    exact proportion. *)
Definition fits_keeping_aspect (iw ih w h sw sh : Z) : Prop :=
  1 <= sw <= w /\ 1 <= sh <= h /\
  ((sw = iw /\ sh = ih) \/
   (sh = h /\ Z.abs (sw * ih - h * iw) < ih) \/
   (sw = w /\ Z.abs (sh * iw - w * ih) < iw)).

(** The offset [o] centres a side of [s] pixels on a side of [c] pixels:
    the margin after is the margin before, or one pixel more. *)
Definition centred (c s o : Z) : Prop :=
  0 <= o /\ o + s <= c /\ 0 <= (c - s - o) - o <= 1.

(** [out] is [boxed], or [boxed] under a composited watermark. *)
Definition watermark_over (boxed out : image) : Prop :=
  out = boxed \/ exists wm x y, out = Convert RGB (AlphaComposite (Convert RGBA boxed) wm x y).

(** ** What a group writes, file by file *)

Section Outputs.

Variable W : world.

(** Every image that opens and decodes has a positive size. *)
Definition world_ok : Prop :=
  forall p m w h, open_image W p = Some (m, w, h) -> 0 < w /\ 0 < h.

Definition product_dir_of (key : text) : text :=
  path_join (path_join OUTPUT_ROOT "etsy_images") key.

(** The file of one variant of the primary image *)
Definition variant_save (im : image) (key : text) (v : text * Z * Z * text)
    : option (text * image) :=
  let '(label, w, h, bg) := v in
  boxed ← pad_resize im w h bg;
  Some (path_join (product_dir_of key) (key +++ "_" +++ label +++ ".jpg"),
        add_watermark W boxed).

(** The file of the extra image number [i + 1], if it loads and decodes *)
Definition extra_save (key : text) (i : nat) (extra_file : Path) : option (text * image) :=
  extra_im ← load_rgb W extra_file;
  boxed ← pad_resize extra_im 2000 2000 "#ffffff";
  Some (path_join (product_dir_of key)
          (key +++ "_extra_" +++ str_of_nat (i + 1) +++ "_" +++ md5_of W extra_file +++ ".jpg"),
        add_watermark W boxed).

(** The files the loop over the extras writes: one for each extra that
    loads, numbered by its place among the extras, the first place being
    [i]. An extra that [load_rgb] refuses is passed over; at one that
    loads and then raises in [pad_resize] the loop ends, and with it the
    processing of the group. *)
Fixpoint extra_saves (key : text) (i : nat) (extra_files : list Path) : written :=
  match extra_files with
  | [] => []
  | extra_file :: rest =>
      match load_rgb W extra_file with
      | None => extra_saves key (S i) rest
      | Some _ =>
          match extra_save key i extra_file with
          | Some out => out :: extra_saves key (S i) rest
          | None => []
          end
      end
  end.

(** The extra raises: [load_rgb] returns it and [pad_resize] fails on
    it. *)
Definition extra_raises (extra_file : Path) : bool :=
  match load_rgb W extra_file with
  | Some extra_im =>
      match pad_resize extra_im 2000 2000 "#ffffff" with
      | Some _ => false
      | None => true
      end
  | None => false
  end.

(** No variant raises on the primary image. *)
Definition variants_ok (im : image) (vs : list (text * Z * Z * text)) : bool :=
  forallb (fun v : text * Z * Z * text =>
             let '(_, w, h, bg) := v in
             match pad_resize im w h bg with
             | Some _ => true
             | None => false
             end) vs.

(** The files the loop over the variants writes: it ends at the first
    variant on which [pad_resize] raises. *)
Fixpoint variant_saves (im : image) (key : text) (vs : list (text * Z * Z * text))
    : written :=
  match vs with
  | [] => []
  | v :: rest =>
      match variant_save im key v with
      | Some out => out :: variant_saves im key rest
      | None => []
      end
  end.

End Outputs.

(** ** Worlds to run the script on *)

Definition sample_group : list text :=
  map txt [ "/in/dunes_main_0001.jpg"; "/in/dunes_extra_0002.jpg"; "/in/dunes_extra_0003.jpg";
            "/in/dunes_extra_0004.jpg"; "/in/dunes_extra_0005.jpg"; "/in/dunes_extra_0006.jpg";
            "/in/dunes_extra_0007.jpg"; "/in/dunes_extra_0008.jpg"; "/in/dunes_extra_0009.jpg";
            "/in/dunes_extra_0010.jpg"; "/in/dunes_extra_0011.jpg" ]%string.

(** Every path that holds neither "corrupt" nor "truncated" opens as a 6000
    by 4000 RGB image; one that holds "truncated" opens as such an image
    too, and its data do not decode; the watermark file has the given
    size. *)
Definition sample_world (wm_w wm_h : Z) : world :=
  {| open_image := fun p =>
       if contains "corrupt" p || contains "truncated" p then None
       else Some (RGB, 6000, 4000);
     truncated_image := fun p =>
       if contains "truncated" p && negb (contains "corrupt" p) then Some (RGB, 6000, 4000)
       else None;
     md5_of := fun _ => "0123456789" : text;
     watermark_exists := true;
     watermark_file := Some (RGBA, wm_w, wm_h);
     negative_dest_raises := true |}.

(** A text of slug characters without two hyphens in a row *)
Definition slug_body (s : text) : Prop :=
  forallb slug_char s = true /\ no_double_dash s = true.

(** The text slugify has before it strips and truncates *)
Definition slug_text (translit : text -> text) (s : text) : text :=
  sub_runs is_dash "-" false
    (sub_runs disallowed "-" false
       (cleanup_numbers None
          (sub_runs is_quote "" false (lower (translit (sub_runs is_quote "-" false s)))))).

(** [s] holds an ASCII letter or digit. *)
Definition has_alnum (s : text) : bool := existsb is_alnum s.

(** ** Scan

    [iter_images] walks [root.rglob("*")]; the walk is given as the list of
    its entries, each with the answer of [is_file()]. *)

Definition ALLOWED_EXT : list text :=
  map txt [".jpg"; ".jpeg"; ".png"; ".tif"; ".tiff"]%string.

(** [p.suffix]: the name from its last dot on, when that dot neither starts
    nor ends the name. *)
Definition path_suffix (p : Path) : text :=
  let name := path_name p in
  let i := rfind "." name in
  if (0 <? i) && (i <? len name - 1) then skipn (Z.to_nat i) name else [].

Fixpoint iter_images (entries : list (Path * bool)) : list Path :=
  match entries with
  | [] => []
  | (p, is_file) :: rest =>
      if bool_decide (lower (path_suffix p) ∈ ALLOWED_EXT) && is_file
      then if contains "listing_print_files" p
           then iter_images rest
           else p :: iter_images rest
      else iter_images rest
  end.

(** ** Group

    Paths are ordered as pathlib orders them: by their lists of parts, a
    part being compared as a string, code point by code point. The parts
    are taken by cutting [str(p)] at the slashes, which orders two paths of
    the same root as [p.parts] does. *)

Fixpoint text_compare (a b : text) : comparison :=
  match a, b with
  | [], [] => Eq
  | [], _ :: _ => Lt
  | _ :: _, [] => Gt
  | x :: a', y :: b' =>
      match (code x ?= code y)%N with
      | Eq => text_compare a' b'
      | o => o
      end
  end.

Fixpoint parts_compare (a b : list text) : comparison :=
  match a, b with
  | [], [] => Eq
  | [], _ :: _ => Lt
  | _ :: _, [] => Gt
  | x :: a', y :: b' =>
      match text_compare x y with
      | Eq => parts_compare a' b'
      | o => o
      end
  end.

(** [s.split(sep)] for one character: the pieces between the separators,
    one more than there are separators. [cur] is the piece read so far,
    reversed. *)
Fixpoint split_at_go (sep : ascii) (cur : text) (s : text) : list text :=
  match s with
  | [] => [rev cur]
  | c :: s' =>
      if is_char sep c then rev cur :: split_at_go sep [] s'
      else split_at_go sep (c :: cur) s'
  end.

Definition split_at (sep : ascii) (s : text) : list text := split_at_go sep [] s.

Definition path_parts (p : Path) : list text := split_at "/" p.

(** [p <= q] on paths *)
Definition path_leb (p q : Path) : bool :=
  match parts_compare (path_parts p) (path_parts q) with
  | Gt => false
  | _ => true
  end.

(** [files.sort()]: the sort is stable; an insertion sort that puts an
    element before the first greater one of those after it gives the same
    list. *)
Fixpoint sort_insert (p : Path) (sorted : list Path) : list Path :=
  match sorted with
  | [] => [p]
  | q :: rest => if path_leb p q then p :: q :: rest else q :: sort_insert p rest
  end.

Fixpoint sort_paths (files : list Path) : list Path :=
  match files with
  | [] => []
  | p :: rest => sort_insert p (sort_paths rest)
  end.

(** [groups.setdefault(key, []).append(p)] on a dict in insertion order *)
Fixpoint setdefault_append (groups : list (text * list Path)) (key : text) (p : Path)
    : list (text * list Path) :=
  match groups with
  | [] => [(key, [p])]
  | (k, files) :: rest =>
      if bool_decide (k = key) then (k, files ++ [p]) :: rest
      else (k, files) :: setdefault_append rest key p
  end.

Section Grouping.

Variable translit : text -> text.

(** [for p in iter_images(INPUT_ROOT): ...] *)
Fixpoint group_loop (images : list Path) (groups : list (text * list Path))
    : list (text * list Path) :=
  match images with
  | [] => groups
  | p :: rest =>
      let key := product_key translit p in
      group_loop rest (setdefault_append groups key p)
  end.

(** [for key in groups: groups[key].sort()] *)
Definition sort_groups (groups : list (text * list Path)) : list (text * list Path) :=
  map (fun g => (fst g, sort_paths (snd g))) groups.

(** The groups [main] processes, [groups.items()], from the entries of the
    walk *)
Definition grouped (entries : list (Path * bool)) : list (text * list Path) :=
  sort_groups (group_loop (iter_images entries) []).

End Grouping.

(** ** Report *)

(** [len([l for l in listings if l[field] == value])] *)
Definition count_with (field : etsy_listing -> text) (value : text)
    (listings : list etsy_listing) : nat :=
  length (List.filter (fun l => bool_decide (field l = value)) listings).

(** [{v: len([...]) for v in set(l[field] for l in listings)}]; the order
    of the keys is that of a set and is not kept. *)
Definition counts_by (field : etsy_listing -> text) (listings : list etsy_listing)
    : gmap text nat :=
  set_to_map (fun v => (v, count_with field v listings))
             (list_to_set (map field listings) : gset text).

Record report := {
  total_products : nat;
  total_images_processed : nat;
  categories : gmap text nat;
  locations : gmap text nat
}.

(** The counts of processing_report.json (its time stamp and its four
    output paths are left out). *)
Definition make_report (listings : list etsy_listing) : report :=
  {| total_products := length listings;
     total_images_processed := foldr Nat.add 0%nat (map source_files listings);
     categories := counts_by etsy_category listings;
     locations := counts_by etsy_location listings |}.

(** The whole run from the entries of the walk: the three record lists,
    the files written and the report. *)
Definition pipeline (translit : text -> text) (W : world) (entries : list (Path * bool))
    : list etsy_listing * list website_product * list import_row * written * report :=
  let '(etsy, website, rows, files) := main W (grouped translit entries) in
  (etsy, website, rows, files, make_report etsy).

(** The lexicographic comparison of two lists, the pattern of
    [text_compare] and of [parts_compare] *)
Fixpoint lex_compare {A : Type} (cmp : A -> A -> comparison) (a b : list A) : comparison :=
  match a, b with
  | [], [] => Eq
  | [], _ :: _ => Lt
  | _ :: _, [] => Gt
  | x :: a', y :: b' =>
      match cmp x y with
      | Eq => lex_compare cmp a' b'
      | o => o
      end
  end.

(** An order given by a comparison: equal only on the same element,
    opposite when the sides are swapped, transitive. *)
Record comparison_ok {A : Type} (cmp : A -> A -> comparison) : Prop := {
  cmp_eq : forall x y, cmp x y = Eq <-> x = y;
  cmp_opp : forall x y, cmp y x = CompOpp (cmp x y);
  cmp_trans : forall x y z, cmp x y = Lt -> cmp y z = Lt -> cmp x z = Lt
}.

Definition path_le (p q : Path) : Prop := path_leb p q = true.

(** A walk to run the scan on *)
Definition sample_entries : list (text * bool) :=
  [ ("/Volumes/LaCie/Etsy/california/dunes_main_0001.jpg" : text, true);
    ("/Volumes/LaCie/Etsy/california" : text, false);
    ("/Volumes/LaCie/Etsy/california/dunes_extra_0002.JPG" : text, true);
    ("/Volumes/LaCie/Etsy/listing_print_files/dunes_main_0001.jpg" : text, true);
    ("/Volumes/LaCie/Etsy/notes.txt" : text, true);
    ("/Volumes/LaCie/Etsy/hawaii/Maui Beach-main-0003.png" : text, true);
    ("/Volumes/LaCie/Etsy/.jpg" : text, true) ].

(** A group of a product: its key is the key of each of its files, of
    which there is one at least. *)
Definition group_of_key (translit : text -> text) (g : text * list Path) : Prop :=
  snd g <> [] /\ Forall (fun f => product_key translit f = fst g) (snd g).

(** The files of a group are in ascending order and the first one, the
    primary image, is the least of them. *)
Definition group_sorted (g : text * list Path) : Prop :=
  StronglySorted path_le (snd g) /\
  exists primary, head (snd g) = Some primary /\ Forall (path_le primary) (snd g).

(** ** The records of a group against its files *)

(** The path at which the variant [label] of the product [key] is saved *)
Definition variant_path (key label : text) : text :=
  path_join (product_dir_of key) (key +++ "_" +++ label +++ ".jpg").

(** The two records tell the same product. *)
Definition same_product (e : etsy_listing) (w : website_product) : Prop :=
  sku e = id w /\
  etsy_category e = wp_category w /\
  etsy_location e = wp_location w /\
  etsy_tags e = join ", " (tags w) /\
  price e = format_price (base_price w).

(** [load_rgb] returns the file, and its data do not decode: the first
    [pad_resize] of it raises. *)
Definition opens_truncated (W : world) (f : Path) : bool :=
  match load_rgb W f with
  | Some im => negb (decoded im)
  | None => false
  end.

(** The group is processed to its end: [load_rgb] returns its primary
    image, whose data decode, and none of its first nine extras is a file
    that opens and does not decode. *)
Definition group_completes (W : world) (g : text * list Path) : bool :=
  match head (snd g) with
  | Some primary =>
      match load_rgb W primary with
      | Some im =>
          decoded im
          && forallb (fun f => negb (opens_truncated W f)) (take MAX_EXTRAS (drop 1 (snd g)))
      | None => false
      end
  | None => false
  end.

(** The files a group writes: those of the variants of its primary image,
    then those of its extras, up to the first image that raises; none when
    [load_rgb] refuses the primary image. *)
Definition group_files (W : world) (g : text * list Path) : written :=
  match head (snd g) with
  | Some primary =>
      match load_rgb W primary with
      | Some im =>
          if variants_ok im VARIANTS
          then variant_saves W im (fst g) VARIANTS
               ++ extra_saves W (fst g) 0 (take MAX_EXTRAS (drop 1 (snd g)))
          else variant_saves W im (fst g) VARIANTS
      | None => []
      end
  | None => []
  end.

(** The size of the image is the size of one of the variants. *)
Definition variant_sized (im : image) : Prop :=
  exists label w h bg, In (label, w, h, bg) VARIANTS /\ width im = w /\ height im = h.

(** Four groups for [sample_world]: one whose files all decode, one whose
    primary image does not open, one with an extra that does not open and
    one with an extra that opens and does not decode *)
Definition sample_groups : list (text * list text) :=
  [ ("dunes" : text, sample_group);
    ("reef" : text, [("/in/corrupt/reef_main_0001.jpg" : text); ("/in/reef_extra_0002.jpg" : text)]);
    ("pier" : text, [("/in/pier_main_0001.jpg" : text); ("/in/corrupt/pier_extra_0002.jpg" : text);
                     ("/in/pier_extra_0003.jpg" : text)]);
    ("cove" : text, [("/in/cove_main_0001.jpg" : text); ("/in/cove_extra_0002.jpg" : text);
                     ("/in/truncated/cove_extra_0003.jpg" : text);
                     ("/in/cove_extra_0004.jpg" : text)]) ].

(** The name, after the key and its underscore, of the file of the extra
    image number [j + 1] with the digest [h] *)
Definition extra_tail (j : nat) (h : text) : text :=
  "extra_" +++ str_of_nat (j + 1) +++ "_" +++ h +++ ".jpg".

(** A path in the directory of the product [key], named after the key, with
    the extension jpg *)
Definition in_product_dir (key : text) (path : text) : Prop :=
  exists name, path = product_dir_of key +++ "/" +++ key +++ "_" +++ name +++ ".jpg".

(** The tags of [generate_tags] that do not come from the product key *)
Definition fixed_tags (category location : text) : list text :=
  DEFAULT_TAGS ++ category_extra_tags category
  ++ (if bool_decide (location = "Other") then [] else [lower location]).

Definition CATEGORIES : list text :=
  map txt ["Landscapes"; "Architecture"; "Cityscapes"; "Nature"; "Other"]%string.

Definition LOCATIONS : list text :=
  map txt ["Hawaii"; "California"; "Arizona"; "Other"]%string.

(** A text without "/" *)
Definition no_slash (s : text) : bool := forallb (fun c => negb (is_char "/" c)) s.

(** The name of a file in a directory: one component of a path, which
    pathlib keeps as it is. *)
Definition file_name (s : text) : Prop :=
  s <> [] /\ s <> "." /\ no_slash s = true.

(** [sum(counts.values())] *)
Definition sum_counts (counts : gmap text nat) : nat :=
  map_fold (fun _ n acc => (n + acc)%nat) 0%nat counts.

(** Finds an entry in a list written out. *)
Ltac find_entry :=
  first [ apply list_elem_of_here | apply list_elem_of_further; find_entry ].

(** * Properties *)

(** ** The script on a few inputs *)

Example product_key_big_sur :
  product_key ascii_translit
    "/Volumes/LaCie/Etsy/california/Big_Sur_Coastal_Sunset_main_01_1234_abcd.jpg"
  = "big-sur-coastal-sunset".
Proof. vm_compute. reflexivity. Qed.

Example product_key_fallback :
  product_key ascii_translit "/Volumes/LaCie/Etsy/Golden Gate's 1,000 views_x.png"
  = "golden-gate-s-1000-views".
Proof. vm_compute. reflexivity. Qed.

Example product_regex_line_feed :
  PRODUCT_REGEX_match ("dunes_0001.jpg" +++ ["010"%char]) = Some ("dunes" : text).
Proof. vm_compute. reflexivity. Qed.

Example metadata_big_sur :
  parse_metadata_from_path "/Volumes/LaCie/Etsy/landscape/big_sur/IMG_0001.jpg"
  = {| category := "Landscapes"; location := "California" |}.
Proof. vm_compute. reflexivity. Qed.

Example price_fallbacks :
  calculate_price "Nature" "Hawaii" = Some 60 /\
  calculate_price "Portraits" "Hawaii" = Some 45 /\
  calculate_price "Nature" "Nevada" = Some 30.
Proof. repeat split; vm_compute; reflexivity. Qed.

Example tags_big_sur :
  generate_tags "big-sur-coastal-sunset" "Landscapes" "California"
  = map txt ["fine art print"; "photography"; "wall art"; "landscape"; "home decor";
             "nature"; "scenic"; "landscape photography"; "california";
             "big"; "sur"; "coastal"; "sunset"]%string.
Proof. vm_compute. reflexivity. Qed.

Example pad_resize_landscape :
  pad_resize (Opened "a.jpg" RGB 6000 4000) 2000 2000 "#ffffff"
  = Some (Paste (New RGB 2000 2000 "#ffffff")
                (Resize (Opened "a.jpg" RGB 6000 4000) 2000 1333) 0 333).
Proof. vm_compute. reflexivity. Qed.

(** 705 by 1200 in a box of 1000 by 1000: the exact width is 587.5, and of
    587 and 588, as near one as the other, the floating-point keys take
    588. *)
Example pad_resize_tie :
  pad_resize (Opened "a.jpg" RGB 705 1200) 1000 1000 "#ffffff"
  = Some (Paste (New RGB 1000 1000 "#ffffff")
                (Resize (Opened "a.jpg" RGB 705 1200) 588 1000) 206 0).
Proof. vm_compute. reflexivity. Qed.

Example pad_resize_truncated_file :
  pad_resize (Truncated "a.jpg" RGB 6000 4000) 2000 2000 "#ffffff" = None.
Proof. reflexivity. Qed.

Example pad_resize_small_source :
  pad_resize (Opened "a.jpg" RGB 300 100) 400 400 "#ffffff"
  = Some (Paste (New RGB 400 400 "#ffffff") (Opened "a.jpg" RGB 300 100) 50 150).
Proof. vm_compute. reflexivity. Qed.


(** ** Prices *)

Lemma PRICE_MATRIX_rows :
  map_Forall (fun (_ : text) (row : gmap text Z) => is_Some (row !! ("Other" : text)))
             PRICE_MATRIX.
Proof.
  unfold PRICE_MATRIX. cbn [list_to_map foldr uncurry fst snd].
  repeat apply map_Forall_insert_2; try apply map_Forall_empty; by vm_compute; eexists.
Qed.

Lemma PRICE_MATRIX_other : PRICE_MATRIX !! ("Other" : text) = Some (price_row 35 45 30 25).
Proof.
  unfold PRICE_MATRIX. cbn [list_to_map foldr uncurry fst snd].
  rewrite !lookup_insert_ne by (intros H; vm_compute in H; discriminate H).
  apply lookup_insert_eq.
Qed.

Lemma price_in_row (row : gmap text Z) (location : text) (o : Z) :
  row !! ("Other" : text) = Some o ->
  exists v, (getitem row "Other" ≫= fun other_price => Some (get_or row location other_price)) = Some v /\
            match row !! location with
            | Some x => v = x
            | None => row !! ("Other" : text) = Some v
            end.
Proof.
  intros Ho. unfold getitem, get_or. rewrite Ho. cbn [mbind option_bind].
  destruct (row !! location) as [x|]; eauto.
Qed.

Lemma calculate_price_eq (category location : text) :
  calculate_price category location =
  let row := match PRICE_MATRIX !! category with
             | Some r => r
             | None => price_row 35 45 30 25
             end in
  getitem row "Other" ≫= fun other_price => Some (get_or row location other_price).
Proof.
  unfold calculate_price, getitem, get_or. rewrite PRICE_MATRIX_other. reflexivity.
Qed.

Lemma calculate_price_some (category location : text) :
  exists v : Z, calculate_price category location = Some v.
Proof.
  rewrite calculate_price_eq.
  destruct (PRICE_MATRIX !! category) as [r|] eqn:Hc.
  - destruct (PRICE_MATRIX_rows _ _ Hc) as [o Ho].
    destruct (price_in_row r location o Ho) as (v & Hv & _). eauto.
  - assert (Ho : price_row 35 45 30 25 !! ("Other" : text) = Some 25) by (by vm_compute).
    destruct (price_in_row _ location _ Ho) as (v & Hv & _). eauto.
Qed.

(** C6: [calculate_price] returns a price for every pair of strings: the
    row is the category's, or the row "Other" for a category the matrix
    does not have, and the price is the location's in that row, or the
    row's "Other" for a location the row does not have. *)
Theorem calculate_price_total (category location : text) :
  exists (row other_row : gmap text Z) (v : Z),
    calculate_price category location = Some v /\
    PRICE_MATRIX !! ("Other" : text) = Some other_row /\
    row = match PRICE_MATRIX !! category with
          | Some r => r
          | None => other_row
          end /\
    match row !! location with
    | Some x => v = x
    | None => row !! ("Other" : text) = Some v
    end.
Proof.
  rewrite calculate_price_eq.
  destruct (PRICE_MATRIX !! category) as [r|] eqn:Hc.
  - destruct (PRICE_MATRIX_rows _ _ Hc) as [o Ho].
    destruct (price_in_row r location o Ho) as (v & Hv & Hm).
    exists r, (price_row 35 45 30 25), v.
    split; [exact Hv|]. split; [exact PRICE_MATRIX_other|]. split; [reflexivity|]. exact Hm.
  - assert (Ho : price_row 35 45 30 25 !! ("Other" : text) = Some 25) by (by vm_compute).
    destruct (price_in_row _ location _ Ho) as (v & Hv & Hm).
    exists (price_row 35 45 30 25), (price_row 35 45 30 25), v.
    split; [exact Hv|]. split; [exact PRICE_MATRIX_other|]. split; [reflexivity|]. exact Hm.
Qed.

(** ** Facets *)

Lemma any_in_cons (w : text) (ws : list text) (s : text) :
  any_in (w :: ws) s = contains w s || any_in ws s.
Proof. reflexivity. Qed.

Lemma any_in_app (ws1 ws2 : list text) (s : text) :
  any_in (ws1 ++ ws2) s = any_in ws1 s || any_in ws2 s.
Proof. apply existsb_app. Qed.

(** C10: a path whose lowered text holds "ca" and none of "hawaii", "maui",
    "oahu" is located in California; the location is "Other" exactly for
    the paths that hold none of the twelve location words, "ca" and "az"
    among them. *)
Theorem location_ca_substring (p : text) :
  (contains "ca" (lower p) = true ->
   any_in (map txt ["hawaii"; "maui"; "oahu"]%string) (lower p) = false ->
   location (parse_metadata_from_path p) = "California") /\
  (location (parse_metadata_from_path p) = "Other" <->
   any_in location_words (lower p) = false).
Proof.
  unfold parse_metadata_from_path, location_words; cbn [location].
  rewrite !any_in_app. split.
  - intros Hca Hh. rewrite Hh.
    assert (Hc : any_in (map txt ["california"; "ca"; "big_sur"; "carmel"; "monterey"]%string)
                   (lower p) = true).
    { cbn [map]. rewrite !any_in_cons, Hca. apply orb_true_iff. right. reflexivity. }
    rewrite Hc. reflexivity.
  - destruct (any_in (map txt ["hawaii"; "maui"; "oahu"]%string) (lower p)),
      (any_in (map txt ["california"; "ca"; "big_sur"; "carmel"; "monterey"]%string) (lower p)),
      (any_in (map txt ["arizona"; "az"; "sedona"; "flagstaff"]%string) (lower p));
      cbn; split; intros; try reflexivity; discriminate.
Qed.

Lemma location_ca_substring_witness :
  location (parse_metadata_from_path "/Volumes/LaCie/Etsy/vacation/postcard_01.jpg") = "California".
Proof.
  apply (proj1 (location_ca_substring "/Volumes/LaCie/Etsy/vacation/postcard_01.jpg"));
    vm_compute; reflexivity.
Defined.

(** ** Tags *)

Section Dedupe.

Implicit Types (l seen : list text) (x y : text).

Lemma filter_filter_and (f g : text -> bool) l :
  List.filter f (List.filter g l) = List.filter (fun y => g y && f y) l.
Proof.
  induction l as [|a l IH]; cbn; [reflexivity|].
  destruct (g a); cbn; [destruct (f a); cbn|]; congruence.
Qed.

Lemma filter_id (f : text -> bool) l :
  (forall y, In y l -> f y = true) -> List.filter f l = l.
Proof.
  induction l as [|a l IH]; cbn; intros H; [reflexivity|].
  rewrite (H a) by auto. f_equal. apply IH. auto.
Qed.

Lemma not_in_cons_bool x seen y :
  negb (bool_decide (y = x)) && negb (bool_decide (y ∈ seen))
  = negb (bool_decide (y ∈ x :: seen)).
Proof.
  destruct (decide (y = x)) as [->|Hne].
  - rewrite (bool_decide_eq_true_2 (x = x)) by reflexivity.
    rewrite (bool_decide_eq_true_2 (x ∈ x :: seen)) by left. reflexivity.
  - rewrite (bool_decide_eq_false_2 (y = x)) by assumption. cbn.
    f_equal. apply bool_decide_ext. rewrite elem_of_cons. tauto.
Qed.

(** The loop of [dict.fromkeys] against the recursive description. *)
Lemma fromkeys_go_spec l : forall seen,
  fromkeys_go seen l
  = rev seen ++ List.filter (fun y => negb (bool_decide (y ∈ seen))) (dedupe_first_seen l).
Proof.
  induction l as [|t l IH]; intros seen; cbn [fromkeys_go dedupe_first_seen List.filter].
  - symmetry. apply app_nil_r.
  - destruct (bool_decide (t ∈ seen)) eqn:Ht; cbn [negb].
    + rewrite IH. f_equal. rewrite filter_filter_and.
      apply List.filter_ext. intros y.
      destruct (decide (y = t)) as [->|Hne].
      * rewrite Ht. cbn. rewrite andb_false_r. reflexivity.
      * rewrite (bool_decide_eq_false_2 (y = t)) by assumption. reflexivity.
    + rewrite IH. cbn [rev]. rewrite <- app_assoc. cbn [app]. do 2 f_equal.
      rewrite filter_filter_and. apply List.filter_ext. intros y.
      symmetry. apply not_in_cons_bool.
Qed.

Lemma fromkeys_spec l : fromkeys l = dedupe_first_seen l.
Proof.
  unfold fromkeys. rewrite fromkeys_go_spec. cbn [rev app].
  apply filter_id. intros y _.
  rewrite bool_decide_eq_false_2; [reflexivity | apply not_elem_of_nil].
Qed.

Lemma dedupe_first_seen_NoDup l : List.NoDup (dedupe_first_seen l).
Proof.
  induction l as [|x l IH]; cbn; constructor.
  - rewrite List.filter_In. intros [_ H].
    rewrite (bool_decide_eq_true_2 (x = x)) in H by reflexivity. discriminate.
  - apply List.NoDup_filter, IH.
Qed.

Lemma dedupe_first_seen_app a b :
  List.NoDup a ->
  dedupe_first_seen (a ++ b)
  = a ++ List.filter (fun y => negb (bool_decide (y ∈ a))) (dedupe_first_seen b).
Proof.
  induction 1 as [|x a Hx Ha IH]; cbn [app dedupe_first_seen].
  - symmetry. apply filter_id. intros y _.
    rewrite bool_decide_eq_false_2; [reflexivity | apply not_elem_of_nil].
  - rewrite IH, List.filter_app. f_equal. f_equal.
    + apply filter_id. intros y Hy.
      rewrite bool_decide_eq_false_2; [reflexivity | congruence].
    + rewrite filter_filter_and. apply List.filter_ext. intros y.
      rewrite andb_comm. apply not_in_cons_bool.
Qed.

End Dedupe.

Lemma generate_tags_refines (product_key category location : text) :
  generate_tags product_key category location = tags_spec product_key category location.
Proof.
  unfold generate_tags, tags_spec, category_extra_tags, key_tokens.
  rewrite fromkeys_spec. do 2 f_equal.
  assert (Hf : forall l : list text,
             List.filter (fun k => 2 <? len k) l = List.filter (fun k => (2 <? length k)%nat) l).
  { intros l. apply List.filter_ext. intros k. unfold len.
    destruct (Nat.ltb_spec 2 (length k)); [apply Z.ltb_lt | apply Z.ltb_ge]; lia. }
  rewrite Hf.
  destruct (decide (location = "Other")) as [Hl|Hl].
  - rewrite (bool_decide_eq_false_2 (location <> "Other")) by tauto.
    rewrite (bool_decide_eq_true_2 (location = "Other")) by assumption.
    repeat case_bool_decide; rewrite <- ?app_assoc, ?app_nil_r; reflexivity.
  - rewrite (bool_decide_eq_true_2 (location <> "Other")) by assumption.
    rewrite (bool_decide_eq_false_2 (location = "Other")) by assumption.
    repeat case_bool_decide; rewrite <- ?app_assoc, ?app_nil_r; reflexivity.
Qed.

(** C5: [generate_tags] is the list the specification describes (base
    tags, category extras, lowered location unless "Other", key tokens
    longer than two characters; first occurrences kept, cut at 13); it has
    at most 13 entries and none twice. *)
Theorem generate_tags_spec (product_key category location : text) :
  generate_tags product_key category location = tags_spec product_key category location /\
  (length (generate_tags product_key category location) <= 13)%nat /\
  List.NoDup (generate_tags product_key category location).
Proof.
  split; [apply generate_tags_refines|].
  rewrite generate_tags_refines. unfold tags_spec. split.
  - rewrite length_take. lia.
  - apply NoDup_ListNoDup. eapply sublist_NoDup; [|apply sublist_take].
    apply NoDup_ListNoDup, dedupe_first_seen_NoDup.
Qed.

Lemma DEFAULT_TAGS_NoDup : List.NoDup DEFAULT_TAGS.
Proof.
  unfold DEFAULT_TAGS. cbn [map].
  repeat (constructor; [intros H; vm_compute in H; intuition discriminate|]).
  constructor.
Qed.

(** C9: the five default tags, in their order, open the list
    [generate_tags] returns, which thus has from 5 to 13 entries. *)
Theorem generate_tags_default_prefix (product_key category location : text) :
  take 5 (generate_tags product_key category location) = DEFAULT_TAGS /\
  (5 <= length (generate_tags product_key category location) <= 13)%nat.
Proof.
  rewrite generate_tags_refines. unfold tags_spec.
  rewrite dedupe_first_seen_app by apply DEFAULT_TAGS_NoDup.
  set (rest := List.filter _ _). split.
  - rewrite take_take. change (5 `min` 13)%nat with (length DEFAULT_TAGS).
    apply take_app_length.
  - rewrite length_take, length_app. change (length DEFAULT_TAGS) with 5%nat. lia.
Qed.

(** ** Image transforms *)

Lemma floor_bounds (a b : Z) : 0 < b -> b * (a / b) <= a < b * (a / b) + b.
Proof. intros Hb. pose proof (Z.mul_div_le a b Hb). pose proof (Z.mul_succ_div_gt a b Hb). lia. Qed.

Lemma ceil_bounds (a b : Z) : 0 < b -> a <= b * ceil_div a b < a + b.
Proof. intros Hb. unfold ceil_div. pose proof (floor_bounds (- a) b Hb). lia. Qed.

Lemma floor_le_ceil (a b : Z) : 0 < b -> a / b <= ceil_div a b <= a / b + 1.
Proof. intros Hb. pose proof (floor_bounds a b Hb). pose proof (ceil_bounds a b Hb). nia. Qed.

Lemma nearer_either (f c kf kc : Z) (xf xc : PrimFloat.float) :
  nearer f c kf kc xf xc = f \/ nearer f c kf kc xf xc = c.
Proof. unfold nearer. destruct (kf ?= kc); [destruct (PrimFloat.ltb xc xf)| |]; auto. Qed.

(** [thumbnail] on a source and a target of positive sizes returns an image
    that fits the target and keeps the aspect. *)
Lemma thumbnail_fits (im : image) (w h : Z) :
  0 < width im -> 0 < height im -> 0 < w -> 0 < h ->
  exists scaled,
    thumbnail im w h = Some scaled /\
    (scaled = im \/ scaled = Resize im (width scaled) (height scaled)) /\
    fits_keeping_aspect (width im) (height im) w h (width scaled) (height scaled).
Proof.
  intros HW HH Hw Hh. unfold thumbnail, preserve_aspect_ratio.
  set (W := width im) in *. set (H := height im) in *.
  destruct ((W <=? w) && (H <=? h)) eqn:Hfit.
  { apply andb_true_iff in Hfit as [H1 H2]. apply Z.leb_le in H1, H2.
    exists im. split; [reflexivity|]. split; [left; reflexivity|].
    unfold fits_keeping_aspect. fold W H. lia. }
  assert (Hnf : ~ (W <= w /\ H <= h)).
  { intros [H1 H2]. apply Z.leb_le in H1, H2. rewrite H1, H2 in Hfit. discriminate. }
  clear Hfit.
  replace (H =? 0) with false by (symmetry; apply Z.eqb_neq; lia).
  replace (h =? 0) with false by (symmetry; apply Z.eqb_neq; lia).
  cbn [orb].
  destruct (h * W <=? w * H) eqn:Hbr.
  - apply Z.leb_le in Hbr.
    pose proof (floor_bounds (h * W) H HH) as Hf.
    pose proof (ceil_bounds (h * W) H HH) as Hc.
    pose proof (floor_le_ceil (h * W) H HH) as Hfc.
    set (f := (h * W) / H) in *. set (c := ceil_div (h * W) H) in *.
    set (n := nearer f c _ _ _ _).
    assert (Hn : n = f \/ n = c) by apply nearer_either.
    clearbody n.
    assert (Hf0 : 0 <= f) by nia.
    assert (Hcw : c <= w) by nia.
    assert (Hsw : 1 <= Z.max n 1 <= w) by lia.
    assert (Hasp : Z.abs (Z.max n 1 * H - h * W) < H) by nia.
    destruct ((Z.max n 1 =? W) && (h =? H)) eqn:Hsame.
    + apply andb_true_iff in Hsame as [H1 H2]. apply Z.eqb_eq in H1, H2.
      exists im. split; [reflexivity|]. split; [left; reflexivity|].
      unfold fits_keeping_aspect. fold W H. rewrite <- H1, <- H2.
      split; [exact Hsw|]. split; [lia|]. right. left. split; [reflexivity|lia].
    + replace (Z.max n 1 <? 1) with false by (symmetry; apply Z.ltb_ge; lia).
      replace (h <? 1) with false by (symmetry; apply Z.ltb_ge; lia).
      cbn [orb]. exists (Resize im (Z.max n 1) h).
      split; [reflexivity|]. split; [right; reflexivity|].
      unfold fits_keeping_aspect. fold W H. cbn [width height].
      split; [exact Hsw|]. split; [lia|]. right. left. split; [reflexivity|exact Hasp].
  - apply Z.leb_gt in Hbr.
    replace (W =? 0) with false by (symmetry; apply Z.eqb_neq; lia).
    pose proof (floor_bounds (w * H) W HW) as Hf.
    pose proof (ceil_bounds (w * H) W HW) as Hc.
    pose proof (floor_le_ceil (w * H) W HW) as Hfc.
    set (f := (w * H) / W) in *. set (c := ceil_div (w * H) W) in *.
    set (n := if f =? 0 then f else nearer f c _ _ _ _).
    assert (Hn : n = f \/ n = c)
      by (subst n; destruct (f =? 0); [auto | apply nearer_either]).
    clearbody n.
    assert (Hf0 : 0 <= f) by nia.
    assert (Hch : c <= h) by nia.
    assert (Hsh : 1 <= Z.max n 1 <= h) by lia.
    assert (Hasp : Z.abs (Z.max n 1 * W - w * H) < W) by nia.
    destruct ((w =? W) && (Z.max n 1 =? H)) eqn:Hsame.
    + apply andb_true_iff in Hsame as [H1 H2]. apply Z.eqb_eq in H1, H2.
      exists im. split; [reflexivity|]. split; [left; reflexivity|].
      unfold fits_keeping_aspect. fold W H. rewrite <- H1, <- H2.
      split; [lia|]. split; [exact Hsh|]. right. right. split; [reflexivity|lia].
    + replace (w <? 1) with false by (symmetry; apply Z.ltb_ge; lia).
      replace (Z.max n 1 <? 1) with false by (symmetry; apply Z.ltb_ge; lia).
      cbn [orb]. exists (Resize im w (Z.max n 1)).
      split; [reflexivity|]. split; [right; reflexivity|].
      unfold fits_keeping_aspect. fold W H. cbn [width height].
      split; [lia|]. split; [exact Hsh|]. right. right. split; [reflexivity|exact Hasp].
Qed.

Lemma add_watermark_over (W : world) (im : image) : watermark_over im (add_watermark W im).
Proof.
  unfold add_watermark, watermark_over.
  destruct (negb ADD_WATERMARK || negb (watermark_exists W)); [left; reflexivity|].
  destruct (add_watermark_try W im) as [out|] eqn:Htry; [|left; reflexivity].
  right. unfold add_watermark_try in Htry.
  destruct (watermark_file W) as [[[m ww] wh]|]; [|discriminate].
  cbn [mbind option_bind] in Htry.
  destruct (width _ =? 0); [discriminate|].
  destruct (_ || _); [discriminate|].
  destruct (default _ _) as [x y].
  destruct (_ && _); [discriminate|].
  injection Htry as <-. eauto.
Qed.

Lemma add_watermark_keeps (W : world) (im : image) :
  im_mode im = RGB ->
  im_mode (add_watermark W im) = RGB /\
  width (add_watermark W im) = width im /\
  height (add_watermark W im) = height im.
Proof.
  intros Hm. destruct (add_watermark_over W im) as [->|(wm & x & y & ->)]; cbn; auto.
Qed.

Lemma pad_resize_letterbox (im : image) (w h : Z) (bg : text) :
  decoded im = true ->
  0 < width im -> 0 < height im -> 0 < w -> 0 < h ->
  exists scaled,
    pad_resize im w h bg
    = Some (Paste (New RGB w h bg) scaled
                  ((w - width scaled) / 2) ((h - height scaled) / 2)) /\
    (scaled = im \/ scaled = Resize im (width scaled) (height scaled)) /\
    fits_keeping_aspect (width im) (height im) w h (width scaled) (height scaled) /\
    centred w (width scaled) ((w - width scaled) / 2) /\
    centred h (height scaled) ((h - height scaled) / 2).
Proof.
  intros Hdec HW HH Hw Hh.
  destruct (thumbnail_fits im w h HW HH Hw Hh) as (scaled & Hth & Hsc & Hfit).
  exists scaled. unfold pad_resize, copy. rewrite Hdec. cbn [mbind option_bind].
  rewrite Hth. cbn [mbind option_bind].
  replace (w <? 0) with false by (symmetry; apply Z.ltb_ge; lia).
  replace (h <? 0) with false by (symmetry; apply Z.ltb_ge; lia).
  cbn [orb]. split; [reflexivity|]. split; [exact Hsc|]. split; [exact Hfit|].
  destruct Hfit as (Hsw & Hsh & _). unfold centred.
  pose proof (floor_bounds (w - width scaled) 2 ltac:(lia)).
  pose proof (floor_bounds (h - height scaled) 2 ltac:(lia)).
  lia.
Qed.

Lemma VARIANTS_positive (label : text) (w h : Z) (bg : text) :
  In (label, w, h, bg) VARIANTS -> 0 < w /\ 0 < h.
Proof.
  unfold VARIANTS. cbn [In].
  intros [H|[H|[H|[H|[H|[]]]]]]; injection H as _ <- <- _; lia.
Qed.

(** C4: for an entry [(label, w, h, bg)] of [VARIANTS] and a source that
    has loaded (its data decode), of any positive size, the derivative is
    an RGB image of exactly [w] by [h]: a canvas of colour [bg] on which
    the source, left as it is or resized to a size that fits the canvas and
    keeps its aspect (to the pixel), is pasted in the centre; the
    watermark, if any, is laid over it. *)
Theorem variant_letterboxed (W : world) (im : image) (label : text) (w h : Z) (bg : text) :
  In (label, w, h, bg) VARIANTS ->
  decoded im = true ->
  0 < width im -> 0 < height im ->
  exists scaled boxed,
    pad_resize im w h bg = Some boxed /\
    boxed = Paste (New RGB w h bg) scaled ((w - width scaled) / 2) ((h - height scaled) / 2) /\
    (scaled = im \/ scaled = Resize im (width scaled) (height scaled)) /\
    fits_keeping_aspect (width im) (height im) w h (width scaled) (height scaled) /\
    centred w (width scaled) ((w - width scaled) / 2) /\
    centred h (height scaled) ((h - height scaled) / 2) /\
    im_mode (add_watermark W boxed) = RGB /\
    width (add_watermark W boxed) = w /\
    height (add_watermark W boxed) = h /\
    watermark_over boxed (add_watermark W boxed).
Proof.
  intros Hin Hdec HW HH. destruct (VARIANTS_positive _ _ _ _ Hin) as [Hw Hh].
  destruct (pad_resize_letterbox im w h bg Hdec HW HH Hw Hh) as (scaled & Hpad & Hsc & Hfit & Hcx & Hcy).
  exists scaled, (Paste (New RGB w h bg) scaled ((w - width scaled) / 2) ((h - height scaled) / 2)).
  split; [exact Hpad|]. split; [reflexivity|].
  split; [exact Hsc|]. split; [exact Hfit|]. split; [exact Hcx|]. split; [exact Hcy|].
  destruct (add_watermark_keeps W (Paste (New RGB w h bg) scaled ((w - width scaled) / 2)
                                          ((h - height scaled) / 2)) eq_refl) as (Hm & Hwd & Hht).
  split; [exact Hm|]. split; [exact Hwd|]. split; [exact Hht|]. apply add_watermark_over.
Qed.

(** C3, amended: when the watermark file exists and the compositing
    succeeds, the watermark laid over the image has for width 0.20 of the
    shorter side of the base, cut to an integer, and a height in proportion
    (cut to an integer); so its shorter side is that width when the
    watermark file is square or portrait, and is less for a landscape
    one. *)
Theorem add_watermark_scales_width (W : world) (im out : image) (m : mode) (ww wh : Z) :
  watermark_exists W = true ->
  watermark_file W = Some (m, ww, wh) ->
  0 < ww ->
  add_watermark_try W im = Some out ->
  add_watermark W im = out /\
  exists wm x y,
    out = Convert RGB (AlphaComposite (Convert RGBA im) wm x y) /\
    width wm = Z.quot (Z.min (width im) (height im) * 20) 100 /\
    height wm = Z.quot (width wm * wh) ww /\
    (ww <= wh -> Z.min (width wm) (height wm) = width wm) /\
    (wh < ww -> height wm < width wm).
Proof.
  intros Hex Hfile Hww Htry. split.
  { unfold add_watermark. rewrite Hex, Htry. reflexivity. }
  unfold add_watermark_try in Htry. rewrite Hfile in Htry.
  cbn [mbind option_bind width height] in Htry.
  destruct (ww =? 0); [discriminate|].
  set (tgt := Z.quot (Z.min (width im) (height im) * WATERMARK_SCALE_num) WATERMARK_SCALE_den) in *.
  destruct ((tgt <? 1) || (Z.quot (tgt * wh) ww <? 1)) eqn:Hsz; [discriminate|].
  apply orb_false_iff in Hsz as [Ht Hth]. apply Z.ltb_ge in Ht, Hth.
  destruct (default _ _) as [x y].
  destruct (_ && _); [discriminate|].
  injection Htry as <-. eexists _, x, y. split; [reflexivity|].
  cbn [width height]. split; [reflexivity|]. split; [reflexivity|]. split.
  - intros Hle. apply Z.min_l. apply Z.quot_le_lower_bound; nia.
  - intros Hlt.
    assert (Hnum : ww <= tgt * wh).
    { destruct (Z.le_gt_cases ww (tgt * wh)) as [Hge|Hsmall]; [exact Hge|].
      destruct (Z.le_gt_cases 0 (tgt * wh)) as [Hpos|Hneg].
      - rewrite Z.quot_small in Hth by lia. lia.
      - pose proof (Z.quot_opp_l (- (tgt * wh)) ww ltac:(lia)) as Hq.
        rewrite Z.opp_involutive in Hq.
        pose proof (Z.quot_pos (- (tgt * wh)) ww ltac:(lia) ltac:(lia)). lia. }
    apply Z.quot_lt_upper_bound; nia.
Qed.

(** C3 as stated fails: a landscape watermark file of 200 by 100 is laid
    over a 2000 by 2000 image at 400 by 200, so its shorter side is 200 and
    not 0.20 x 2000 = 400. *)
Lemma add_watermark_landscape_shorter_side :
  add_watermark_try (sample_world 200 100) (New RGB 2000 2000 "#ffffff")
  = Some (Convert RGB
            (AlphaComposite (Convert RGBA (New RGB 2000 2000 "#ffffff"))
               (PutAlpha (Resize (Convert RGBA (Opened WATERMARK_PATH RGBA 200 100)) 400 200))
               1560 1760)) /\
  Z.min 400 200 <> 2000 * 20 / 100.
Proof. split; [vm_compute; reflexivity | vm_compute; discriminate]. Qed.

Lemma add_watermark_scales_width_witness :
  add_watermark (sample_world 100 200) (New RGB 2000 2000 "#ffffff")
  = Convert RGB
      (AlphaComposite (Convert RGBA (New RGB 2000 2000 "#ffffff"))
         (PutAlpha (Resize (Convert RGBA (Opened WATERMARK_PATH RGBA 100 200)) 400 800))
         1560 1160).
Proof.
  apply (add_watermark_scales_width (sample_world 100 200) (New RGB 2000 2000 "#ffffff")
           _ RGBA 100 200); [reflexivity | reflexivity | lia | vm_compute; reflexivity].
Defined.

Lemma variant_letterboxed_witness :
  exists scaled boxed,
    pad_resize (Opened "/in/sunset_main_0001.jpg" RGB 6000 4000) 3000 2400 "#ffffff" = Some boxed /\
    boxed = Paste (New RGB 3000 2400 "#ffffff") scaled
              ((3000 - width scaled) / 2) ((2400 - height scaled) / 2) /\
    (scaled = Opened "/in/sunset_main_0001.jpg" RGB 6000 4000 \/
     scaled = Resize (Opened "/in/sunset_main_0001.jpg" RGB 6000 4000)
                (width scaled) (height scaled)) /\
    fits_keeping_aspect 6000 4000 3000 2400 (width scaled) (height scaled) /\
    centred 3000 (width scaled) ((3000 - width scaled) / 2) /\
    centred 2400 (height scaled) ((2400 - height scaled) / 2) /\
    im_mode (add_watermark (sample_world 200 100) boxed) = RGB /\
    width (add_watermark (sample_world 200 100) boxed) = 3000 /\
    height (add_watermark (sample_world 200 100) boxed) = 2400 /\
    watermark_over boxed (add_watermark (sample_world 200 100) boxed).
Proof.
  apply (variant_letterboxed (sample_world 200 100)
           (Opened "/in/sunset_main_0001.jpg" RGB 6000 4000)
           "etsy_primary_3000x2400" 3000 2400 "#ffffff");
    [left; reflexivity | reflexivity | cbn; lia | cbn; lia].
Defined.

(** ** Exports *)

Lemma website_csv_data_agrees (products : list website_product) :
  Forall2 row_agrees products (website_csv_data products).
Proof.
  induction products as [|product rest IH]; cbn [website_csv_data]; constructor; [|exact IH].
  unfold row_agrees. cbn. repeat split; reflexivity.
Qed.

(** C8: the rows of products_for_import.csv are, one for one and in
    order, the website records written to website_products.json, and each
    row has the title, description, web path, base price, category, joined
    tags, width and height of its record. *)
Theorem import_rows_agree (W : world) (groups : list (text * list text)) :
  Forall2 row_agrees (snd (fst (fst (main W groups)))) (snd (fst (main W groups))).
Proof. unfold main. cbn [fst snd]. apply website_csv_data_agrees. Qed.

(** ** The processing of a group *)

Section Group.

Variable W : world.

(** The loop over the variants writes the files of [variant_saves], and
    raises exactly when a variant does. *)
Lemma variants_loop_saves (im : image) (key : text) :
  forall (vs : list (text * Z * Z * text)) (variant_paths : list (text * text)) (s : written),
    exists variant_paths',
      variants_loop W im (product_dir_of key) key vs variant_paths s
      = ((if variants_ok im vs then Some variant_paths' else None),
         s ++ variant_saves W im key vs).
Proof.
  induction vs as [|[[[label w] h] bg] vs IH]; intros d s.
  - exists d. cbn. rewrite app_nil_r. reflexivity.
  - cbn [variants_loop variants_ok forallb variant_saves]. unfold variant_save.
    unfold mbind at 1, M_bind at 1, try_ at 1.
    destruct (pad_resize im w h bg) as [boxed|]; cbn [mbind option_bind andb].
    + unfold mbind at 1, M_bind at 1, save at 1.
      destruct (IH (dict_set d label
                      (path_join (product_dir_of key) (key +++ "_" +++ label +++ ".jpg")))
                   (s ++ [(path_join (product_dir_of key) (key +++ "_" +++ label +++ ".jpg"),
                           add_watermark W boxed)]))
        as (d' & Hrun).
      exists d'. rewrite Hrun. fold (variants_ok im vs). rewrite <- app_assoc. reflexivity.
    + exists d. rewrite app_nil_r. reflexivity.
Qed.

Lemma variant_saves_all (im : image) (key : text) (vs : list (text * Z * Z * text)) :
  variants_ok im vs = true ->
  Forall2 (fun v out => variant_save W im key v = Some out) vs (variant_saves W im key vs).
Proof.
  induction vs as [|[[[label w] h] bg] vs IH]; cbn [variants_ok forallb variant_saves];
    intros Hok; [constructor|].
  apply andb_true_iff in Hok as [Hv Hok]. unfold variant_save at 2.
  destruct (pad_resize im w h bg) as [boxed|] eqn:Hpad; [|discriminate].
  cbn [mbind option_bind]. constructor; [|apply IH, Hok].
  unfold variant_save. rewrite Hpad. reflexivity.
Qed.

(** The loop over the extras writes the files of [extra_saves], and
    raises exactly when an extra does. *)
Lemma extras_loop_saves (key : text) :
  forall (extra_files : list text) (i : nat) (additional : list text) (s : written),
    extras_loop W (product_dir_of key) key i extra_files additional s
    = ((if forallb (fun f => negb (extra_raises W f)) extra_files
        then Some (additional ++ map fst (extra_saves W key i extra_files))
        else None),
       s ++ extra_saves W key i extra_files).
Proof.
  induction extra_files as [|f rest IH]; intros i additional s.
  - cbn. rewrite !app_nil_r. reflexivity.
  - cbn [extras_loop extra_saves forallb]. unfold extra_save, extra_raises at 1.
    destruct (load_rgb W f) as [extra_im|] eqn:Hload; cbn [mbind option_bind negb andb].
    + unfold mbind at 1, M_bind at 1, try_ at 1.
      destruct (pad_resize extra_im 2000 2000 "#ffffff") as [boxed|];
        cbn [mbind option_bind negb andb].
      * unfold mbind at 1, M_bind at 1, save at 1.
        rewrite IH. cbn [map fst]. rewrite <- !app_assoc. reflexivity.
      * rewrite app_nil_r. reflexivity.
    + apply IH.
Qed.



(** What a group leaves, whatever its files: the files of [group_files]
    after those written before, and records exactly when neither a variant
    nor an extra raises. *)
Lemma process_group_files (key : text) (files : list text) (primary : text) (im : image)
    (s : written) :
  head files = Some primary ->
  load_rgb W primary = Some im ->
  exists o,
    process_group W key files s = (o, s ++ group_files W (key, files)) /\
    if variants_ok im VARIANTS
       && forallb (fun f => negb (extra_raises W f)) (take MAX_EXTRAS (drop 1 files))
    then exists e w, o = Some (Some (e, w)) /\ sku e = key /\ source_files e = length files
    else o = None.
Proof.
  intros Hhead Hload. unfold process_group, group_files. cbn [fst snd].
  fold (product_dir_of key).
  unfold mbind at 1, M_bind at 1, try_ at 1. rewrite Hhead, Hload.
  destruct (variants_loop_saves im key VARIANTS [] s) as (d & Hv).
  unfold mbind at 1, M_bind at 1. rewrite Hv.
  destruct (variants_ok im VARIANTS); cbn [andb]; [|eauto].
  unfold mbind at 1, M_bind at 1. rewrite extras_loop_saves.
  destruct (forallb _ (take MAX_EXTRAS (drop 1 files))).
  - destruct (calculate_price_some (category (parse_metadata_from_path primary))
                (location (parse_metadata_from_path primary))) as (v & Hprice).
    unfold mbind at 1, M_bind at 1, try_ at 1. rewrite Hprice.
    unfold mret, M_ret. rewrite <- app_assoc. eexists. split; [reflexivity|].
    eexists _, _. split; [reflexivity|]. split; reflexivity.
  - rewrite <- app_assoc. eauto.
Qed.

Hypothesis Wok : world_ok W.

(** An image that [load_rgb] returns and whose data decode has a positive
    size. *)
Lemma load_rgb_positive (p : text) (im : image) :
  load_rgb W p = Some im -> decoded im = true -> 0 < width im /\ 0 < height im.
Proof.
  unfold load_rgb. destruct (open_image W p) as [[[m w] h]|] eqn:Hop.
  - intros [= <-] _. destruct (Wok _ _ _ _ Hop). destruct m; cbn; auto.
  - destruct (truncated_image W p) as [[[m w] h]|]; [|discriminate].
    destruct m; intros [= <-]; discriminate.
Qed.

Lemma load_rgb_opened (p : text) :
  is_Some (open_image W p) -> exists im, load_rgb W p = Some im /\ decoded im = true.
Proof.
  intros [[[m w] h] Hop]. unfold load_rgb. rewrite Hop.
  eexists. split; [reflexivity|]. destruct m; reflexivity.
Qed.

Lemma pad_resize_some (im : image) (w h : Z) (bg : text) :
  decoded im = true ->
  0 < width im -> 0 < height im -> 0 < w -> 0 < h ->
  exists boxed, pad_resize im w h bg = Some boxed.
Proof.
  intros Hdec HW HH Hw Hh.
  destruct (pad_resize_letterbox im w h bg Hdec HW HH Hw Hh) as (scaled & Hpad & _). eauto.
Qed.

Lemma pad_resize_truncated (im : image) (w h : Z) (bg : text) :
  decoded im = false -> pad_resize im w h bg = None.
Proof. intros Hdec. unfold pad_resize, copy. rewrite Hdec. reflexivity. Qed.

(** With images of positive sizes nothing but data that do not decode
    makes [pad_resize] raise. *)
Lemma extra_raises_truncated (f : text) : extra_raises W f = opens_truncated W f.
Proof.
  unfold extra_raises, opens_truncated.
  destruct (load_rgb W f) as [im|] eqn:Hload; [|reflexivity].
  destruct (decoded im) eqn:Hdec.
  - destruct (load_rgb_positive _ _ Hload Hdec) as [HW HH].
    destruct (pad_resize_some im 2000 2000 "#ffffff" Hdec HW HH) as [boxed ->]; [lia..|].
    reflexivity.
  - rewrite (pad_resize_truncated _ _ _ _ Hdec). reflexivity.
Qed.

Lemma extras_raise_truncated (fs : list text) :
  forallb (fun f => negb (extra_raises W f)) fs
  = forallb (fun f => negb (opens_truncated W f)) fs.
Proof.
  induction fs as [|f fs IH]; cbn [forallb]; [reflexivity|].
  rewrite IH, extra_raises_truncated. reflexivity.
Qed.

Lemma variants_ok_decoded (p : text) (im : image) :
  load_rgb W p = Some im -> variants_ok im VARIANTS = decoded im.
Proof.
  intros Hload. destruct (decoded im) eqn:Hdec.
  - destruct (load_rgb_positive _ _ Hload Hdec) as [HW HH].
    unfold variants_ok. apply forallb_forall. intros [[[label w] h] bg] Hin.
    destruct (VARIANTS_positive _ _ _ _ Hin) as [Hw Hh].
    destruct (pad_resize_some im w h bg Hdec HW HH Hw Hh) as [boxed ->]. reflexivity.
  - unfold variants_ok, VARIANTS. cbn [forallb].
    rewrite (pad_resize_truncated _ _ _ _ Hdec). reflexivity.
Qed.

Lemma extra_saves_all (key : text) (fs : list text) : forall i : nat,
  Forall (fun f => is_Some (open_image W f)) fs ->
  length (extra_saves W key i fs) = length fs /\
  forallb (fun f => negb (opens_truncated W f)) fs = true /\
  forall (j : nat) (f : text),
    fs !! j = Some f ->
    exists out, extra_save W key (i + j) f = Some out /\ extra_saves W key i fs !! j = Some out.
Proof.
  induction fs as [|f0 fs IH]; intros i Hall.
  - split; [reflexivity|]. split; [reflexivity|]. intros j f Hj. discriminate.
  - apply Forall_cons in Hall as [Hop Hall].
    destruct (load_rgb_opened _ Hop) as (im & Hload & Hdec).
    destruct (load_rgb_positive _ _ Hload Hdec) as [HW HH].
    destruct (pad_resize_some im 2000 2000 "#ffffff" Hdec HW HH) as [boxed Hpad]; [lia..|].
    assert (Hsave : exists out, extra_save W key i f0 = Some out).
    { unfold extra_save. rewrite Hload. cbn [mbind option_bind]. rewrite Hpad. cbn. eauto. }
    destruct Hsave as [out Hsave]. cbn [extra_saves forallb]. rewrite Hload, Hsave.
    destruct (IH (S i) Hall) as (Hlen & Hok & Hget). split; [cbn; lia|]. split.
    + rewrite Hok. unfold opens_truncated. rewrite Hload, Hdec. reflexivity.
    + intros [|j] f Hj.
      * injection Hj as <-. exists out. rewrite Nat.add_0_r. auto.
      * destruct (Hget j f Hj) as (o & Ho & Hl). exists o.
        replace (i + S j)%nat with (S i + j)%nat by lia. auto.
Qed.

(** A group whose primary image decodes and none of whose extras raises:
    the five variants are written, then the extras that load. *)
Lemma process_group_runs (key : text) (files : list text) (primary : text) (im : image)
    (s : written) :
  head files = Some primary ->
  load_rgb W primary = Some im ->
  decoded im = true ->
  forallb (fun f => negb (opens_truncated W f)) (take MAX_EXTRAS (drop 1 files)) = true ->
  exists listing,
    process_group W key files s
    = (Some (Some listing),
       s ++ variant_saves W im key VARIANTS
         ++ extra_saves W key 0 (take MAX_EXTRAS (drop 1 files))) /\
    Forall2 (fun v out => variant_save W im key v = Some out) VARIANTS
            (variant_saves W im key VARIANTS).
Proof.
  intros Hhead Hload Hdec Hextras.
  destruct (process_group_files key files primary im s Hhead Hload) as (o & Hrun & Ho).
  pose proof (variants_ok_decoded _ _ Hload) as Hv. rewrite Hdec in Hv.
  rewrite Hv, extras_raise_truncated, Hextras in Ho. cbn [andb] in Ho.
  destruct Ho as (e & w & -> & _).
  exists (e, w). split; [|apply variant_saves_all, Hv].
  rewrite Hrun. unfold group_files. cbn [fst snd]. rewrite Hhead, Hload, Hv. reflexivity.
Qed.



End Group.


Lemma sample_world_ok (wm_w wm_h : Z) : world_ok (sample_world wm_w wm_h).
Proof.
  intros p m w h. unfold sample_world. cbn [open_image].
  destruct (_ || _); [discriminate|]. intros [= _ <- <-]. lia.
Qed.


(** And an extra that opens and whose data do not decode is not passed
    over alone: of a group of four files the five variants and the first
    extra are written, the extra after the truncated one is not, and the
    group gives no record. *)
Example truncated_extra_stops_group :
  load_rgb (sample_world 200 100) "/in/truncated/cove_extra_0003.jpg"
  = Some (Truncated "/in/truncated/cove_extra_0003.jpg" RGB 6000 4000) /\
  fst (process_group (sample_world 200 100) "cove"
         [("/in/cove_main_0001.jpg" : text); ("/in/cove_extra_0002.jpg" : text);
          ("/in/truncated/cove_extra_0003.jpg" : text); ("/in/cove_extra_0004.jpg" : text)] [])
  = None /\
  map fst (snd (process_group (sample_world 200 100) "cove"
                  [("/in/cove_main_0001.jpg" : text); ("/in/cove_extra_0002.jpg" : text);
                   ("/in/truncated/cove_extra_0003.jpg" : text);
                   ("/in/cove_extra_0004.jpg" : text)] []))
  = map (fun name => product_dir_of "cove" +++ "/" +++ name)
        (map txt [ "cove_etsy_primary_3000x2400.jpg"; "cove_etsy_square_2000.jpg";
                   "cove_website_large_1600.jpg"; "cove_website_medium_1000.jpg";
                   "cove_website_thumb_400.jpg"; "cove_extra_1_0123456789.jpg" ]%string).
Proof. repeat split; vm_compute; reflexivity. Qed.


(** C7: a group of 11 files that all open and decode gives the 5 variants
    of the primary image and 9 extras, the extra numbered [j + 1] made from
    the file at place [j + 1]; the file at place 10 is not used: another
    file in its place changes nothing. *)
Theorem eleven_files_five_and_nine (W : world) (key : text) (files : list text) (s : written) :
  world_ok W ->
  length files = 11%nat ->
  Forall (fun f => is_Some (open_image W f)) files ->
  exists primary im listing vsaves esaves,
    head files = Some primary /\
    load_rgb W primary = Some im /\
    process_group W key files s = (Some (Some listing), s ++ vsaves ++ esaves) /\
    Forall2 (fun v out => variant_save W im key v = Some out) VARIANTS vsaves /\
    length vsaves = 5%nat /\
    length esaves = 9%nat /\
    (forall (j : nat) (f : text),
       (j < 9)%nat -> files !! S j = Some f ->
       exists out, extra_save W key j f = Some out /\ esaves !! j = Some out) /\
    (forall other : text,
       process_group W key (take 10 files ++ [other]) s = process_group W key files s).
Proof.
  intros Wok Hlen Hall.
  destruct files as [|f0 [|f1 [|f2 [|f3 [|f4 [|f5 [|f6 [|f7 [|f8 [|f9 [|f10 [|? ?]]]]]]]]]]]];
    try discriminate Hlen. clear Hlen.
  pose proof (Forall_inv Hall) as Hop.
  pose proof (Forall_inv_tail Hall) as Hrest.
  destruct (load_rgb_opened W _ Hop) as (im & Hload & Hdec).
  assert (Hex : Forall (fun f => is_Some (open_image W f)) [f1; f2; f3; f4; f5; f6; f7; f8; f9]).
  { exact (Forall_take _ 9%nat _ Hrest). }
  destruct (extra_saves_all W Wok key _ 0%nat Hex) as (Helen & Hok & Heget).
  destruct (process_group_runs W Wok key [f0; f1; f2; f3; f4; f5; f6; f7; f8; f9; f10]
              f0 im s eq_refl Hload Hdec Hok) as (listing & Hrun & Hvs).
  cbn [drop take MAX_EXTRAS] in Hrun.
  eexists _, im, listing, _, _.
  split; [reflexivity|]. split; [exact Hload|]. split; [exact Hrun|]. split; [exact Hvs|].
  split; [apply Forall2_length in Hvs; rewrite <- Hvs; reflexivity|].
  split; [exact Helen|]. split.
  - intros j f Hj Hf. apply Heget.
    do 9 (destruct j as [|j]; [exact Hf|]). lia.
  - intros other. reflexivity.
Qed.

Lemma eleven_files_five_and_nine_witness :
  exists primary im listing vsaves esaves,
    head sample_group = Some primary /\
    load_rgb (sample_world 200 100) primary = Some im /\
    process_group (sample_world 200 100) "dunes" sample_group []
    = (Some (Some listing), [] ++ vsaves ++ esaves) /\
    Forall2 (fun v out => variant_save (sample_world 200 100) im "dunes" v = Some out)
      VARIANTS vsaves /\
    length vsaves = 5%nat /\
    length esaves = 9%nat /\
    (forall (j : nat) (f : text),
       (j < 9)%nat -> sample_group !! S j = Some f ->
       exists out, extra_save (sample_world 200 100) "dunes" j f = Some out /\
                   esaves !! j = Some out) /\
    (forall other : text,
       process_group (sample_world 200 100) "dunes" (take 10 sample_group ++ [other]) []
       = process_group (sample_world 200 100) "dunes" sample_group []).
Proof.
  apply (eleven_files_five_and_nine (sample_world 200 100) "dunes" sample_group []);
    [apply sample_world_ok | reflexivity |].
  unfold sample_group. cbn [map].
  repeat (constructor; [vm_compute; eexists; reflexivity|]). constructor.
Defined.

(** ** Product keys *)

Section Slug.

Implicit Types (s t rep : text) (c : ascii) (P Q : ascii -> bool).

(** Characters, by inspection of the 256 of them. *)
Lemma lower_char_not_upper c : is_upper (lower_char c) = false.
Proof. destruct c as [[] [] [] [] [] [] [] []]; reflexivity. Qed.

Lemma lower_char_alnum c : is_alnum (lower_char c) = is_alnum c.
Proof. destruct c as [[] [] [] [] [] [] [] []]; reflexivity. Qed.

Lemma allowed_not_upper_slug c :
  disallowed c = false -> is_upper c = false -> slug_char c = true.
Proof. destruct c as [[] [] [] [] [] [] [] []]; cbv; congruence. Qed.

Lemma dash_slug c : is_dash c = true -> slug_char c = true.
Proof. destruct c as [[] [] [] [] [] [] [] []]; cbv; congruence. Qed.

Lemma slug_not_dash_alnum c : slug_char c = true -> is_dash c = false -> is_alnum c = true.
Proof. destruct c as [[] [] [] [] [] [] [] []]; cbv; congruence. Qed.

Lemma dash_not_alnum c : is_dash c = true -> is_alnum c = false.
Proof. destruct c as [[] [] [] [] [] [] [] []]; cbv; congruence. Qed.

Lemma quote_not_alnum c : is_quote c = true -> is_alnum c = false.
Proof. destruct c as [[] [] [] [] [] [] [] []]; cbv; congruence. Qed.

Lemma disallowed_not_alnum c : disallowed c = true -> is_alnum c = false.
Proof. destruct c as [[] [] [] [] [] [] [] []]; cbv; congruence. Qed.

Lemma comma_not_alnum c : is_char "," c = true -> is_alnum c = false.
Proof. destruct c as [[] [] [] [] [] [] [] []]; cbv; congruence. Qed.

(** Prefixes and suffixes *)
Lemma lstrip_suffix P s : exists pre, s = pre ++ lstrip P s.
Proof.
  induction s as [|c s [pre IH]]; cbn; [exists []; reflexivity|].
  destruct (P c); [exists (c :: pre); cbn [app]; f_equal; exact IH | exists []; reflexivity].
Qed.

Lemma rstrip_prefix P s : exists post, s = rstrip P s ++ post.
Proof.
  induction s as [|c s [post IH]]; cbn; [exists []; reflexivity|].
  destruct (rstrip P s) as [|c' r].
  - destruct (P c); [exists (c :: s) | exists s]; reflexivity.
  - exists post. cbn [app]. f_equal. exact IH.
Qed.

Lemma no_double_dash_cons c1 c2 s :
  no_double_dash (c1 :: c2 :: s)
  = negb (is_dash c1 && is_dash c2) && no_double_dash (c2 :: s).
Proof. reflexivity. Qed.

Lemma no_double_dash_app s t :
  no_double_dash (s ++ t) = true -> no_double_dash s = true /\ no_double_dash t = true.
Proof.
  induction s as [|c s IH]; cbn [app]; [auto|].
  destruct s as [|c' s].
  - cbn [app]. destruct t as [|c' t]; [auto|].
    cbn. intros H. apply andb_true_iff in H as [_ H]. auto.
  - cbn [app no_double_dash] in *. intros H. apply andb_true_iff in H as [H1 H2].
    destruct (IH H2) as [Hs Ht]. rewrite H1. auto.
Qed.


Lemma slug_body_app s t : slug_body (s ++ t) -> slug_body s /\ slug_body t.
Proof.
  intros [H1 H2]. rewrite forallb_app in H1. apply andb_true_iff in H1 as [? ?].
  apply no_double_dash_app in H2 as [? ?]. unfold slug_body. auto.
Qed.

Lemma slug_body_lstrip P s : slug_body s -> slug_body (lstrip P s).
Proof. destruct (lstrip_suffix P s) as [pre H]. rewrite H at 1. intros Hb. apply slug_body_app in Hb. tauto. Qed.

Lemma slug_body_rstrip P s : slug_body s -> slug_body (rstrip P s).
Proof. destruct (rstrip_prefix P s) as [post H]. rewrite H at 1. intros Hb. apply slug_body_app in Hb. tauto. Qed.

Lemma slug_body_firstn (n : nat) s : slug_body s -> slug_body (firstn n s).
Proof. rewrite <- (firstn_skipn n s) at 1. intros Hb. apply slug_body_app in Hb. tauto. Qed.

Lemma lstrip_starts s : starts_dash (lstrip is_dash s) = false.
Proof. induction s as [|c s IH]; cbn; [reflexivity|]. destruct (is_dash c) eqn:Hc; [exact IH | exact Hc]. Qed.

Lemma rstrip_starts s : starts_dash s = false -> starts_dash (rstrip is_dash s) = false.
Proof.
  destruct s as [|c s]; cbn; [auto|]. intros Hc.
  destruct (rstrip is_dash s); [rewrite Hc|]; cbn; auto.
Qed.

Lemma rstrip_ends s : ends_dash (rstrip is_dash s) = false.
Proof.
  induction s as [|c s IH]; cbn [rstrip]; [reflexivity|].
  destruct (rstrip is_dash s) as [|c' r].
  - destruct (is_dash c) eqn:Hc; cbn; auto.
  - exact IH.
Qed.

Lemma strip_slug_safe s : slug_body s -> slug_safe (strip is_dash s) = true.
Proof.
  intros Hb. unfold strip.
  destruct (slug_body_rstrip is_dash _ (slug_body_lstrip is_dash _ Hb)) as [H1 H2].
  unfold slug_safe. rewrite H1, H2, rstrip_ends, (rstrip_starts _ (lstrip_starts s)).
  reflexivity.
Qed.

Lemma strip_length P s : (length (strip P s) <= length s)%nat.
Proof.
  unfold strip. destruct (lstrip_suffix P s) as [pre H1].
  destruct (rstrip_prefix P (lstrip P s)) as [post H2].
  rewrite H1 at 2. rewrite H2 at 2. rewrite !length_app. lia.
Qed.

(** Substitution of runs *)
Lemma sub_runs_forallb Q P rep s : forall b : bool,
  forallb Q rep = true ->
  (forall c, In c s -> P c = false -> Q c = true) ->
  forallb Q (sub_runs P rep b s) = true.
Proof.
  induction s as [|c s IH]; intros b Hrep Hs; cbn [sub_runs]; [reflexivity|].
  destruct (P c) eqn:Hc.
  - rewrite forallb_app, IH by (cbn in *; auto). destruct b; cbn; rewrite ?Hrep; reflexivity.
  - cbn [forallb]. rewrite (Hs c) by (cbn; auto). apply IH; cbn in *; auto.
Qed.

Lemma squeeze_no_double_dash s : forall b : bool,
  no_double_dash (sub_runs is_dash "-" b s) = true /\
  (b = true -> starts_dash (sub_runs is_dash "-" b s) = false).
Proof.
  change (txt "-") with ["-"%char].
  induction s as [|c s IH]; intros b; cbn [sub_runs]; [cbn; auto|].
  destruct (is_dash c) eqn:Hc.
  - destruct (IH true) as [Hn Hs]. specialize (Hs eq_refl). destruct b; cbn [app].
    + auto.
    + split; [|discriminate].
      destruct (sub_runs is_dash ["-"%char] true s) as [|c' r]; [reflexivity|].
      rewrite no_double_dash_cons. cbn in Hs. rewrite Hs, andb_false_r. exact Hn.
  - destruct (IH false) as [Hn _]. split; [|intros _; cbn; exact Hc].
    destruct (sub_runs is_dash ["-"%char] false s) as [|c' r]; [reflexivity|].
    rewrite no_double_dash_cons, Hc. exact Hn.
Qed.

Lemma cleanup_numbers_forallb Q s : forall prev,
  forallb Q s = true -> forallb Q (cleanup_numbers prev s) = true.
Proof.
  induction s as [|c s IH]; intros prev H; cbn [cleanup_numbers]; [reflexivity|].
  cbn in H. apply andb_true_iff in H as [Hc Hs].
  destruct (_ && _ && _); [apply IH; exact Hs|].
  cbn [forallb]. rewrite Hc. apply IH. exact Hs.
Qed.

Variable translit : text -> text.

Lemma slugify_unfold s (n : nat) :
  slugify translit s n
  = if (0 <? n)%nat then smart_truncate (strip is_dash (slug_text translit s)) n
    else strip is_dash (slug_text translit s).
Proof. reflexivity. Qed.

Lemma slug_text_body s : slug_body (slug_text translit s).
Proof.
  unfold slug_text.
  set (u := cleanup_numbers None _).
  assert (Hu : forallb (fun c => negb (is_upper c)) u = true).
  { apply cleanup_numbers_forallb, sub_runs_forallb; [reflexivity|].
    intros c Hin _. unfold lower in Hin. apply in_map_iff in Hin as (c0 & <- & _).
    rewrite lower_char_not_upper. reflexivity. }
  assert (Hv : forallb slug_char (sub_runs disallowed "-" false u) = true).
  { apply sub_runs_forallb; [reflexivity|]. intros c Hin Hc.
    apply allowed_not_upper_slug; [exact Hc|].
    rewrite forallb_forall in Hu. specialize (Hu c Hin). apply negb_true_iff in Hu. exact Hu. }
  split.
  - apply sub_runs_forallb; [reflexivity|]. intros c Hin _.
    rewrite forallb_forall in Hv. auto.
  - apply squeeze_no_double_dash.
Qed.

Lemma slugify_slug_safe s :
  slug_safe (slugify translit s 50) = true /\ (length (slugify translit s 50) <= 50)%nat.
Proof.
  rewrite slugify_unfold. cbn [Nat.ltb Nat.leb]. unfold smart_truncate. cbn [Nat.eqb].
  set (t := strip is_dash (slug_text translit s)).
  assert (Ht : slug_safe t = true) by apply strip_slug_safe, slug_text_body.
  assert (Hb : slug_body (strip is_dash t)).
  { apply slug_body_rstrip, slug_body_lstrip, slug_body_rstrip, slug_body_lstrip, slug_text_body. }
  destruct (length (strip is_dash t) <? 50)%nat eqn:Hlen.
  - split; [apply strip_slug_safe; subst t; apply slug_body_rstrip, slug_body_lstrip, slug_text_body|].
    apply Nat.ltb_lt in Hlen. lia.
  - split; [apply strip_slug_safe, slug_body_firstn, Hb|].
    etransitivity; [apply strip_length|]. rewrite length_firstn. lia.
Qed.

Lemma sub_runs_has_alnum P rep s : forall b : bool,
  (forall c, P c = true -> is_alnum c = false) ->
  has_alnum rep = false ->
  has_alnum (sub_runs P rep b s) = has_alnum s.
Proof.
  unfold has_alnum. induction s as [|c s IH]; intros b HP Hrep; cbn [sub_runs existsb]; [reflexivity|].
  destruct (P c) eqn:Hc.
  - rewrite existsb_app, IH, (HP c Hc) by assumption.
    destruct b; cbn [existsb]; rewrite ?Hrep; reflexivity.
  - cbn [existsb]. rewrite IH by assumption. reflexivity.
Qed.

Lemma cleanup_numbers_has_alnum s : forall prev,
  has_alnum (cleanup_numbers prev s) = has_alnum s.
Proof.
  unfold has_alnum. induction s as [|c s IH]; intros prev; cbn [cleanup_numbers existsb]; [reflexivity|].
  destruct (is_char "," c) eqn:Hc; cbn [andb].
  - rewrite (comma_not_alnum c Hc). cbn [orb].
    destruct (_ && _); [apply IH | cbn [existsb]; rewrite (comma_not_alnum c Hc); apply IH].
  - cbn [existsb]. rewrite IH. reflexivity.
Qed.

Lemma lower_has_alnum s : has_alnum (lower s) = has_alnum s.
Proof.
  unfold has_alnum, lower. induction s as [|c s IH]; cbn; [reflexivity|].
  rewrite lower_char_alnum. cbn in IH. rewrite IH. reflexivity.
Qed.

Lemma lstrip_has_alnum s : has_alnum (lstrip is_dash s) = has_alnum s.
Proof.
  unfold has_alnum. induction s as [|c s IH]; cbn; [reflexivity|].
  destruct (is_dash c) eqn:Hc; [|reflexivity].
  rewrite (dash_not_alnum c Hc). exact IH.
Qed.

Lemma rstrip_has_alnum s : has_alnum (rstrip is_dash s) = has_alnum s.
Proof.
  unfold has_alnum. induction s as [|c s IH]; cbn [rstrip existsb]; [reflexivity|].
  destruct (rstrip is_dash s) as [|c' r].
  - rewrite <- IH. destruct (is_dash c) eqn:Hc; cbn [existsb].
    + rewrite (dash_not_alnum c Hc). reflexivity.
    + reflexivity.
  - cbn [existsb] in *. rewrite IH. reflexivity.
Qed.

Lemma strip_has_alnum s : has_alnum (strip is_dash s) = has_alnum s.
Proof. unfold strip. rewrite rstrip_has_alnum. apply lstrip_has_alnum. Qed.

Lemma slug_safe_head s c t :
  slug_safe s = true -> s = c :: t -> is_alnum c = true.
Proof.
  intros Hs ->. unfold slug_safe in Hs.
  apply andb_true_iff in Hs as [Hs _]. apply andb_true_iff in Hs as [Hs Hd].
  apply andb_true_iff in Hs as [Hs _]. cbn in Hs, Hd.
  apply andb_true_iff in Hs as [Hc _]. apply negb_true_iff in Hd.
  apply slug_not_dash_alnum; assumption.
Qed.

Lemma slug_safe_empty_iff s : slug_safe s = true -> (s = [] <-> has_alnum s = false).
Proof.
  intros Hs. destruct s as [|c t]; [split; reflexivity|].
  pose proof (slug_safe_head _ c t Hs eq_refl) as Hc.
  unfold has_alnum. cbn [existsb]. rewrite Hc. split; discriminate.
Qed.

Lemma slug_safe_firstn_has_alnum (n : nat) s :
  slug_safe s = true -> has_alnum (firstn (S n) s) = has_alnum s.
Proof.
  intros Hs. destruct s as [|c t]; [reflexivity|].
  pose proof (slug_safe_head _ c t Hs eq_refl) as Hc.
  unfold has_alnum. cbn [firstn existsb]. rewrite Hc. reflexivity.
Qed.

Lemma slug_text_has_alnum s :
  has_alnum (slug_text translit s) = has_alnum (translit (sub_runs is_quote "-" false s)).
Proof.
  unfold slug_text.
  rewrite (sub_runs_has_alnum is_dash) by (auto using dash_not_alnum).
  rewrite (sub_runs_has_alnum disallowed) by (auto using disallowed_not_alnum).
  rewrite cleanup_numbers_has_alnum.
  rewrite (sub_runs_has_alnum is_quote) by (auto using quote_not_alnum).
  apply lower_has_alnum.
Qed.

Lemma slugify_has_alnum s :
  has_alnum (slugify translit s 50) = has_alnum (translit (sub_runs is_quote "-" false s)).
Proof.
  rewrite <- slug_text_has_alnum, slugify_unfold. cbn [Nat.ltb Nat.leb].
  unfold smart_truncate. cbn [Nat.eqb].
  set (t := strip is_dash (slug_text translit s)).
  assert (Hst : slug_safe (strip is_dash t) = true).
  { apply strip_slug_safe. subst t. apply slug_body_rstrip, slug_body_lstrip, slug_text_body. }
  destruct (length (strip is_dash t) <? 50)%nat.
  - subst t. rewrite !strip_has_alnum. reflexivity.
  - rewrite strip_has_alnum, slug_safe_firstn_has_alnum by exact Hst.
    subst t. rewrite !strip_has_alnum. reflexivity.
Qed.

End Slug.

(** C2 as stated fails: the key of a file named "___.jpg" is empty. *)
Lemma product_key_empty :
  product_key ascii_translit "/Volumes/LaCie/Etsy/___.jpg" = [] /\
  product_key ascii_translit "/Volumes/LaCie/Etsy/_1234.jpg" = [].
Proof. split; vm_compute; reflexivity. Qed.

(** C2, amended: the product key has at most 50 characters and is a slug,
    lowercase letters and digits in groups with one hyphen between two
    groups, or empty; it is empty exactly when the stem, once
    transliterated, holds no ASCII letter or digit. *)
Theorem product_key_slug (translit : text -> text) (p : text) :
  (length (product_key translit p) <= 50)%nat /\
  slug_safe (product_key translit p) = true /\
  (product_key translit p = [] <->
   has_alnum (translit (sub_runs is_quote "-" false (product_stem p))) = false).
Proof.
  unfold product_key.
  destruct (slugify_slug_safe translit (product_stem p)) as [Hs Hl].
  split; [exact Hl|]. split; [exact Hs|].
  rewrite <- slugify_has_alnum. apply slug_safe_empty_iff, Hs.
Qed.

Lemma product_key_slug_witness :
  product_key ascii_translit "/Volumes/LaCie/Etsy/!!!.jpg" = [].
Proof.
  apply (proj2 (proj2 (product_key_slug ascii_translit "/Volumes/LaCie/Etsy/!!!.jpg"))).
  vm_compute. reflexivity.
Defined.

(** ** Scan *)

Lemma path_stem_suffix (p : text) : path_name p = path_stem p ++ path_suffix p.
Proof.
  unfold path_stem, path_suffix.
  destruct ((0 <? rfind "." (path_name p)) && (rfind "." (path_name p) <? len (path_name p) - 1)).
  - symmetry. apply firstn_skipn.
  - symmetry. apply app_nil_r.
Qed.

Lemma path_suffix_stem_nonempty (p : text) : path_suffix p <> [] -> path_stem p <> [].
Proof.
  unfold path_stem, path_suffix.
  destruct ((0 <? rfind "." (path_name p)) && (rfind "." (path_name p) <? len (path_name p) - 1))
    eqn:Hc; [|congruence].
  intros _. apply andb_true_iff in Hc as [H0 H1].
  apply Z.ltb_lt in H0, H1. unfold len in H1.
  destruct (path_name p) as [|c name]; [cbn in H1; lia|].
  destruct (Z.to_nat (rfind "." (c :: name))) eqn:Hn; [lia|]. discriminate.
Qed.

Lemma iter_images_In (entries : list (text * bool)) (p : text) :
  In p (iter_images entries) <->
  In (p, true) entries /\ lower (path_suffix p) ∈ ALLOWED_EXT /\
  contains "listing_print_files" p = false.
Proof.
  induction entries as [|[q is_file] rest IH]; cbn [iter_images In]; [tauto|].
  assert (Hstep : In p (if bool_decide (lower (path_suffix q) ∈ ALLOWED_EXT) && is_file
                        then if contains "listing_print_files" q
                             then iter_images rest else q :: iter_images rest
                        else iter_images rest)
                  <-> (q = p /\ lower (path_suffix q) ∈ ALLOWED_EXT /\ is_file = true /\
                       contains "listing_print_files" q = false)
                      \/ In p (iter_images rest)).
  { destruct (bool_decide (lower (path_suffix q) ∈ ALLOWED_EXT)) eqn:Hext;
      [apply bool_decide_eq_true_1 in Hext | apply bool_decide_eq_false_1 in Hext];
      destruct is_file; cbn [andb];
      try (destruct (contains "listing_print_files" q) eqn:Hm; cbn [In]);
      intuition congruence. }
  rewrite Hstep, IH. clear Hstep IH. split.
  - intros [(-> & Hext & -> & Hm)|(Hin & Hext & Hm)]; auto.
  - intros ([Heq|Hin] & Hext & Hm); [|auto].
    injection Heq as -> ->. auto.
Qed.

Lemma iter_images_sublist (entries : list (text * bool)) :
  iter_images entries `sublist_of` map fst entries.
Proof.
  induction entries as [|[q is_file] rest IH]; cbn [iter_images map fst]; [constructor|].
  destruct (_ && _); [destruct (contains _ q)|];
    [apply sublist_cons | apply sublist_skip | apply sublist_cons]; exact IH.
Qed.

(** X1: [iter_images] yields, in the order of the walk, exactly the entries
    that are files, whose suffix is one of [ALLOWED_EXT] in any letter case
    and whose path does not hold "listing_print_files". The name of a
    yielded path is a stem that is not empty followed by that suffix, so a
    file named ".jpg" alone is never yielded. *)
Theorem iter_images_yields (entries : list (text * bool)) :
  iter_images entries `sublist_of` map fst entries /\
  forall p : text,
    (In p (iter_images entries) <->
     In (p, true) entries /\
     lower (path_suffix p) ∈ ALLOWED_EXT /\
     contains "listing_print_files" p = false) /\
    (In p (iter_images entries) ->
     path_name p = path_stem p ++ path_suffix p /\ path_stem p <> []).
Proof.
  split; [apply iter_images_sublist|].
  intros p. split; [apply iter_images_In|]. intros Hin. apply iter_images_In in Hin as (_ & Hext & _).
  split; [apply path_stem_suffix|]. apply path_suffix_stem_nonempty.
  intros Hnil. rewrite Hnil in Hext. vm_compute in Hext.
  repeat (apply elem_of_cons in Hext as [Hext|Hext]; [discriminate|]).
  inversion Hext.
Qed.

(** ** The order of paths and the sort *)

Section Lex.

Context {A : Type} (cmp : A -> A -> comparison) (Hcmp : comparison_ok cmp).

Lemma lex_compare_ok : comparison_ok (lex_compare cmp).
Proof.
  destruct Hcmp as [Heq Hopp Htrans]. split.
  - induction x as [|a x IH]; intros [|b y]; cbn; try (split; congruence).
    destruct (cmp a b) eqn:Hab.
    + apply Heq in Hab as ->. rewrite IH. split; congruence.
    + split; [discriminate|]. intros [= -> ->].
      rewrite (proj2 (Heq b b) eq_refl) in Hab. discriminate.
    + split; [discriminate|]. intros [= -> ->].
      rewrite (proj2 (Heq b b) eq_refl) in Hab. discriminate.
  - induction x as [|a x IH]; intros [|b y]; cbn; try reflexivity.
    rewrite (Hopp a b). destruct (cmp a b); cbn; auto.
  - induction x as [|a x IH]; intros [|b y] [|c z]; cbn; try congruence.
    destruct (cmp a b) eqn:Hab; try discriminate.
    + apply Heq in Hab as ->. destruct (cmp b c); try congruence. apply IH.
    + intros _. destruct (cmp b c) eqn:Hbc; try discriminate.
      * apply Heq in Hbc as ->. rewrite Hab. reflexivity.
      * rewrite (Htrans a b c Hab Hbc). reflexivity.
Qed.

End Lex.

Lemma code_compare_ok : comparison_ok (fun x y : ascii => (code x ?= code y)%N).
Proof.
  split.
  - intros x y. rewrite N.compare_eq_iff. unfold code. split; [|congruence].
    intros H. rewrite <- (ascii_N_embedding x), <- (ascii_N_embedding y). congruence.
  - intros x y. apply N.compare_antisym.
  - intros x y z. rewrite !N.compare_lt_iff. lia.
Qed.

Lemma text_compare_lex (a b : text) :
  text_compare a b = lex_compare (fun x y => (code x ?= code y)%N) a b.
Proof. revert b. induction a as [|x a IH]; intros [|y b]; cbn; try reflexivity. rewrite IH. reflexivity. Qed.

Lemma text_compare_ok : comparison_ok text_compare.
Proof.
  pose proof (lex_compare_ok _ code_compare_ok) as [H1 H2 H3].
  split; intros *; rewrite !text_compare_lex; [apply H1 | apply H2 | apply H3].
Qed.

Lemma parts_compare_lex (a b : list text) : parts_compare a b = lex_compare text_compare a b.
Proof. revert b. induction a as [|x a IH]; intros [|y b]; cbn; try reflexivity. rewrite IH. reflexivity. Qed.

Lemma parts_compare_ok : comparison_ok parts_compare.
Proof.
  pose proof (lex_compare_ok _ text_compare_ok) as [H1 H2 H3].
  split; intros *; rewrite !parts_compare_lex; [apply H1 | apply H2 | apply H3].
Qed.

Lemma path_le_refl (p : text) : path_le p p.
Proof.
  unfold path_le, path_leb.
  rewrite (proj2 (cmp_eq _ parts_compare_ok (path_parts p) (path_parts p)) eq_refl). reflexivity.
Qed.

Lemma path_le_total (p q : text) : path_leb p q = false -> path_le q p.
Proof.
  unfold path_le, path_leb. rewrite (cmp_opp _ parts_compare_ok (path_parts p) (path_parts q)).
  destruct (parts_compare (path_parts p) (path_parts q)); cbn; congruence.
Qed.

Lemma path_le_trans (p q r : text) : path_le p q -> path_le q r -> path_le p r.
Proof.
  unfold path_le, path_leb. pose proof parts_compare_ok as [Heq Hopp Htrans].
  destruct (parts_compare (path_parts p) (path_parts q)) eqn:Hpq; try discriminate; intros _.
  - apply Heq in Hpq. rewrite Hpq. auto.
  - destruct (parts_compare (path_parts q) (path_parts r)) eqn:Hqr; try discriminate; intros _.
    + apply Heq in Hqr. rewrite <- Hqr, Hpq. reflexivity.
    + rewrite (Htrans _ _ _ Hpq Hqr). reflexivity.
Qed.

Lemma join_cons_cons (sep a b : text) (l : list text) :
  join sep (a :: b :: l) = a ++ sep ++ join sep (b :: l).
Proof. reflexivity. Qed.

(** Cutting at a separator loses nothing: the pieces joined by it are the
    text again. *)
Lemma split_at_go_join (sep : ascii) (s : text) : forall cur : text,
  join [sep] (split_at_go sep cur s) = rev cur ++ s.
Proof.
  induction s as [|c s IH]; intros cur; cbn [split_at_go].
  - cbn. symmetry. apply app_nil_r.
  - destruct (is_char sep c) eqn:Hc.
    + assert (c = sep) as ->.
      { unfold is_char in Hc. apply N.eqb_eq in Hc.
        apply (proj1 (cmp_eq _ code_compare_ok c sep)). apply N.compare_eq_iff. exact Hc. }
      specialize (IH []). cbn [rev app] in IH.
      destruct (split_at_go sep [] s) as [|piece rest] eqn:Hsp.
      * destruct s; cbn in Hsp; [discriminate|]. destruct (is_char sep a); discriminate.
      * rewrite join_cons_cons, IH. reflexivity.
    + rewrite IH. cbn [rev]. rewrite <- app_assoc. reflexivity.
Qed.

Lemma path_parts_inj (p q : text) : path_parts p = path_parts q -> p = q.
Proof.
  unfold path_parts, split_at. intros H.
  pose proof (split_at_go_join "/" p []) as Hp. pose proof (split_at_go_join "/" q []) as Hq.
  cbn [rev app] in Hp, Hq. congruence.
Qed.

Lemma path_le_antisym (p q : text) : path_le p q -> path_le q p -> p = q.
Proof.
  unfold path_le, path_leb. pose proof parts_compare_ok as [Heq Hopp Htrans].
  rewrite (Hopp (path_parts p) (path_parts q)).
  destruct (parts_compare (path_parts p) (path_parts q)) eqn:Hpq; cbn; try discriminate.
  intros _ _. apply path_parts_inj, Heq, Hpq.
Qed.

Lemma sort_insert_perm (p : text) (l : list text) : sort_insert p l ≡ₚ p :: l.
Proof.
  induction l as [|q l IH]; cbn; [reflexivity|].
  destruct (path_leb p q); [reflexivity|]. rewrite IH. apply Permutation_swap.
Qed.

Lemma sort_paths_perm (l : list text) : sort_paths l ≡ₚ l.
Proof.
  induction l as [|p l IH]; cbn; [reflexivity|].
  rewrite sort_insert_perm, IH. reflexivity.
Qed.

Lemma sort_insert_sorted (p : text) (l : list text) :
  StronglySorted path_le l -> StronglySorted path_le (sort_insert p l).
Proof.
  induction 1 as [|q l Hl IH Hq]; cbn.
  - repeat constructor.
  - destruct (path_leb p q) eqn:Hpq.
    + constructor; [constructor; assumption|].
      constructor; [exact Hpq|].
      eapply Forall_impl; [exact Hq|]. intros r Hr. eapply path_le_trans; eassumption.
    + constructor; [exact IH|].
      rewrite sort_insert_perm. constructor; [apply path_le_total, Hpq | exact Hq].
Qed.

Lemma sort_paths_sorted (l : list text) : StronglySorted path_le (sort_paths l).
Proof.
  induction l as [|p l IH]; cbn; [constructor | apply sort_insert_sorted, IH].
Qed.

(** ** Grouping *)

Section GroupingFacts.

Variable translit : text -> text.

Implicit Types (d : list (text * list text)) (k : text) (p : text).

Lemma setdefault_append_keys d k p (x : text) :
  x ∈ map fst (setdefault_append d k p) -> x ∈ map fst d \/ x = k.
Proof.
  induction d as [|[k0 fs] d IH]; cbn [setdefault_append map fst].
  - intros H. apply list_elem_of_singleton in H. auto.
  - destruct (bool_decide (k0 = k)); cbn [map fst]; [auto|].
    intros H. apply elem_of_cons in H as [->|H]; [left; left|].
    destruct (IH H) as [H'|H']; [left; right; exact H' | right; exact H'].
Qed.

Lemma setdefault_append_NoDup d k p :
  NoDup (map fst d) -> NoDup (map fst (setdefault_append d k p)).
Proof.
  induction d as [|[k0 fs] d IH]; cbn [setdefault_append map fst]; intros Hnd.
  - apply NoDup_singleton.
  - destruct (bool_decide (k0 = k)) eqn:Hk; cbn [map fst]; [exact Hnd|].
    apply bool_decide_eq_false_1 in Hk. apply NoDup_cons in Hnd as [Hnot Hnd].
    apply NoDup_cons. split; [|apply IH, Hnd].
    intros Hin. apply setdefault_append_keys in Hin as [Hin| ->]; [exact (Hnot Hin) | exact (Hk eq_refl)].
Qed.

Lemma setdefault_append_groups d p :
  Forall (group_of_key translit) d ->
  Forall (group_of_key translit) (setdefault_append d (product_key translit p) p).
Proof.
  induction d as [|[k0 fs] d IH]; cbn [setdefault_append]; intros Hall.
  - constructor; [|constructor]. split; cbn [fst snd]; [discriminate|].
    constructor; [reflexivity | constructor].
  - apply Forall_cons in Hall as [[Hne Hkeys] Hall]. cbn [fst snd] in Hne, Hkeys.
    destruct (bool_decide (k0 = product_key translit p)) eqn:Hk.
    + apply bool_decide_eq_true_1 in Hk. constructor; [|exact Hall].
      split; cbn [fst snd].
      * destruct fs; discriminate.
      * apply Forall_app. split; [exact Hkeys|]. repeat constructor. congruence.
    + constructor; [split; assumption | apply IH, Hall].
Qed.

Lemma setdefault_append_files d k p :
  concat (map snd (setdefault_append d k p)) ≡ₚ concat (map snd d) ++ [p].
Proof.
  induction d as [|[k0 fs] d IH]; cbn [setdefault_append map snd concat]; [reflexivity|].
  destruct (bool_decide (k0 = k)); cbn [map snd concat].
  - rewrite <- !app_assoc. apply Permutation_app_head, Permutation_app_comm.
  - rewrite IH, app_assoc. reflexivity.
Qed.

Lemma group_loop_invariant (images : list text) : forall d,
  NoDup (map fst d) -> Forall (group_of_key translit) d ->
  NoDup (map fst (group_loop translit images d)) /\
  Forall (group_of_key translit) (group_loop translit images d) /\
  concat (map snd (group_loop translit images d)) ≡ₚ concat (map snd d) ++ images.
Proof.
  induction images as [|p images IH]; intros d Hnd Hall; cbn [group_loop].
  - rewrite app_nil_r. auto.
  - destruct (IH (setdefault_append d (product_key translit p) p)) as (H1 & H2 & H3);
      [apply setdefault_append_NoDup, Hnd | apply setdefault_append_groups, Hall |].
    split; [exact H1|]. split; [exact H2|].
    rewrite H3, setdefault_append_files, <- app_assoc. reflexivity.
Qed.

Lemma sort_groups_keys d : map fst (sort_groups d) = map fst d.
Proof. unfold sort_groups. rewrite map_map. reflexivity. Qed.

Lemma sort_groups_files d : concat (map snd (sort_groups d)) ≡ₚ concat (map snd d).
Proof.
  induction d as [|[k fs] d IH]; cbn; [reflexivity|].
  rewrite sort_paths_perm. apply Permutation_app_head, IH.
Qed.

Lemma sort_groups_of_key d :
  Forall (group_of_key translit) d -> Forall (group_of_key translit) (sort_groups d).
Proof.
  unfold sort_groups. rewrite Forall_map. intros Hd. eapply Forall_impl; [exact Hd|]. clear Hd.
  intros [k fs] [Hne Hkeys]. cbn [fst snd] in *. split; cbn [fst snd].
  - intros Hnil. apply Hne. apply Permutation_nil_r. rewrite <- Hnil. symmetry. apply sort_paths_perm.
  - rewrite sort_paths_perm. exact Hkeys.
Qed.

Lemma sort_groups_sorted d :
  Forall (fun g => snd g <> []) d -> Forall group_sorted (sort_groups d).
Proof.
  unfold sort_groups. rewrite Forall_map. intros Hd. eapply Forall_impl; [exact Hd|]. clear Hd.
  intros [k fs] Hne. cbn [fst snd] in *. unfold group_sorted. cbn [fst snd].
  pose proof (sort_paths_sorted fs) as Hs. split; [exact Hs|].
  destruct (sort_paths fs) as [|primary rest] eqn:Hsort.
  - exfalso. apply Hne. apply Permutation_nil_r. rewrite <- Hsort. symmetry. apply sort_paths_perm.
  - exists primary. split; [reflexivity|].
    apply StronglySorted_inv in Hs as [_ Hs]. constructor; [apply path_le_refl | exact Hs].
Qed.

(** X2: the groups [main] processes split the images found by their
    product keys: no key comes twice, every group has one file at least
    and only files of its key, and the files of all groups together are
    the images found, each once. *)
Theorem grouped_partition (entries : list (text * bool)) :
  NoDup (map fst (grouped translit entries)) /\
  Forall (group_of_key translit) (grouped translit entries) /\
  concat (map snd (grouped translit entries)) ≡ₚ iter_images entries.
Proof.
  unfold grouped.
  destruct (group_loop_invariant (iter_images entries) []) as (H1 & H2 & H3);
    [constructor | constructor |].
  split; [rewrite sort_groups_keys; exact H1|].
  split; [apply sort_groups_of_key, H2|].
  rewrite sort_groups_files, H3. reflexivity.
Qed.

(** X3: the files of every group are sorted by path, so that the primary
    image of a group, its first file, exists and is the least path of the
    group. *)
Theorem grouped_sorted (entries : list (text * bool)) :
  Forall group_sorted (grouped translit entries).
Proof.
  unfold grouped. apply sort_groups_sorted.
  destruct (group_loop_invariant (iter_images entries) []) as (_ & H2 & _);
    [constructor | constructor |].
  eapply Forall_impl; [exact H2|]. intros g [Hne _]. exact Hne.
Qed.

End GroupingFacts.

(** ** The records and files of a run *)

Section Run.

Variable W : world.

(** What a group that gives records went through. *)
Lemma process_group_inv (key : text) (files : list text) (s s' : written)
    (e : etsy_listing) (w : website_product) :
  process_group W key files s = (Some (Some (e, w)), s') ->
  exists primary im variant_paths additional s1 p,
    head files = Some primary /\
    load_rgb W primary = Some im /\
    variants_loop W im (product_dir_of key) key VARIANTS [] s = (Some variant_paths, s1) /\
    extras_loop W (product_dir_of key) key 0 (take MAX_EXTRAS (drop 1 files)) [] s1
    = (Some additional, s') /\
    calculate_price (category (parse_metadata_from_path primary))
                    (location (parse_metadata_from_path primary)) = Some p /\
    e = {| sku := key;
           etsy_title := title_case (replace_char "-" " " key) +++ " - Fine Art Photography Print";
           price := format_price p;
           materials := join ", " DEFAULT_MATERIALS;
           etsy_tags := join ", " (generate_tags key (category (parse_metadata_from_path primary))
                                     (location (parse_metadata_from_path primary)));
           etsy_category := category (parse_metadata_from_path primary);
           etsy_location := location (parse_metadata_from_path primary);
           primary_image := dict_get_text variant_paths "etsy_primary_3000x2400";
           additional_images :=
             join ", " (dict_get_text variant_paths "etsy_square_2000" :: additional);
           folder := product_dir_of key;
           source_files := length files |} /\
    id w = key /\
    title w = title_case (replace_char "-" " " key) /\
    wp_category w = category (parse_metadata_from_path primary) /\
    wp_location w = location (parse_metadata_from_path primary) /\
    dimensions w = (width im, height im) /\
    tags w = generate_tags key (category (parse_metadata_from_path primary))
               (location (parse_metadata_from_path primary)) /\
    base_price w = p /\
    variants w = variant_paths /\
    web_path w = "/images/" +++ key +++ "_website_medium_1000.jpg".
Proof.
  unfold process_group. fold (product_dir_of key).
  unfold mbind at 1, M_bind at 1, try_ at 1.
  destruct (head files) as [primary|] eqn:Hhead; [|discriminate].
  destruct (load_rgb W primary) as [im|] eqn:Hload; [|discriminate].
  unfold mbind at 1, M_bind at 1.
  destruct (variants_loop W im (product_dir_of key) key VARIANTS [] s)
    as [[variant_paths|] s1] eqn:Hv; [|discriminate].
  unfold mbind at 1, M_bind at 1.
  destruct (extras_loop W (product_dir_of key) key 0 (take MAX_EXTRAS (drop 1 files)) [] s1)
    as [[additional|] s2] eqn:Hx; [|discriminate].
  unfold mbind at 1, M_bind at 1, try_ at 1.
  destruct (calculate_price _ _) as [p|] eqn:Hprice; [|discriminate].
  unfold mret, M_ret. intros [= <- <- <-].
  exists primary, im, variant_paths, additional, s1, p.
  repeat split; try reflexivity; assumption.
Qed.

Lemma process_group_same_product (key : text) (files : list text) (s s' : written)
    (e : etsy_listing) (w : website_product) :
  process_group W key files s = (Some (Some (e, w)), s') -> same_product e w.
Proof.
  intros H. apply process_group_inv in H
    as (primary & im & d & a & s1 & p & _ & _ & _ & _ & _ & -> & Hid & _ & Hc & Hl & _ & Ht & Hp & _).
  unfold same_product. cbn. rewrite Hid, Hc, Hl, Ht, Hp. auto.
Qed.

(** An invariant of [groups_loop] that every group keeps holds at the end. *)
Lemma groups_loop_invariant (P : run -> Prop) :
  (forall r key files o s',
      P r -> process_group W key files (files_written r) = (o, s') ->
      P (match o with
         | Some (Some (e, w)) =>
             {| etsy_listings := etsy_listings r ++ [e];
                website_products := website_products r ++ [w];
                files_written := s' |}
         | _ => {| etsy_listings := etsy_listings r;
                   website_products := website_products r;
                   files_written := s' |}
         end)) ->
  forall groups r, P r -> P (groups_loop W groups r).
Proof.
  intros Hstep groups. induction groups as [|[key files] groups IH]; intros r Hr; cbn [groups_loop].
  - exact Hr.
  - destruct (process_group W key files (files_written r)) as [o s'] eqn:Hrun.
    specialize (Hstep r key files o s' Hr Hrun).
    destruct o as [[[e w]|]|]; apply IH; exact Hstep.
Qed.

(** X4: the marketplace records and the website records of a run go in
    pairs, in the same order: the two of a pair have the same key,
    category and location, the same tags, joined in the one, and the same
    price, printed with two decimals in the one. *)
Theorem records_in_pairs (groups : list (text * list text)) :
  Forall2 same_product (fst (fst (fst (main W groups)))) (snd (fst (fst (main W groups)))).
Proof.
  unfold main. cbn [fst snd].
  apply (groups_loop_invariant
           (fun r => Forall2 same_product (etsy_listings r) (website_products r)));
    [|constructor].
  intros r key files o s' Hr Hrun.
  destruct o as [[[e w]|]|]; cbn; [|exact Hr..].
  apply Forall2_app; [exact Hr|]. constructor; [|constructor].
  eapply process_group_same_product, Hrun.
Qed.

End Run.

Section Files.

Variable W : world.
Hypothesis Wok : world_ok W.

(** A group leaves the files of [group_files], and gives its records
    exactly when it is processed to its end. *)
Lemma process_group_outcome (key : text) (files : list text) (s : written) :
  exists o,
    process_group W key files s = (o, s ++ group_files W (key, files)) /\
    if group_completes W (key, files)
    then exists e w, o = Some (Some (e, w)) /\ sku e = key /\ source_files e = length files
    else forall e w, o <> Some (Some (e, w)).
Proof.
  unfold group_completes. cbn [fst snd].
  destruct (head files) as [primary|] eqn:Hhead.
  - destruct (load_rgb W primary) as [im|] eqn:Hload.
    + destruct (process_group_files W key files primary im s Hhead Hload) as (o & Hrun & Ho).
      exists o. split; [exact Hrun|].
      rewrite (variants_ok_decoded W Wok _ _ Hload), (extras_raise_truncated W Wok) in Ho.
      destruct (decoded im && _); [exact Ho|]. subst o. discriminate.
    + exists (Some None). split; [|discriminate].
      unfold process_group, group_files. cbn [fst snd].
      unfold mbind at 1, M_bind at 1, try_ at 1. rewrite Hhead, Hload, app_nil_r. reflexivity.
  - exists None. split; [|discriminate].
    unfold process_group, group_files. cbn [fst snd].
    unfold mbind at 1, M_bind at 1, try_ at 1. rewrite Hhead, app_nil_r. reflexivity.
Qed.

Lemma groups_loop_completing (groups : list (text * list text)) : forall r : run,
  map sku (etsy_listings (groups_loop W groups r))
  = map sku (etsy_listings r) ++ map fst (List.filter (group_completes W) groups) /\
  map source_files (etsy_listings (groups_loop W groups r))
  = map source_files (etsy_listings r)
    ++ map (fun g => length (snd g)) (List.filter (group_completes W) groups) /\
  files_written (groups_loop W groups r)
  = files_written r ++ concat (map (group_files W) groups).
Proof.
  induction groups as [|[key files] groups IH]; intros r; cbn [groups_loop List.filter map concat].
  - rewrite !app_nil_r. auto.
  - destruct (process_group_outcome key files (files_written r)) as (o & Hrun & Ho).
    rewrite Hrun. destruct (group_completes W (key, files)).
    + destruct Ho as (e & w & -> & Hsku & Hn).
      destruct (IH {| etsy_listings := etsy_listings r ++ [e];
                      website_products := website_products r ++ [w];
                      files_written := files_written r ++ group_files W (key, files) |})
        as (H1 & H2 & H3).
      rewrite H1, H2, H3. cbn [etsy_listings files_written map fst snd].
      rewrite !map_app. cbn [map]. rewrite Hsku, Hn, <- !app_assoc. auto.
    + destruct (IH {| etsy_listings := etsy_listings r;
                      website_products := website_products r;
                      files_written := files_written r ++ group_files W (key, files) |})
        as (H1 & H2 & H3).
      cbn [etsy_listings files_written] in H1, H2, H3. rewrite <- app_assoc in H3.
      destruct o as [[[e w]|]|]; [exfalso; exact (Ho e w eq_refl) | |]; auto.
Qed.

End Files.

(** X5: in a world whose images have positive sizes, a run gives one
    record for each group that is processed to its end, in the order of
    the groups, with the key of the group and the number of its files: the
    groups whose primary image [load_rgb] returns and decodes, and none of
    whose first nine extras opens without decoding. The files written are,
    group after group, those that each group wrote before it ended or
    stopped: a group that an image stops gives no record and leaves the
    files it had written. *)
Theorem run_of_completing_groups (W : world) (groups : list (text * list text)) :
  world_ok W ->
  map sku (fst (fst (fst (main W groups))))
  = map fst (List.filter (group_completes W) groups) /\
  map source_files (fst (fst (fst (main W groups))))
  = map (fun g => length (snd g)) (List.filter (group_completes W) groups) /\
  snd (main W groups) = concat (map (group_files W) groups).
Proof.
  intros Wok. unfold main. cbn [fst snd].
  exact (groups_loop_completing W Wok groups
           {| etsy_listings := []; website_products := []; files_written := [] |}).
Qed.

Lemma run_of_completing_groups_witness :
  map sku (fst (fst (fst (main (sample_world 200 100) sample_groups))))
  = [("dunes" : text); ("pier" : text)] /\
  map source_files (fst (fst (fst (main (sample_world 200 100) sample_groups))))
  = [11%nat; 3%nat] /\
  map (fun g => length (group_files (sample_world 200 100) g)) sample_groups
  = [14%nat; 0%nat; 6%nat; 6%nat].
Proof.
  destruct (run_of_completing_groups (sample_world 200 100) sample_groups
              (sample_world_ok 200 100)) as (H1 & H2 & _).
  split; [rewrite H1; vm_compute; reflexivity|].
  split; [rewrite H2|]; vm_compute; reflexivity.
Defined.

(** ** The files of a group *)

Section GroupFiles.

Variable W : world.

Lemma path_join_cons (dir : text) (c : ascii) (name : text) :
  path_join dir (c :: name) = dir +++ "/" +++ c :: name.
Proof. reflexivity. Qed.

Lemma path_join_key (dir key rest : text) :
  path_join dir (key +++ "_" +++ rest) = dir +++ "/" +++ key +++ "_" +++ rest.
Proof. destruct key; reflexivity. Qed.

Lemma pad_resize_shape (im boxed : image) (w h : Z) (bg : text) :
  pad_resize im w h bg = Some boxed ->
  im_mode boxed = RGB /\ width boxed = w /\ height boxed = h.
Proof.
  unfold pad_resize. destruct (copy im) as [im1|]; [|discriminate].
  cbn [mbind option_bind]. destruct (thumbnail im1 w h) as [im2|]; [|discriminate].
  cbn [mbind option_bind]. destruct (_ || _); [discriminate|].
  intros [= <-]. cbn. auto.
Qed.

Lemma variant_save_inv (im : image) (key label : text) (w h : Z) (bg : text)
    (out : text * image) :
  variant_save W im key (label, w, h, bg) = Some out ->
  fst out = product_dir_of key +++ "/" +++ key +++ "_" +++ label +++ ".jpg" /\
  im_mode (snd out) = RGB /\ width (snd out) = w /\ height (snd out) = h.
Proof.
  unfold variant_save. destruct (pad_resize im w h bg) as [boxed|] eqn:Hpad; [|discriminate].
  cbn [mbind option_bind]. intros [= <-]. cbn [fst snd].
  destruct (pad_resize_shape _ _ _ _ _ Hpad) as (Hm & Hw & Hh).
  destruct (add_watermark_keeps W boxed Hm) as (Hm' & Hw' & Hh').
  split; [apply path_join_key|]. rewrite Hm', Hw', Hh'. auto.
Qed.

Lemma extra_save_inv (key : text) (j : nat) (f : text) (out : text * image) :
  extra_save W key j f = Some out ->
  fst out = product_dir_of key +++ "/" +++ key +++ "_" +++ extra_tail j (md5_of W f) /\
  im_mode (snd out) = RGB /\ width (snd out) = 2000 /\ height (snd out) = 2000.
Proof.
  unfold extra_save. destruct (load_rgb W f) as [im|]; [|discriminate].
  cbn [mbind option_bind].
  destruct (pad_resize im 2000 2000 "#ffffff") as [boxed|] eqn:Hpad; [|discriminate].
  cbn [mbind option_bind]. intros [= <-]. cbn [fst snd].
  destruct (pad_resize_shape _ _ _ _ _ Hpad) as (Hm & Hw & Hh).
  destruct (add_watermark_keeps W boxed Hm) as (Hm' & Hw' & Hh').
  split; [|rewrite Hm', Hw', Hh'; auto].
  change (key +++ "_extra_" +++ str_of_nat (j + 1) +++ "_" +++ md5_of W f +++ ".jpg")
    with (key +++ "_" +++ extra_tail j (md5_of W f)).
  apply path_join_key.
Qed.

Lemma extra_saves_Forall (P : nat -> text -> text * image -> Prop) (key : text) :
  (forall j f out, extra_save W key j f = Some out -> P j f out) ->
  forall (fs : list text) (i : nat),
    Forall (fun out => exists j f, (i <= j < i + length fs)%nat /\ In f fs /\ P j f out)
           (extra_saves W key i fs).
Proof.
  intros HP. induction fs as [|f fs IH]; intros i; cbn [extra_saves]; [constructor|].
  assert (Htail : Forall (fun out => exists j f0, (i <= j < i + length (f :: fs))%nat /\
                                                  In f0 (f :: fs) /\ P j f0 out)
                    (extra_saves W key (S i) fs)).
  { eapply Forall_impl; [apply IH|]. intros out (j & f0 & Hj & Hin & Hout).
    exists j, f0. cbn [length In]. split; [lia|]. auto. }
  destruct (load_rgb W f); [|exact Htail].
  destruct (extra_save W key i f) as [out|] eqn:Hsave; [|constructor].
  constructor; [|exact Htail].
  exists i, f. cbn [length In]. split; [lia|]. split; [auto|]. apply HP, Hsave.
Qed.

Lemma extra_saves_length (key : text) (fs : list text) : forall i : nat,
  (length (extra_saves W key i fs) <= length fs)%nat.
Proof.
  induction fs as [|f fs IH]; intros i; cbn [extra_saves length]; [lia|].
  specialize (IH (S i)). destruct (load_rgb W f); [|lia].
  destruct (extra_save W key i f); cbn [length]; lia.
Qed.

(** The seventh character of the name tells the extras of a product
    apart. *)
Lemma extra_tail_inj (j1 j2 : nat) (h1 h2 : text) :
  (j1 < 9)%nat -> (j2 < 9)%nat -> extra_tail j1 h1 = extra_tail j2 h2 -> j1 = j2.
Proof.
  intros H1 H2 Heq. apply (f_equal (take 7)) in Heq.
  do 9 (destruct j1 as [|j1]; [do 9 (destruct j2 as [|j2]; [first [reflexivity | discriminate Heq]|]); lia|]).
  lia.
Qed.

Lemma extra_tail_not_variant (j : nat) (h label : text) (w h' : Z) (bg : text) :
  In (label, w, h', bg) VARIANTS -> extra_tail j h <> label +++ ".jpg".
Proof.
  unfold VARIANTS. cbn [In].
  intros [H|[H|[H|[H|[H|[]]]]]]; injection H as <- _ _ _; intros Heq;
    apply (f_equal (take 2)) in Heq; discriminate Heq.
Qed.

Lemma extra_saves_NoDup (key : text) (fs : list text) : forall i : nat,
  (i + length fs <= 9)%nat -> NoDup (map fst (extra_saves W key i fs)).
Proof.
  induction fs as [|f fs IH]; intros i Hlen; cbn [extra_saves]; [constructor|].
  cbn [length] in Hlen. specialize (IH (S i) ltac:(lia)).
  destruct (load_rgb W f); [|exact IH].
  destruct (extra_save W key i f) as [out|] eqn:Hsave; [|constructor].
  cbn [map]. apply NoDup_cons. split; [|exact IH].
  intros Hin. apply list_elem_of_fmap in Hin as (out' & Hfst & Hin).
  pose proof (extra_saves_Forall
                (fun j f out => fst out = product_dir_of key +++ "/" +++ key +++ "_"
                                           +++ extra_tail j (md5_of W f))
                key (fun j f0 o Ho => proj1 (extra_save_inv key j f0 o Ho)) fs (S i)) as Hall.
  rewrite Forall_forall in Hall.
  destruct (Hall out' Hin) as (j & f0 & Hj & _ & Hpath).
  apply extra_save_inv in Hsave as [Hpath0 _].
  pose proof (eq_trans (eq_trans (eq_sym Hpath0) Hfst) Hpath) as Heq. clear Hfst.
  rename Heq into Hfst. do 4 apply app_inv_head in Hfst.
  apply extra_tail_inj in Hfst; lia.
Qed.

Lemma VARIANTS_labels_NoDup : NoDup (map (fun v => fst (fst (fst v))) VARIANTS).
Proof.
  unfold VARIANTS. cbn [map fst].
  repeat (apply NoDup_cons; split;
          [intros H; repeat (apply elem_of_cons in H as [H|H]; [vm_compute in H; discriminate H|]);
           inversion H|]).
  constructor.
Qed.

Lemma variant_saves_paths (im : image) (key : text) (vs : list (text * Z * Z * text)) :
  NoDup (map (fun v => fst (fst (fst v))) vs) ->
  NoDup (map fst (variant_saves W im key vs)) /\
  Forall (fun out => exists label w h bg,
              In (label, w, h, bg) vs /\
              fst out = product_dir_of key +++ "/" +++ key +++ "_" +++ label +++ ".jpg" /\
              im_mode (snd out) = RGB /\ width (snd out) = w /\ height (snd out) = h)
         (variant_saves W im key vs).
Proof.
  induction vs as [|[[[label w] h] bg] vs IH]; cbn [map variant_saves fst]; intros Hnd.
  - split; constructor.
  - apply NoDup_cons in Hnd as [Hnot Hnd]. destruct (IH Hnd) as [IH1 IH2].
    assert (IH2' : Forall (fun out => exists label0 w0 h0 bg0,
                               In (label0, w0, h0, bg0) ((label, w, h, bg) :: vs) /\
                               fst out = product_dir_of key +++ "/" +++ key +++ "_" +++ label0 +++ ".jpg" /\
                               im_mode (snd out) = RGB /\ width (snd out) = w0 /\
                               height (snd out) = h0)
                      (variant_saves W im key vs)).
    { eapply Forall_impl; [exact IH2|]. intros out (l0 & w0 & h0 & b0 & Hin & Hrest).
      exists l0, w0, h0, b0. split; [right; exact Hin | exact Hrest]. }
    destruct (variant_save W im key (label, w, h, bg)) as [out|] eqn:Hsave; [|split; constructor].
    apply variant_save_inv in Hsave as (Hpath & Hshape). cbn [map]. split.
    + apply NoDup_cons. split; [|exact IH1].
      intros Hin. apply list_elem_of_fmap in Hin as (out' & Hfst & Hin).
      rewrite Forall_forall in IH2.
      destruct (IH2 out' Hin) as (l0 & w0 & h0 & b0 & Hin0 & Hpath0 & _).
      pose proof (eq_trans (eq_trans (eq_sym Hpath) Hfst) Hpath0) as Heq. clear Hfst.
      rename Heq into Hfst. do 4 apply app_inv_head in Hfst.
      apply app_inv_tail in Hfst. subst l0. apply Hnot.
      apply list_elem_of_fmap. exists (label, w0, h0, b0). split; [reflexivity|].
      apply list_elem_of_In, Hin0.
    + constructor; [|exact IH2'].
      exists label, w, h, bg. split; [left; reflexivity|]. split; [exact Hpath | exact Hshape].
Qed.

End GroupFiles.

Lemma variant_saves_length (W : world) (im : image) (key : text)
    (vs : list (text * Z * Z * text)) :
  (length (variant_saves W im key vs) <= length vs)%nat.
Proof.
  induction vs as [|v vs IH]; cbn [variant_saves length]; [lia|].
  destruct (variant_save W im key v); cbn [length]; lia.
Qed.

(** The paths of the files of a group differ from one another and lie in
    the directory of the product. *)
Lemma group_files_paths (W : world) (g : text * list text) :
  NoDup (map fst (group_files W g)) /\
  Forall (in_product_dir (fst g)) (map fst (group_files W g)).
Proof.
  destruct g as [key files]. unfold group_files. cbn [fst snd].
  destruct (head files) as [primary|]; [|split; constructor].
  destruct (load_rgb W primary) as [im|]; [|split; constructor].
  destruct (variant_saves_paths W im key VARIANTS (VARIANTS_labels_NoDup)) as [Hvn Hvf].
  pose proof (extra_saves_Forall W
                (fun j f out => fst out = product_dir_of key +++ "/" +++ key +++ "_"
                                           +++ extra_tail j (md5_of W f))
                key (fun j f0 o Ho => proj1 (extra_save_inv W key j f0 o Ho))
                (take MAX_EXTRAS (drop 1 files)) 0%nat) as Hef.
  assert (Hlen : (length (take MAX_EXTRAS (drop 1 files)) <= 9)%nat).
  { rewrite length_take. unfold MAX_EXTRAS. lia. }
  rewrite Forall_forall in Hvf, Hef.
  assert (Hvd : Forall (in_product_dir key) (map fst (variant_saves W im key VARIANTS))).
  { apply Forall_forall. intros path Hp. apply list_elem_of_fmap in Hp as (out & -> & Hp).
    destruct (Hvf out Hp) as (label & w & h & bg & _ & Hpath & _). exists label. exact Hpath. }
  destruct (variants_ok im VARIANTS); [|split; [exact Hvn | exact Hvd]].
  split.
  - rewrite map_app. apply NoDup_app. split; [exact Hvn|]. split.
    + intros path Hv He.
      apply list_elem_of_fmap in Hv as (out & -> & Hv).
      apply list_elem_of_fmap in He as (out' & Heq & He).
      destruct (Hvf out Hv) as (label & w & h & bg & Hin & Hpath & _).
      destruct (Hef out' He) as (j & f & _ & _ & Hpath').
      pose proof (eq_trans (eq_trans (eq_sym Hpath') (eq_sym Heq)) Hpath) as Hboth.
      do 4 apply app_inv_head in Hboth.
      exact (extra_tail_not_variant j _ label w h bg Hin Hboth).
    + apply extra_saves_NoDup. lia.
  - rewrite map_app. apply Forall_app. split; [exact Hvd|].
    apply Forall_forall. intros path Hp. apply list_elem_of_fmap in Hp as (out & -> & Hp).
    destruct (Hef out Hp) as (j & f & _ & _ & Hpath).
    exists ("extra_" +++ str_of_nat (j + 1) +++ "_" +++ md5_of W f).
    rewrite Hpath. unfold extra_tail. rewrite <- !app_assoc. reflexivity.
Qed.

(** X6: the files a group writes have paths that differ from one another,
    so that a group never overwrites a file of its own; each is in the
    directory of the product, named after its key, with the extension jpg;
    there are 14 of them at most. *)
Theorem group_files_distinct (W : world) (g : text * list text) :
  NoDup (map fst (group_files W g)) /\
  Forall (in_product_dir (fst g)) (map fst (group_files W g)) /\
  (length (group_files W g) <= 14)%nat.
Proof.
  destruct (group_files_paths W g) as [H1 H2]. split; [exact H1|]. split; [exact H2|].
  destruct g as [key files]. unfold group_files. cbn [fst snd].
  destruct (head files) as [primary|]; [|cbn; lia].
  destruct (load_rgb W primary) as [im|]; [|cbn; lia].
  pose proof (extra_saves_length W key (take MAX_EXTRAS (drop 1 files)) 0) as Hx.
  rewrite length_take in Hx. unfold MAX_EXTRAS in Hx.
  pose proof (variant_saves_length W im key VARIANTS) as Hv.
  change (length VARIANTS) with 5%nat in Hv.
  destruct (variants_ok im VARIANTS); [|lia].
  rewrite length_app. unfold MAX_EXTRAS. lia.
Qed.

(** X7: every image a group writes is RGB and has exactly the size of one
    of the variants, the extras that of the 2000 by 2000 one. *)
Theorem group_files_rgb_sized (W : world) (g : text * list text) :
  Forall (fun out => im_mode (snd out) = RGB /\ variant_sized (snd out)) (group_files W g) /\
  Forall (fun out => width (snd out) = 2000 /\ height (snd out) = 2000)
         (extra_saves W (fst g) 0 (take MAX_EXTRAS (drop 1 (snd g)))).
Proof.
  destruct g as [key files]. cbn [fst snd].
  assert (Hx : Forall (fun out => im_mode (snd out) = RGB /\
                                  width (snd out) = 2000 /\ height (snd out) = 2000)
                 (extra_saves W key 0 (take MAX_EXTRAS (drop 1 files)))).
  { eapply Forall_impl;
      [apply (extra_saves_Forall W
                (fun _ _ out => im_mode (snd out) = RGB /\
                                width (snd out) = 2000 /\ height (snd out) = 2000)
                key (fun j f0 o Ho => proj2 (extra_save_inv W key j f0 o Ho)))|].
    intros out (_ & _ & _ & _ & H). exact H. }
  split; [|eapply Forall_impl; [exact Hx|]; intros out (_ & Hw & Hh); split; assumption].
  unfold group_files. cbn [fst snd].
  destruct (head files) as [primary|]; [|constructor].
  destruct (load_rgb W primary) as [im|]; [|constructor].
  assert (Hv : Forall (fun out => im_mode (snd out) = RGB /\ variant_sized (snd out))
                 (variant_saves W im key VARIANTS)).
  { destruct (variant_saves_paths W im key VARIANTS (VARIANTS_labels_NoDup)) as [_ Hvf].
    eapply Forall_impl; [exact Hvf|].
    intros out (label & w & h & bg & Hin & _ & Hm & Hw & Hh).
    split; [exact Hm|]. exists label, w, h, bg. auto. }
  destruct (variants_ok im VARIANTS); [|exact Hv].
  apply Forall_app. split; [exact Hv|].
  eapply Forall_impl; [exact Hx|]. intros out (Hm & Hw & Hh).
  split; [exact Hm|]. exists "etsy_square_2000", 2000, 2000, "#ffffff".
  split; [right; left; reflexivity | auto].
Qed.

(** ** The paths in the records *)

Section RecordPaths.

Variable W : world.

Lemma dict_set_fresh {V : Type} (d : list (text * V)) (k : text) (v : V) :
  k ∉ map fst d -> dict_set d k v = d ++ [(k, v)].
Proof.
  induction d as [|[k0 v0] d IH]; cbn [dict_set map fst app]; intros Hk; [reflexivity|].
  apply not_elem_of_cons in Hk as [Hne Hk].
  rewrite bool_decide_eq_false_2 by congruence. rewrite IH by exact Hk. reflexivity.
Qed.

Lemma variants_loop_inv (im : image) (key : text) (vs : list (text * Z * Z * text)) :
  forall (d d' : list (text * text)) (s s' : written),
    variants_loop W im (product_dir_of key) key vs d s = (Some d', s') ->
    d' = fold_left (fun d v => dict_set d (fst (fst (fst v)))
                                 (variant_path key (fst (fst (fst v))))) vs d /\
    exists saves, s' = s ++ saves /\
                  map fst saves = map (fun v => variant_path key (fst (fst (fst v)))) vs.
Proof.
  induction vs as [|[[[label w] h] bg] vs IH]; intros d d' s s'; cbn [variants_loop fold_left].
  - unfold mret, M_ret. intros [= <- <-]. split; [reflexivity|].
    exists []. rewrite app_nil_r. auto.
  - unfold mbind at 1, M_bind at 1, try_ at 1.
    destruct (pad_resize im w h bg) as [boxed|]; [|discriminate].
    unfold mbind at 1, M_bind at 1, save at 1. intros Hrun.
    apply IH in Hrun as (Hd & saves & -> & Hpaths). split; [exact Hd|].
    eexists (_ :: saves). rewrite <- app_assoc. split; [reflexivity|].
    cbn [map fst]. rewrite Hpaths. reflexivity.
Qed.

Lemma extras_loop_inv (key : text) (fs : list text) :
  forall (i : nat) (additional additional' : list text) (s s' : written),
    extras_loop W (product_dir_of key) key i fs additional s = (Some additional', s') ->
    exists saves, s' = s ++ saves /\ additional' = additional ++ map fst saves.
Proof.
  induction fs as [|f fs IH]; intros i a a' s s'; cbn [extras_loop].
  - unfold mret, M_ret. intros [= <- <-]. exists []. rewrite !app_nil_r. auto.
  - destruct (load_rgb W f) as [extra_im|]; [|apply IH].
    unfold mbind at 1, M_bind at 1, try_ at 1.
    destruct (pad_resize extra_im 2000 2000 "#ffffff") as [boxed|]; [|discriminate].
    unfold mbind at 1, M_bind at 1, save at 1. intros Hrun.
    apply IH in Hrun as (saves & -> & ->).
    eexists (_ :: saves). rewrite <- !app_assoc. split; reflexivity.
Qed.

Lemma variant_dict (key : text) :
  fold_left (fun d v => dict_set d (fst (fst (fst v))) (variant_path key (fst (fst (fst v)))))
    VARIANTS []
  = map (fun v => (fst (fst (fst v)), variant_path key (fst (fst (fst v))))) VARIANTS.
Proof.
  unfold VARIANTS. cbn [fold_left map fst dict_set].
  repeat (rewrite dict_set_fresh;
          [cbn [app]
          | cbn [map fst]; intros H;
            repeat (apply elem_of_cons in H as [H|H]; [vm_compute in H; discriminate H|]);
            inversion H]).
  reflexivity.
Qed.

Lemma dict_get_text_here (k : text) (v : text) (d : list (text * text)) :
  dict_get_text ((k, v) :: d) k = v.
Proof. unfold dict_get_text. cbn. rewrite bool_decide_eq_true_2 by reflexivity. reflexivity. Qed.

Lemma dict_get_text_there (k0 k : text) (v0 : text) (d : list (text * text)) :
  k0 <> k -> dict_get_text ((k0, v0) :: d) k = dict_get_text d k.
Proof. intros H. unfold dict_get_text. cbn. rewrite bool_decide_eq_false_2 by exact H. reflexivity. Qed.

(** X8: the records of a group name the files that were written: the
    [variants] of the website record map the five labels, in order, to
    the paths of the five variant files; the primary image of the
    marketplace record is the 3000 by 2400 file, its additional images
    are the square file and then the extras written; all these paths are
    among the files written. *)
Theorem records_name_files (key : text) (files : list text) (s s' : written)
    (e : etsy_listing) (w : website_product) :
  process_group W key files s = (Some (Some (e, w)), s') ->
  variants w = map (fun v => (fst (fst (fst v)), variant_path key (fst (fst (fst v))))) VARIANTS /\
  primary_image e = variant_path key "etsy_primary_3000x2400" /\
  (exists extras,
      additional_images e = join ", " (variant_path key "etsy_square_2000" :: extras) /\
      (length extras <= 9)%nat /\
      exists before, s' = s ++ before /\
                     map fst before = map snd (variants w) ++ extras).
Proof.
  intros Hrun. apply process_group_inv in Hrun
    as (primary & im & d & a & s1 & p & _ & _ & Hv & Hx & _ & -> & _ & _ & _ & _ & _ & _ & _ & Hd & _).
  apply variants_loop_inv in Hv as (Hdict & vsaves & -> & Hvpaths).
  rewrite variant_dict in Hdict. subst d.
  assert (Hlen : forall (i : nat) (fs : list text) (acc acc' : list text) (t t' : written),
             extras_loop W (product_dir_of key) key i fs acc t = (Some acc', t') ->
             (length acc' <= length acc + length fs)%nat).
  { intros i fs. revert i. induction fs as [|f fs IH]; intros i acc acc' t t'; cbn [extras_loop].
    - unfold mret, M_ret. intros [= <- <-]. cbn. lia.
    - destruct (load_rgb W f) as [extra_im|];
        [|intros H; apply IH in H; cbn [length]; lia].
      unfold mbind at 1, M_bind at 1, try_ at 1.
      destruct (pad_resize extra_im 2000 2000 "#ffffff") as [boxed|]; [|discriminate].
      unfold mbind at 1, M_bind at 1, save at 1. intros H. apply IH in H.
      rewrite length_app in H. cbn [length] in *. lia. }
  pose proof (Hlen _ _ _ _ _ _ Hx) as Hn.
  rewrite length_take in Hn. unfold MAX_EXTRAS in Hn. cbn [length] in Hn.
  apply extras_loop_inv in Hx as (xsaves & -> & ->). cbn [app] in *.
  rewrite Hd. split; [reflexivity|]. cbn [primary_image additional_images].
  split.
  { unfold VARIANTS. cbn [map fst]. apply dict_get_text_here. }
  exists (map fst xsaves). split; [|split; [lia|]].
  - unfold VARIANTS. cbn [map fst].
    rewrite dict_get_text_there by (intros H; vm_compute in H; discriminate H).
    rewrite dict_get_text_here. reflexivity.
  - exists (vsaves ++ xsaves). rewrite <- app_assoc. split; [reflexivity|].
    rewrite map_app, Hvpaths, map_map. reflexivity.
Qed.

End RecordPaths.

Lemma records_name_files_witness :
  match process_group (sample_world 200 100) "dunes" sample_group [] with
  | (Some (Some (e, w)), _) =>
      primary_image e = variant_path "dunes" "etsy_primary_3000x2400"
  | _ => False
  end.
Proof.
  destruct (process_group (sample_world 200 100) "dunes" sample_group [])
    as [[[[e w]|]|] s'] eqn:Hrun.
  - exact (proj1 (proj2 (records_name_files (sample_world 200 100) "dunes" sample_group
                           [] s' e w Hrun))).
  - vm_compute in Hrun. discriminate Hrun.
  - vm_compute in Hrun. discriminate Hrun.
Defined.

(** ** More on tags *)

Lemma dedupe_first_seen_In (l : list text) (t : text) :
  In t (dedupe_first_seen l) <-> In t l.
Proof.
  induction l as [|x l IH]; cbn [dedupe_first_seen In]; [tauto|].
  rewrite List.filter_In, IH. destruct (decide (t = x)) as [->|Hne].
  - tauto.
  - rewrite (bool_decide_eq_false_2 (t = x)) by exact Hne. cbn. split; [tauto|].
    intros [Heq|Hin]; [congruence | auto].
Qed.

Lemma dedupe_first_seen_app_any (a b : list text) :
  dedupe_first_seen (a ++ b)
  = dedupe_first_seen a
    ++ List.filter (fun y => negb (bool_decide (y ∈ a))) (dedupe_first_seen b).
Proof.
  induction a as [|x a IH]; cbn [app dedupe_first_seen].
  - symmetry. apply filter_id. intros y _.
    rewrite bool_decide_eq_false_2; [reflexivity | apply not_elem_of_nil].
  - rewrite IH, List.filter_app. cbn [app]. do 2 f_equal.
    rewrite filter_filter_and. apply List.filter_ext. intros y.
    rewrite andb_comm. apply not_in_cons_bool.
Qed.

Lemma dedupe_first_seen_length (l : list text) :
  (length (dedupe_first_seen l) <= length l)%nat.
Proof.
  induction l as [|x l IH]; cbn [dedupe_first_seen length]; [lia|].
  pose proof (List.filter_length_le (fun y => negb (bool_decide (y = x))) (dedupe_first_seen l)).
  lia.
Qed.

Lemma fixed_tags_length (category location : text) :
  (length (fixed_tags category location) <= 9)%nat.
Proof.
  unfold fixed_tags, category_extra_tags. rewrite !length_app.
  change (length DEFAULT_TAGS) with 5%nat.
  repeat case_bool_decide; cbn [length map]; lia.
Qed.

(** X9: the cut at 13 never takes away a default tag, a tag of the
    category or the tag of the location: only words of the product key can
    be cut. And every tag returned is one of those or a word of the key
    longer than two characters. *)
Theorem generate_tags_keeps_fixed (product_key category location t : text) :
  (In t (fixed_tags category location) -> In t (generate_tags product_key category location)) /\
  (In t (generate_tags product_key category location) ->
   In t (fixed_tags category location) \/ In t (key_tokens product_key)).
Proof.
  rewrite generate_tags_refines. unfold tags_spec.
  replace (DEFAULT_TAGS ++ category_extra_tags category
           ++ (if bool_decide (location = "Other") then [] else [lower location])
           ++ key_tokens product_key)
    with (fixed_tags category location ++ key_tokens product_key)
    by (unfold fixed_tags; rewrite <- !app_assoc; reflexivity).
  split.
  - intros Hin. rewrite dedupe_first_seen_app_any.
    pose proof (dedupe_first_seen_length (fixed_tags category location)) as Hlen.
    pose proof (fixed_tags_length category location) as Hfix.
    rewrite take_app_ge by lia. apply in_or_app. left.
    apply dedupe_first_seen_In, Hin.
  - intros Hin. apply list_elem_of_In in Hin.
    apply (fun H => elem_of_sublist _ _ _ H (sublist_take _ 13)) in Hin.
    apply list_elem_of_In, dedupe_first_seen_In, in_app_or in Hin. exact Hin.
Qed.

Lemma generate_tags_keeps_fixed_witness :
  In (txt "california")
     (generate_tags "golden-gate-bridge-seen-from-the-marin-headlands-at-dawn-with-fog"
        "Landscapes" "California").
Proof.
  apply (proj1 (generate_tags_keeps_fixed
                  "golden-gate-bridge-seen-from-the-marin-headlands-at-dawn-with-fog"
                  "Landscapes" "California" "california")).
  vm_compute. tauto.
Defined.

(** ** More on facets and prices *)

Lemma PRICE_MATRIX_lookup (category : text) (row : gmap text Z) :
  (category, row) ∈ [ ("Architecture" : text, price_row 45 55 40 35);
                      ("Landscapes" : text,   price_row 50 65 45 40);
                      ("Cityscapes" : text,   price_row 45 55 40 35);
                      ("Nature" : text,       price_row 40 60 35 30);
                      ("Other" : text,        price_row 35 45 30 25) ] ->
  PRICE_MATRIX !! category = Some row.
Proof.
  intros Hin. unfold PRICE_MATRIX. apply elem_of_list_to_map_1; [|exact Hin].
  cbn [fmap list_fmap fst]. apply (bool_decide_unpack _). vm_compute. exact I.
Qed.

Lemma price_row_lookup (ca hi az other : Z) (location : text) (v : Z) :
  (location, v) ∈ [("California" : text, ca); ("Hawaii" : text, hi);
                   ("Arizona" : text, az); ("Other" : text, other)] ->
  price_row ca hi az other !! location = Some v.
Proof.
  intros Hin. unfold price_row. apply elem_of_list_to_map_1; [|exact Hin].
  cbn [fmap list_fmap fst]. apply (bool_decide_unpack _). vm_compute. exact I.
Qed.

Lemma calculate_price_in_matrix (category location : text) (row : gmap text Z) (v : Z) :
  PRICE_MATRIX !! category = Some row ->
  row !! location = Some v ->
  calculate_price category location = Some v.
Proof.
  intros Hrow Hv. rewrite calculate_price_eq, Hrow. cbn zeta.
  destruct (PRICE_MATRIX_rows _ _ Hrow) as [o Ho].
  unfold getitem, get_or. rewrite Ho. cbn [mbind option_bind]. rewrite Hv. reflexivity.
Qed.

Lemma price_of_vocabulary (c l : text) (row : gmap text Z) :
  (c, row) ∈ [ ("Architecture" : text, price_row 45 55 40 35);
               ("Landscapes" : text,   price_row 50 65 45 40);
               ("Cityscapes" : text,   price_row 45 55 40 35);
               ("Nature" : text,       price_row 40 60 35 30);
               ("Other" : text,        price_row 35 45 30 25) ] ->
  In l LOCATIONS ->
  In c CATEGORIES /\
  exists v, PRICE_MATRIX !! c = Some row /\ row !! l = Some v /\
            calculate_price c l = Some v /\ 25 <= v <= 65.
Proof.
  intros Hc Hl. pose proof (PRICE_MATRIX_lookup _ _ Hc) as Hpm.
  apply list_elem_of_In in Hc. cbn [In] in Hc.
  unfold LOCATIONS in Hl. cbn [map In] in Hl.
  destruct Hc as [Hc|[Hc|[Hc|[Hc|[Hc|[]]]]]]; injection Hc as Hk Hr;
    subst c row; (split; [unfold CATEGORIES; cbn [map In]; tauto|]);
    destruct Hl as [<-|[<-|[<-|[<-|[]]]]];
    eexists; (split; [exact Hpm|]);
    (split; [apply price_row_lookup; find_entry|]);
    (split; [apply (calculate_price_in_matrix _ _ _ _ Hpm); apply price_row_lookup; find_entry
            | lia]).
Qed.

(** X10: the category and the location of a path are always in the closed
    vocabularies, and the pair is always in the price matrix: for a path
    that was classified [calculate_price] never falls back, and its price
    lies between 25 and 65. *)
Theorem classified_price (p : text) :
  In (category (parse_metadata_from_path p)) CATEGORIES /\
  In (location (parse_metadata_from_path p)) LOCATIONS /\
  exists (row : gmap text Z) (v : Z),
    PRICE_MATRIX !! category (parse_metadata_from_path p) = Some row /\
    row !! location (parse_metadata_from_path p) = Some v /\
    calculate_price (category (parse_metadata_from_path p))
                    (location (parse_metadata_from_path p)) = Some v /\
    25 <= v <= 65.
Proof.
  assert (Hc : exists row, (category (parse_metadata_from_path p), row)
                 ∈ [ ("Architecture" : text, price_row 45 55 40 35);
                     ("Landscapes" : text,   price_row 50 65 45 40);
                     ("Cityscapes" : text,   price_row 45 55 40 35);
                     ("Nature" : text,       price_row 40 60 35 30);
                     ("Other" : text,        price_row 35 45 30 25) ]).
  { unfold parse_metadata_from_path. cbn [category].
    repeat match goal with |- context [if ?b then _ else _] => destruct b end;
      eexists; find_entry. }
  assert (Hl : In (location (parse_metadata_from_path p)) LOCATIONS).
  { unfold parse_metadata_from_path. cbn [location].
    repeat match goal with |- context [if ?b then _ else _] => destruct b end;
      cbn; tauto. }
  destruct Hc as [row Hc].
  destruct (price_of_vocabulary _ _ _ Hc Hl) as [Hcat (v & H1 & H2 & H3 & H4)].
  split; [exact Hcat|]. split; [exact Hl|]. exists row, v. auto.
Qed.

(** X11: the word "nature" always gives the category "Landscapes": it is
    listed for "Nature" too, but after. The category is "Nature" exactly
    for the paths that hold "wildlife" or "natural" and none of the words
    of the three categories before. *)
Theorem category_nature (p : text) :
  (contains "nature" (lower p) = true ->
   category (parse_metadata_from_path p) = "Landscapes") /\
  (category (parse_metadata_from_path p) = "Nature" <->
   any_in (map txt ["wildlife"; "natural"]%string) (lower p) = true /\
   any_in (map txt ["landscape"; "nature"; "scenic";
                    "architecture"; "building"; "structure";
                    "city"; "urban"; "skyline"]%string) (lower p) = false).
Proof.
  unfold parse_metadata_from_path. cbn [category].
  change (map txt ["landscape"; "nature"; "scenic"; "architecture"; "building"; "structure";
                   "city"; "urban"; "skyline"]%string)
    with (map txt ["landscape"; "nature"; "scenic"]%string
          ++ map txt ["architecture"; "building"; "structure"]%string
          ++ map txt ["city"; "urban"; "skyline"]%string).
  rewrite !any_in_app.
  assert (Hn : any_in (map txt ["nature"; "wildlife"; "natural"]%string) (lower p)
               = contains "nature" (lower p)
                 || any_in (map txt ["wildlife"; "natural"]%string) (lower p)) by reflexivity.
  assert (Hl : contains "nature" (lower p) = true ->
               any_in (map txt ["landscape"; "nature"; "scenic"]%string) (lower p) = true).
  { intros H. cbn [map]. rewrite !any_in_cons, H. apply orb_true_iff. right. reflexivity. }
  rewrite Hn. split.
  - intros H. rewrite (Hl H). reflexivity.
  - destruct (contains "nature" (lower p)) eqn:Hnat.
    + rewrite (Hl eq_refl). cbn. split; [discriminate | intros [_ H]; discriminate H].
    + cbn [orb].
      destruct (any_in (map txt ["landscape"; "nature"; "scenic"]%string) (lower p)),
        (any_in (map txt ["architecture"; "building"; "structure"]%string) (lower p)),
        (any_in (map txt ["city"; "urban"; "skyline"]%string) (lower p)),
        (any_in (map txt ["wildlife"; "natural"]%string) (lower p));
        cbn; split; try discriminate; try (intros [H1 H2]; discriminate); auto.
Qed.

Lemma category_nature_witness :
  category (parse_metadata_from_path "/Volumes/LaCie/Etsy/Nature/heron_main_0001.jpg")
  = "Landscapes".
Proof.
  apply (proj1 (category_nature "/Volumes/LaCie/Etsy/Nature/heron_main_0001.jpg")).
  vm_compute. reflexivity.
Defined.

(** ** More on product keys *)

Lemma path_name_go_no_slash (name : text) : forall cur : text,
  no_slash name = true -> path_name_go cur name = rev cur ++ name.
Proof.
  induction name as [|c name IH]; intros cur H; cbn [path_name_go].
  - rewrite app_nil_r. reflexivity.
  - cbn [no_slash forallb] in H. apply andb_true_iff in H as [Hc Hn].
    apply negb_true_iff in Hc. rewrite Hc, (IH (c :: cur) Hn). cbn [rev].
    rewrite <- app_assoc. reflexivity.
Qed.

Lemma path_name_go_dir (dir p : text) : forall cur : text,
  path_name_go cur (dir ++ "/"%char :: p) = path_name_go [] p.
Proof.
  induction dir as [|c dir IH]; intros cur; cbn [app path_name_go].
  - reflexivity.
  - destruct (is_char "/" c); apply IH.
Qed.

Lemma product_stem_name (p q : text) :
  path_name p = path_name q -> product_stem p = product_stem q.
Proof. intros H. unfold product_stem, path_stem. rewrite H. reflexivity. Qed.

(** X12: the product key of a file is read off its name alone: the
    directories before the name do not count, so files of one name in two
    directories have one key. *)
Theorem product_key_of_name (translit : text -> text) (dir name : text) :
  file_name name ->
  path_name (dir +++ "/" +++ name) = name /\
  product_key translit (dir +++ "/" +++ name) = product_key translit name.
Proof.
  intros (_ & _ & Hn).
  assert (H1 : path_name (dir +++ "/" +++ name) = name).
  { unfold path_name. change (dir +++ "/" +++ name) with (dir ++ "/"%char :: name).
    rewrite path_name_go_dir. apply (path_name_go_no_slash name [] Hn). }
  split; [exact H1|]. unfold product_key. f_equal. apply product_stem_name.
  rewrite H1. symmetry. apply (path_name_go_no_slash name [] Hn).
Qed.

Lemma product_key_of_name_witness :
  product_key ascii_translit ("/Volumes/LaCie/Etsy/California" +++ "/" +++ "big_sur_main_0001.jpg")
  = product_key ascii_translit "big_sur_main_0001.jpg".
Proof.
  refine (proj2 (product_key_of_name ascii_translit "/Volumes/LaCie/Etsy/California"
                   "big_sur_main_0001.jpg" _)).
  split; [|split]; [intros H; vm_compute in H; discriminate H
                   | intros H; vm_compute in H; discriminate H
                   | reflexivity].
Defined.

Section SlugFixed.

Implicit Types (s : text) (c : ascii) (P : ascii -> bool).

Lemma slug_char_lower c : slug_char c = true -> lower_char c = c.
Proof. destruct c as [[] [] [] [] [] [] [] []]; (discriminate || reflexivity). Qed.

Lemma slug_char_allowed c :
  slug_char c = true ->
  is_quote c = false /\ is_char "," c = false /\ disallowed c = false.
Proof. destruct c as [[] [] [] [] [] [] [] []]; (discriminate || (repeat split; reflexivity)). Qed.

Lemma sub_runs_none P rep s : forall b : bool,
  forallb (fun c => negb (P c)) s = true -> sub_runs P rep b s = s.
Proof.
  induction s as [|c s IH]; intros b H; cbn [sub_runs]; [reflexivity|].
  cbn [forallb] in H. apply andb_true_iff in H as [Hc Hs]. apply negb_true_iff in Hc.
  rewrite Hc, (IH false Hs). reflexivity.
Qed.

Lemma cleanup_numbers_none s : forall prev : option ascii,
  forallb (fun c => negb (is_char "," c)) s = true -> cleanup_numbers prev s = s.
Proof.
  induction s as [|c s IH]; intros prev H; cbn [cleanup_numbers]; [reflexivity|].
  cbn [forallb] in H. apply andb_true_iff in H as [Hc Hs]. apply negb_true_iff in Hc.
  rewrite Hc, (IH _ Hs). reflexivity.
Qed.

Lemma squeeze_single s : forall b : bool,
  no_double_dash s = true -> (b = true -> starts_dash s = false) ->
  sub_runs is_dash "-" b s = s.
Proof.
  change (txt "-") with ["-"%char].
  induction s as [|c s IH]; intros b Hn Hb; cbn [sub_runs]; [reflexivity|].
  assert (Hn' : no_double_dash s = true).
  { destruct s as [|c' s']; [reflexivity|].
    rewrite no_double_dash_cons in Hn. apply andb_true_iff in Hn as [_ Hn]. exact Hn. }
  destruct (is_dash c) eqn:Hc.
  - destruct b; [cbn in Hb; rewrite Hc in Hb; specialize (Hb eq_refl); discriminate Hb|].
    cbn [app]. rewrite (IH true Hn').
    + f_equal. unfold is_dash, is_char in Hc. apply N.eqb_eq in Hc.
      apply (f_equal ascii_of_N) in Hc. unfold code in Hc. rewrite !ascii_N_embedding in Hc.
      symmetry. exact Hc.
    + intros _. destruct s as [|c' s']; [reflexivity|].
      rewrite no_double_dash_cons, Hc in Hn. cbn [andb negb] in Hn.
      apply andb_true_iff in Hn as [Hn _]. apply negb_true_iff in Hn. exact Hn.
  - rewrite (IH false Hn') by discriminate. reflexivity.
Qed.

Lemma lstrip_none P s : match s with c :: _ => P c = false | [] => True end -> lstrip P s = s.
Proof. destruct s as [|c s]; cbn [lstrip]; [reflexivity|]. intros ->. reflexivity. Qed.

Lemma rstrip_none s : ends_dash s = false -> rstrip is_dash s = s.
Proof.
  induction s as [|c s IH]; intros H; cbn [rstrip]; [reflexivity|].
  destruct s as [|c' s'].
  - cbn in H |- *. rewrite H. reflexivity.
  - change (ends_dash (c :: c' :: s')) with (ends_dash (c' :: s')) in H.
    rewrite (IH H). reflexivity.
Qed.

Lemma strip_none s : slug_safe s = true -> strip is_dash s = s.
Proof.
  unfold slug_safe. intros H.
  apply andb_true_iff in H as [H He]. apply andb_true_iff in H as [_ Hs].
  apply negb_true_iff in He. apply negb_true_iff in Hs.
  unfold strip. rewrite lstrip_none by (destruct s; [exact I | exact Hs]).
  apply rstrip_none, He.
Qed.

(** X13: slugify leaves a slug of at most 50 characters as it is: a
    product key is its own key, and slugify is idempotent. *)
Theorem slugify_fixed s :
  slug_safe s = true -> (length s <= 50)%nat -> slugify ascii_translit s 50 = s.
Proof.
  intros Hs Hl. pose proof Hs as Hsafe. unfold slug_safe in Hs.
  apply andb_true_iff in Hs as [Hs _]. apply andb_true_iff in Hs as [Hs _].
  apply andb_true_iff in Hs as [Hc Hd].
  assert (Hq : forallb (fun c => negb (is_quote c)) s = true).
  { apply forallb_forall. intros c Hin. rewrite forallb_forall in Hc.
    destruct (slug_char_allowed c (Hc c Hin)) as (-> & _ & _). reflexivity. }
  assert (Hcomma : forallb (fun c => negb (is_char "," c)) s = true).
  { apply forallb_forall. intros c Hin. rewrite forallb_forall in Hc.
    destruct (slug_char_allowed c (Hc c Hin)) as (_ & -> & _). reflexivity. }
  assert (Hdis : forallb (fun c => negb (disallowed c)) s = true).
  { apply forallb_forall. intros c Hin. rewrite forallb_forall in Hc.
    destruct (slug_char_allowed c (Hc c Hin)) as (_ & _ & ->). reflexivity. }
  assert (Hlow : lower s = s).
  { unfold lower. rewrite <- (map_id s) at 2. apply map_ext_in. intros c Hin.
    rewrite forallb_forall in Hc. apply slug_char_lower, Hc, Hin. }
  rewrite slugify_unfold. unfold slug_text, ascii_translit.
  rewrite (sub_runs_none is_quote "-" s false Hq), Hlow,
    (sub_runs_none is_quote "" s false Hq), (cleanup_numbers_none s None Hcomma),
    (sub_runs_none disallowed "-" s false Hdis), (squeeze_single s false Hd) by discriminate.
  cbn [Nat.ltb Nat.leb]. unfold smart_truncate. cbn [Nat.eqb].
  rewrite !(strip_none s Hsafe).
  destruct (length s <? 50)%nat; [reflexivity|].
  rewrite firstn_all2 by exact Hl. apply strip_none, Hsafe.
Qed.

Lemma slugify_fixed_witness :
  slugify ascii_translit "golden-gate-bridge" 50 = "golden-gate-bridge".
Proof. apply (slugify_fixed "golden-gate-bridge"); [reflexivity | cbn; lia]. Defined.

(** Titles *)
Lemma lower_char_title c :
  lower_char (lower_char c) = lower_char c /\ lower_char (upper_char c) = lower_char c.
Proof. destruct c as [[] [] [] [] [] [] [] []]; split; reflexivity. Qed.

Lemma lower_title_go s : forall b : bool, lower (title_go b s) = lower s.
Proof.
  induction s as [|c s IH]; intros b; cbn [title_go lower map]; [reflexivity|].
  fold (lower (title_go (is_cased c) s)). fold (lower s). rewrite IH.
  destruct (lower_char_title c) as [H1 H2]. destruct b; rewrite ?H1, ?H2; reflexivity.
Qed.

Lemma slug_char_spaced c :
  slug_char c = true ->
  (if is_char " " (lower_char (if is_char "-" c then " "%char else c))
   then "-"%char else lower_char (if is_char "-" c then " "%char else c)) = c.
Proof. destruct c as [[] [] [] [] [] [] [] []]; (discriminate || reflexivity). Qed.

(** X14: the title of a product is its key with a space for every
    hyphen and a capital at the head of every word: lowered, with the
    spaces turned back into hyphens, the title gives the key again. *)
Theorem title_gives_key (translit : text -> text) (p : text) :
  lower (title_case (replace_char "-" " " (product_key translit p)))
  = replace_char "-" " " (product_key translit p) /\
  replace_char " " "-"
    (lower (title_case (replace_char "-" " " (product_key translit p))))
  = product_key translit p.
Proof.
  destruct (slugify_slug_safe translit (product_stem p)) as [Hs _].
  fold (product_key translit p) in Hs. unfold slug_safe in Hs.
  apply andb_true_iff in Hs as [Hs _]. apply andb_true_iff in Hs as [Hs _].
  apply andb_true_iff in Hs as [Hc _]. rewrite forallb_forall in Hc.
  unfold title_case. rewrite lower_title_go.
  assert (H2 : replace_char " " "-" (lower (replace_char "-" " " (product_key translit p)))
               = product_key translit p).
  { unfold replace_char, lower. rewrite !map_map.
    rewrite <- (map_id (product_key translit p)) at 2. apply map_ext_in.
    intros c Hin. apply slug_char_spaced, Hc, Hin. }
  split; [|exact H2].
  unfold replace_char, lower. rewrite map_map. apply map_ext_in. intros c Hin.
  specialize (Hc c Hin). revert Hc.
  destruct c as [[] [] [] [] [] [] [] []]; (discriminate || reflexivity).
Qed.

End SlugFixed.

(** ** More on the image transforms *)

(** X15: [pad_resize] never enlarges: the image pasted on the canvas is at
    most as wide and as high as the source, and a source that fits the
    canvas is pasted as it is. *)
Theorem pad_resize_never_enlarges (im out : image) (w h : Z) (bg : text) :
  0 < width im -> 0 < height im -> 0 < w -> 0 < h ->
  pad_resize im w h bg = Some out ->
  exists scaled x y,
    out = Paste (New RGB w h bg) scaled x y /\
    width scaled <= width im /\ height scaled <= height im /\
    (width im <= w -> height im <= h -> scaled = im).
Proof.
  intros HW HH Hw Hh Hpad. unfold pad_resize, copy in Hpad.
  destruct (decoded im); [|discriminate]. cbn [mbind option_bind] in Hpad.
  destruct (thumbnail im w h) as [scaled|] eqn:Hth; [|discriminate].
  cbn [mbind option_bind] in Hpad.
  destruct ((w <? 0) || (h <? 0)); [discriminate|]. injection Hpad as <-.
  exists scaled, ((w - width scaled) / 2), ((h - height scaled) / 2).
  split; [reflexivity|].
  unfold thumbnail, preserve_aspect_ratio in Hth.
  set (Wd := width im) in *. set (Ht := height im) in *.
  destruct ((Wd <=? w) && (Ht <=? h)) eqn:Hfit.
  { injection Hth as <-. fold Wd Ht. repeat split; lia || auto. }
  assert (Hnf : ~ (Wd <= w /\ Ht <= h)).
  { intros [H1 H2]. apply Z.leb_le in H1, H2. rewrite H1, H2 in Hfit. discriminate. }
  clear Hfit.
  replace (Ht =? 0) with false in Hth by (symmetry; apply Z.eqb_neq; lia).
  replace (h =? 0) with false in Hth by (symmetry; apply Z.eqb_neq; lia).
  cbn [orb] in Hth.
  assert (Hgoal : forall x y, x <= Wd -> y <= Ht ->
            (if (x =? Wd) && (y =? Ht) then Some im
             else if (x <? 1) || (y <? 1) then None else Some (Resize im x y)) = Some scaled ->
            width scaled <= Wd /\ height scaled <= Ht /\ (Wd <= w -> Ht <= h -> scaled = im)).
  { intros x y Hx Hy Hif. destruct ((x =? Wd) && (y =? Ht)).
    - injection Hif as <-. fold Wd Ht. repeat split; lia || tauto.
    - destruct ((x <? 1) || (y <? 1)); [discriminate|]. injection Hif as <-.
      cbn [width height]. repeat split; lia || tauto. }
  destruct (h * Wd <=? w * Ht) eqn:Hbr.
  - apply Z.leb_le in Hbr.
    assert (HhH : h <= Ht) by nia.
    pose proof (floor_bounds (h * Wd) Ht HH) as Hf.
    pose proof (ceil_bounds (h * Wd) Ht HH) as Hc.
    set (f := (h * Wd) / Ht) in *. set (c := ceil_div (h * Wd) Ht) in *.
    assert (HfW : f <= Wd) by nia. assert (HcW : c <= Wd) by nia.
    apply Hgoal in Hth; [exact Hth| |exact HhH].
    destruct (nearer_either f c (Z.abs (Wd * h - f * Ht)) (Z.abs (Wd * h - c * Ht))
                (float_key Wd Ht f h) (float_key Wd Ht c h)) as [-> | ->]; lia.
  - apply Z.leb_gt in Hbr.
    replace (Wd =? 0) with false in Hth by (symmetry; apply Z.eqb_neq; lia).
    assert (HwW : w <= Wd) by nia.
    pose proof (floor_bounds (w * Ht) Wd HW) as Hf.
    pose proof (ceil_bounds (w * Ht) Wd HW) as Hc.
    set (f := (w * Ht) / Wd) in *. set (c := ceil_div (w * Ht) Wd) in *.
    assert (HfH : f <= Ht) by nia. assert (HcH : c <= Ht) by nia.
    apply Hgoal in Hth; [exact Hth|exact HwW|].
    destruct (f =? 0); [lia|].
    destruct (nearer_either f c (Z.abs (Wd * f - w * Ht) * c) (Z.abs (Wd * c - w * Ht) * f)
                (float_key Wd Ht w f) (float_key Wd Ht w c)) as [-> | ->]; lia.
Qed.

Lemma pad_resize_never_enlarges_witness :
  exists scaled x y,
    Paste (New RGB 400 400 "#ffffff") (Opened "/in/small_main_0001.jpg" RGB 300 200) 50 100
    = Paste (New RGB 400 400 "#ffffff") scaled x y /\
    width scaled <= 300 /\ height scaled <= 200 /\
    (300 <= 400 -> 200 <= 400 -> scaled = Opened "/in/small_main_0001.jpg" RGB 300 200).
Proof.
  apply (pad_resize_never_enlarges (Opened "/in/small_main_0001.jpg" RGB 300 200) _
           400 400 "#ffffff"); [cbn; lia | cbn; lia | lia | lia | vm_compute; reflexivity].
Defined.

Lemma quot_share (a n : Z) : 0 <= a -> 0 < n -> 0 <= Z.quot a n /\ n * Z.quot a n <= a.
Proof.
  intros Ha Hn. rewrite Z.quot_div_nonneg by lia.
  pose proof (floor_bounds a n Hn). pose proof (Z.div_pos a n Ha Hn). lia.
Qed.

(** X16: a watermark that is composited sits in the bottom right corner:
    the margin at its right and below it is 0.02 of the shorter side of the
    image, cut to an integer. It never hangs over the left edge; it stays
    below the top edge when the watermark file is not higher than wide, and
    when the library refuses a negative place. *)
Theorem watermark_bottom_right (W : world) (im out : image) (m : mode) (ww wh : Z) :
  0 < width im -> 0 < height im ->
  watermark_file W = Some (m, ww, wh) -> 0 < ww ->
  add_watermark_try W im = Some out ->
  exists wm x y,
    out = Convert RGB (AlphaComposite (Convert RGBA im) wm x y) /\
    x + width wm + Z.quot (2 * Z.min (width im) (height im)) 100 = width im /\
    y + height wm + Z.quot (2 * Z.min (width im) (height im)) 100 = height im /\
    0 <= Z.quot (2 * Z.min (width im) (height im)) 100 /\
    1 <= width wm /\ 1 <= height wm /\
    0 <= x /\
    (wh <= ww \/ negative_dest_raises W = true -> 0 <= y).
Proof.
  intros HW HH Hfile Hww Htry.
  unfold add_watermark_try in Htry. rewrite Hfile in Htry.
  cbn [mbind option_bind width height] in Htry.
  destruct (ww =? 0); [discriminate|].
  unfold WATERMARK_SCALE_num, WATERMARK_SCALE_den in Htry.
  set (mn := Z.min (width im) (height im)) in *.
  set (tgt := Z.quot (mn * 20) 100) in *.
  set (th := Z.quot (tgt * wh) ww) in *.
  set (margin := Z.quot (2 * mn) 100) in *.
  destruct ((tgt <? 1) || (th <? 1)) eqn:Hsz; [discriminate|].
  apply orb_false_iff in Hsz as [Ht Hth]. apply Z.ltb_ge in Ht, Hth.
  cbn [List.find fst] in Htry.
  rewrite bool_decide_eq_true_2 in Htry by reflexivity.
  cbn [fmap option_fmap option_map snd default] in Htry.
  cbv beta iota delta [Datatypes.id] in Htry.
  assert (Hmn : 0 < mn) by (subst mn; lia).
  destruct (quot_share (mn * 20) 100 ltac:(lia) ltac:(lia)) as [_ Htgt]. fold tgt in Htgt.
  destruct (quot_share (2 * mn) 100 ltac:(lia) ltac:(lia)) as [Hm0 Hmargin]. fold margin in Hmargin, Hm0.
  assert (Hx : 0 <= width im - tgt - margin) by (subst mn; lia).
  destruct (negative_dest_raises W && _) eqn:Hneg; [discriminate|].
  injection Htry as <-. eexists _, _, _. split; [reflexivity|].
  cbn [width height]. repeat split; try lia.
  intros [Hle|Hflag].
  - assert (Hthle : th <= tgt).
    { subst th. apply Z.quot_le_upper_bound; [lia|]. nia. }
    subst mn. lia.
  - rewrite Hflag in Hneg. cbn [andb] in Hneg. apply orb_false_iff in Hneg as [_ Hy].
    apply Z.ltb_ge in Hy. exact Hy.
Qed.

Lemma watermark_bottom_right_witness :
  exists wm x y,
    Convert RGB
      (AlphaComposite (Convert RGBA (New RGB 2000 2000 "#ffffff"))
         (PutAlpha (Resize (Convert RGBA (Opened WATERMARK_PATH RGBA 200 100)) 400 200))
         1560 1760)
    = Convert RGB (AlphaComposite (Convert RGBA (New RGB 2000 2000 "#ffffff")) wm x y) /\
    x + width wm + Z.quot (2 * Z.min 2000 2000) 100 = 2000 /\
    y + height wm + Z.quot (2 * Z.min 2000 2000) 100 = 2000 /\
    0 <= Z.quot (2 * Z.min 2000 2000) 100 /\
    1 <= width wm /\ 1 <= height wm /\
    0 <= x /\
    (100 <= 200 \/ true = true -> 0 <= y).
Proof.
  apply (watermark_bottom_right (sample_world 200 100) (New RGB 2000 2000 "#ffffff") _
           RGBA 200 100); [cbn; lia | cbn; lia | reflexivity | lia | vm_compute; reflexivity].
Defined.

(** ** The report *)

Section Report.

Variable field : etsy_listing -> text.

Lemma counts_by_lookup (listings : list etsy_listing) (v : text) :
  counts_by field listings !! v
  = if bool_decide (v ∈ map field listings) then Some (count_with field v listings) else None.
Proof.
  unfold counts_by. case_bool_decide as Hin.
  - apply lookup_set_to_map; [intros y y' _ _ Hyy; exact Hyy|].
    exists v. split; [apply elem_of_list_to_set, Hin | reflexivity].
  - apply eq_None_not_Some. intros [x Hx].
    apply lookup_set_to_map in Hx as (y & Hy & Heq); [|intros y y' _ _ Hyy; exact Hyy].
    injection Heq as -> _. apply elem_of_list_to_set in Hy. contradiction.
Qed.

Lemma count_with_cons (l : etsy_listing) (listings : list etsy_listing) (v : text) :
  count_with field v (l :: listings)
  = ((if bool_decide (field l = v) then 1 else 0) + count_with field v listings)%nat.
Proof. unfold count_with. cbn [List.filter]. case_bool_decide; reflexivity. Qed.

Lemma count_with_positive (listings : list etsy_listing) (v : text) :
  v ∈ map field listings -> (0 < count_with field v listings)%nat.
Proof.
  induction listings as [|l listings IH]; cbn [map]; intros Hin.
  - apply elem_of_nil in Hin. contradiction.
  - rewrite count_with_cons. apply elem_of_cons in Hin as [->|Hin].
    + rewrite bool_decide_eq_true_2 by reflexivity. lia.
    + specialize (IH Hin). lia.
Qed.

Lemma sum_list_indicator (x : text) (vs : list text) :
  NoDup vs -> x ∈ vs ->
  sum_list (map (fun v => if bool_decide (x = v) then 1%nat else 0%nat) vs) = 1%nat.
Proof.
  induction 1 as [|v vs Hv Hnd IH]; intros Hin.
  - apply elem_of_nil in Hin. contradiction.
  - cbn [map sum_list]. destruct (decide (x = v)) as [->|Hne].
    + rewrite bool_decide_eq_true_2 by reflexivity.
      assert (H0 : forall l : list text, v ∉ l ->
                sum_list (map (fun v0 => if bool_decide (v = v0) then 1%nat else 0%nat) l) = 0%nat).
      { induction l as [|a l IHl]; intros Hnot; cbn [map sum_list]; [reflexivity|].
        apply not_elem_of_cons in Hnot as [Hne Hnot].
        rewrite bool_decide_eq_false_2 by exact Hne. rewrite (IHl Hnot). reflexivity. }
      rewrite (H0 vs Hv). reflexivity.
    + rewrite bool_decide_eq_false_2 by exact Hne.
      apply elem_of_cons in Hin as [Heq|Hin]; [contradiction|]. rewrite (IH Hin). reflexivity.
Qed.

Lemma sum_list_count_with (listings : list etsy_listing) (vs : list text) :
  NoDup vs -> (forall l, l ∈ listings -> field l ∈ vs) ->
  sum_list (map (fun v => count_with field v listings) vs) = length listings.
Proof.
  intros Hnd. induction listings as [|l listings IH]; intros Hall.
  - cbn [length]. clear. induction vs as [|v vs IH]; [reflexivity|]. cbn [map sum_list].
    rewrite IH. reflexivity.
  - assert (Hsplit : sum_list (map (fun v => count_with field v (l :: listings)) vs)
                     = (sum_list (map (fun v => if bool_decide (field l = v) then 1%nat else 0%nat) vs)
                        + sum_list (map (fun v => count_with field v listings) vs))%nat).
    { clear. induction vs as [|v vs IHv]; [reflexivity|]. cbn [map sum_list].
      rewrite count_with_cons, IHv. unfold Datatypes.id. lia. }
    rewrite Hsplit, (sum_list_indicator (field l) vs Hnd) by (apply Hall; left).
    rewrite IH by (intros l' Hl'; apply Hall; right; exact Hl'). reflexivity.
Qed.

Lemma sum_counts_values (counts : gmap text nat) :
  sum_counts counts = sum_list (map_to_list counts).*2.
Proof.
  unfold sum_counts. rewrite map_fold_foldr.
  induction (map_to_list counts) as [|[k n] l IH]; [reflexivity|].
  cbn [foldr fmap list_fmap sum_list snd uncurry]. cbn in IH. rewrite IH. reflexivity.
Qed.

Lemma sum_counts_by (listings : list etsy_listing) :
  sum_counts (counts_by field listings) = length listings.
Proof.
  rewrite sum_counts_values. unfold counts_by, set_to_map.
  set (X := list_to_set (map field listings) : gset text).
  assert (Hfst : ((fun v => (v, count_with field v listings)) <$> elements X).*1 = elements X).
  { rewrite <- list_fmap_compose. apply list_fmap_id. }
  rewrite map_to_list_to_map by (rewrite Hfst; apply NoDup_elements).
  rewrite <- list_fmap_compose.
  apply (sum_list_count_with listings (elements X)); [apply NoDup_elements|].
  intros l Hl. apply elem_of_elements, elem_of_list_to_set, list_elem_of_fmap. eauto.
Qed.

Lemma counts_by_spec (listings : list etsy_listing) (v : text) :
  (counts_by field listings !! v = None <-> v ∉ map field listings) /\
  (forall n, counts_by field listings !! v = Some n ->
             n = count_with field v listings /\ (0 < n)%nat).
Proof.
  rewrite counts_by_lookup. case_bool_decide as Hin.
  - split; [split; [discriminate | intros Hnot; contradiction]|].
    intros n Heq. injection Heq as <-. split; [reflexivity|].
    apply count_with_positive, Hin.
  - split; [split; [intros _; exact Hin | reflexivity]|]. discriminate.
Qed.

End Report.

(** X17: in the report the counts by category (and so by location) are
    those of the values that occur in the listings and of no other, none
    of them is zero, and together they count every listing once: their sum
    is [total_products]. *)
Theorem report_counts (listings : list etsy_listing) (v : text) :
  (categories (make_report listings) !! v = None <-> v ∉ map etsy_category listings) /\
  (forall n, categories (make_report listings) !! v = Some n ->
             n = count_with etsy_category v listings /\ (0 < n)%nat) /\
  (locations (make_report listings) !! v = None <-> v ∉ map etsy_location listings) /\
  (forall n, locations (make_report listings) !! v = Some n ->
             n = count_with etsy_location v listings /\ (0 < n)%nat) /\
  sum_counts (categories (make_report listings)) = total_products (make_report listings) /\
  sum_counts (locations (make_report listings)) = total_products (make_report listings).
Proof.
  cbn [make_report categories locations total_products].
  destruct (counts_by_spec etsy_category listings v) as [H1 H2].
  destruct (counts_by_spec etsy_location listings v) as [H3 H4].
  rewrite !sum_counts_by. auto 7.
Qed.

(** ** The whole run *)

Lemma length_concat_filter {A : Type} (P : text * list A -> bool) (groups : list (text * list A)) :
  (length (concat (map snd (List.filter P groups))) <= length (concat (map snd groups)))%nat.
Proof.
  induction groups as [|g groups IH]; cbn [List.filter map concat]; [lia|].
  destruct (P g); cbn [map concat]; rewrite ?length_app; lia.
Qed.

Lemma filter_all {A : Type} (P : A -> bool) (l : list A) :
  (forall x, x ∈ l -> P x = true) -> List.filter P l = l.
Proof.
  induction l as [|x l IH]; intros H; cbn [List.filter]; [reflexivity|].
  rewrite (H x) by left. rewrite IH; [reflexivity|]. intros y Hy. apply H. right. exact Hy.
Qed.

Lemma sum_source_files {A : Type} (groups : list (text * list A)) :
  foldr Nat.add 0%nat (map (fun g => length (snd g)) groups)
  = length (concat (map snd groups)).
Proof.
  induction groups as [|g groups IH]; cbn [map foldr concat]; [reflexivity|].
  rewrite length_app, IH. reflexivity.
Qed.

(** X18: the report counts one product for every group that is processed
    to its end, and for "images processed" every file of these groups, the
    extras after the ninth and those that [load_rgb] refuses included: the
    number is at most the number of files the scan found, and is that
    number when every group is processed to its end. *)
Theorem report_totals (translit : text -> text) (W : world) (entries : list (text * bool)) :
  world_ok W ->
  total_products (snd (pipeline translit W entries))
  = length (List.filter (group_completes W) (grouped translit entries)) /\
  total_images_processed (snd (pipeline translit W entries))
  = length (concat (map snd (List.filter (group_completes W) (grouped translit entries)))) /\
  (total_images_processed (snd (pipeline translit W entries))
   <= length (iter_images entries))%nat /\
  ((forall g, g ∈ grouped translit entries -> group_completes W g = true) ->
   total_products (snd (pipeline translit W entries)) = length (grouped translit entries) /\
   total_images_processed (snd (pipeline translit W entries)) = length (iter_images entries)).
Proof.
  intros Wok. unfold pipeline, main. cbn [snd make_report total_products total_images_processed].
  destruct (groups_loop_completing W Wok (grouped translit entries)
              {| etsy_listings := []; website_products := []; files_written := [] |})
    as (H1 & H2 & _).
  cbn [etsy_listings map app] in H1, H2.
  assert (Hfiles : length (concat (map snd (grouped translit entries)))
                   = length (iter_images entries)).
  { unfold grouped.
    destruct (group_loop_invariant translit (iter_images entries) []) as (_ & _ & H3);
      [constructor | constructor |].
    rewrite sort_groups_files, H3. reflexivity. }
  rewrite H2, sum_source_files.
  assert (Hn : length (etsy_listings
                 (groups_loop W (grouped translit entries)
                    {| etsy_listings := []; website_products := []; files_written := [] |}))
               = length (List.filter (group_completes W) (grouped translit entries))).
  { rewrite <- (length_map sku), H1, length_map. reflexivity. }
  rewrite Hn. split; [reflexivity|]. split; [reflexivity|]. split.
  - rewrite <- Hfiles. apply length_concat_filter.
  - intros Hall. rewrite (filter_all _ _ Hall). split; [reflexivity | exact Hfiles].
Qed.

Lemma report_totals_witness :
  total_images_processed (snd (pipeline ascii_translit (sample_world 200 100) sample_entries))
  = length (iter_images sample_entries).
Proof.
  refine (proj2 (proj2 (proj2 (proj2
            (report_totals ascii_translit (sample_world 200 100) sample_entries
               (sample_world_ok 200 100)))) _)).
  apply Forall_forall. apply (bool_decide_unpack _). vm_compute. exact I.
Defined.

(** ** No file is written twice *)

Lemma app_sep_inj (c : ascii) (a b r r' : text) :
  ~ In c a -> ~ In c b -> a ++ c :: r = b ++ c :: r' -> a = b.
Proof.
  revert b. induction a as [|x a IH]; intros [|y b] Ha Hb Heq; cbn [app] in Heq.
  - reflexivity.
  - injection Heq as Hc _. exfalso. apply Hb. left. symmetry. exact Hc.
  - injection Heq as Hc _. exfalso. apply Ha. left. exact Hc.
  - injection Heq as -> Heq. f_equal. apply IH; [| |exact Heq].
    + intros Hin. apply Ha. right. exact Hin.
    + intros Hin. apply Hb. right. exact Hin.
Qed.

Lemma slug_char_plain (c : ascii) :
  slug_char c = true -> c <> "/"%char /\ c <> "_"%char.
Proof. destruct c as [[] [] [] [] [] [] [] []]; (discriminate || (split; discriminate)). Qed.

Lemma slug_no_slash (k : text) : forallb slug_char k = true -> ~ In "/"%char k.
Proof.
  intros Hk Hin. rewrite forallb_forall in Hk.
  destruct (slug_char_plain _ (Hk _ Hin)) as [H _]. apply H. reflexivity.
Qed.

(** The directory of a product tells its key. *)
Lemma in_product_dir_key (k1 k2 path : text) :
  forallb slug_char k1 = true -> forallb slug_char k2 = true ->
  in_product_dir k1 path -> in_product_dir k2 path -> k1 = k2.
Proof.
  intros Hk1 Hk2 [n1 H1] [n2 H2]. rewrite H1 in H2. clear H1.
  unfold product_dir_of in H2.
  set (E := path_join OUTPUT_ROOT "etsy_images") in H2.
  change (txt "/") with ["/"%char] in H2. change (txt "_") with ["_"%char] in H2.
  unfold path_join in H2.
  destruct k1 as [|c1 k1], k2 as [|c2 k2]; [reflexivity| | |].
  - rewrite <- !app_assoc in H2. apply app_inv_head in H2. cbn [app] in H2.
    injection H2 as Hc _. cbn [forallb] in Hk2. apply andb_true_iff in Hk2 as [Hc2 _].
    destruct (slug_char_plain _ Hc2) as [_ Hne]. exfalso. apply Hne. symmetry. exact Hc.
  - rewrite <- !app_assoc in H2. apply app_inv_head in H2. cbn [app] in H2.
    injection H2 as Hc _. cbn [forallb] in Hk1. apply andb_true_iff in Hk1 as [Hc1 _].
    destruct (slug_char_plain _ Hc1) as [_ Hne]. exfalso. apply Hne. exact Hc.
  - rewrite <- !app_assoc in H2. apply app_inv_head in H2.
    cbn [app] in H2. injection H2 as Hc H2. subst c2. f_equal.
    cbn [forallb] in Hk1, Hk2.
    apply andb_true_iff in Hk1 as [_ Hk1]. apply andb_true_iff in Hk2 as [_ Hk2].
    exact (app_sep_inj _ _ _ _ _ (slug_no_slash _ Hk1) (slug_no_slash _ Hk2) H2).
Qed.

Lemma filter_keys_NoDup {A : Type} (P : text * A -> bool) (groups : list (text * A)) :
  NoDup (map fst groups) -> NoDup (map fst (List.filter P groups)).
Proof.
  induction groups as [|g groups IH]; cbn [map List.filter]; intros Hnd; [constructor|].
  apply NoDup_cons in Hnd as [Hnot Hnd]. destruct (P g); [|apply IH, Hnd].
  cbn [map]. apply NoDup_cons. split; [|apply IH, Hnd].
  intros Hin. apply Hnot. apply list_elem_of_fmap in Hin as (g' & Heq & Hin).
  apply list_elem_of_fmap. exists g'. split; [exact Heq|].
  apply list_elem_of_In. apply list_elem_of_In, List.filter_In in Hin as [Hin _]. exact Hin.
Qed.

Lemma groups_files_NoDup (W : world) (groups : list (text * list text)) :
  NoDup (map fst groups) ->
  Forall (fun g => forallb slug_char (fst g) = true) groups ->
  NoDup (map fst (concat (map (group_files W) groups))).
Proof.
  induction groups as [|g groups IH]; cbn [map concat]; intros Hnd Hk; [constructor|].
  apply NoDup_cons in Hnd as [Hnot Hnd]. apply Forall_cons in Hk as [Hg Hk].
  destruct (group_files_paths W g) as [Hgn Hgd].
  rewrite map_app. apply NoDup_app. split; [exact Hgn|]. split; [|apply IH; assumption].
  intros path Hp Hrest. apply Hnot.
  rewrite Forall_forall in Hgd. specialize (Hgd path Hp).
  apply list_elem_of_fmap in Hrest as (out & -> & Hout).
  apply list_elem_of_In, in_concat in Hout as (l & Hl & Hout).
  apply list_elem_of_In in Hl, Hout.
  apply list_elem_of_fmap in Hl as (g' & -> & Hg').
  destruct (group_files_paths W g') as [_ Hgd'].
  rewrite Forall_forall in Hgd'.
  assert (Hd' : in_product_dir (fst g') (fst out)).
  { apply Hgd'. apply list_elem_of_fmap. eauto. }
  rewrite Forall_forall in Hk.
  pose proof (in_product_dir_key _ _ _ Hg (Hk g' Hg') Hgd Hd') as Heq.
  apply list_elem_of_fmap. exists g'. split; [exact Heq | exact Hg'].
Qed.

(** X19: in a run no file is written twice, so no product overwrites an
    image of another; the listings have SKUs that differ from one another,
    each a slug of 50 characters at most. *)
Theorem run_never_overwrites (translit : text -> text) (W : world)
    (entries : list (text * bool)) :
  world_ok W ->
  NoDup (map fst (snd (main W (grouped translit entries)))) /\
  NoDup (map sku (fst (fst (fst (main W (grouped translit entries)))))) /\
  Forall (fun e => slug_safe (sku e) = true /\ (length (sku e) <= 50)%nat)
         (fst (fst (fst (main W (grouped translit entries))))).
Proof.
  intros Wok. unfold main. cbn [fst snd].
  destruct (groups_loop_completing W Wok (grouped translit entries)
              {| etsy_listings := []; website_products := []; files_written := [] |})
    as (H1 & _ & H3).
  cbn [etsy_listings files_written map app] in H1, H3.
  assert (Hinv : NoDup (map fst (grouped translit entries)) /\
                 Forall (group_of_key translit) (grouped translit entries)).
  { unfold grouped.
    destruct (group_loop_invariant translit (iter_images entries) []) as (Hn & Hg & _);
      [constructor | constructor |].
    split; [rewrite sort_groups_keys; exact Hn | apply sort_groups_of_key, Hg]. }
  destruct Hinv as [Hn Hg].
  assert (Hslug : Forall (fun g : text * list text =>
                            slug_safe (fst g) = true /\ (length (fst g) <= 50)%nat)
                    (grouped translit entries)).
  { eapply Forall_impl; [exact Hg|]. intros [key files] [Hne Hall]. cbn [fst snd] in *.
    destruct files as [|f files]; [contradiction|].
    apply Forall_cons in Hall as [<- _]. apply slugify_slug_safe. }
  split; [|split].
  - rewrite H3. apply groups_files_NoDup; [exact Hn|].
    eapply Forall_impl; [exact Hslug|]. intros g [Hs _]. unfold slug_safe in Hs.
    apply andb_true_iff in Hs as [Hs _]. apply andb_true_iff in Hs as [Hs _].
    apply andb_true_iff in Hs as [Hs _]. exact Hs.
  - rewrite H1. apply filter_keys_NoDup, Hn.
  - apply Forall_forall. intros e He.
    assert (Hsku : sku e ∈ map fst (List.filter (group_completes W) (grouped translit entries))).
    { rewrite <- H1. apply list_elem_of_fmap. eauto. }
    apply list_elem_of_fmap in Hsku as (g & -> & Hgin).
    apply list_elem_of_In, List.filter_In in Hgin as [Hgin _]. apply list_elem_of_In in Hgin.
    rewrite Forall_forall in Hslug. exact (Hslug g Hgin).
Qed.

Lemma run_never_overwrites_witness :
  NoDup (map fst (snd (main (sample_world 200 100) (grouped ascii_translit sample_entries)))).
Proof.
  apply (proj1 (run_never_overwrites ascii_translit (sample_world 200 100) sample_entries
                  (sample_world_ok 200 100))).
Defined.
